(** * Lyra recruiting-signal engine: training utilities and serving facade

    A shallow embedding of the parts of [ml_training] and
    [services/ml_api] that the specification's testable properties talk
    about, followed by the properties themselves.

    Conventions of the embedding.
    - A Python [float] (and a numpy float64 entry) is a real number: the
      arithmetic of the source is read as exact arithmetic, so rounding
      error, overflow and NaN are outside the model. The one effect of
      float64 that is modelled is the underflow of [np.exp] to exactly
      0.0, which decides whether a softmax entry is positive.
    - [np.argsort] with NumPy's default sort kind is not stable: the order
      it leaves equal values in is not the code's to choose. The code is
      modelled for every sort within what NumPy promises ([ArgSort]);
      Python's own [sorted] and [list.sort] are stable and modelled so.
    - A Python [str] is a [string]; its characters are read as code points
      below 256, and string routines work on the list of characters
      ([chars]).
    - A raised exception is the [Raise] branch of [result], or the
      [Throw] branch of [outcome] where the exception is not one of the
      three built-in ones of [exn].
    - A value read from JSON is of the type the writer of the file gives
      it, or null where the code would tell the difference.
    - A [dict] whose iteration order reaches the output is an
      insertion-ordered association list ([pydict]); a dict that is only
      looked up by key is a [gmap].
    - Fitted scikit-learn estimators are data: the numbers they hold or the
      functions they compute are fields of records.
    - File and network access is left out: a function that reads a CSV
      file or an artifact directory takes what was read as an argument. *)

From Stdlib Require Import Reals Lra Lia Ascii String Sorted.
From stdpp Require Import gmap strings list.

(** ** Exceptions *)

Inductive exn :=
  | ValueError (msg : string)
  | RuntimeError (msg : string)
  | IndexError.

Inductive result (A : Type) :=
  | Ok (a : A)
  | Raise (e : exn).
Arguments Ok {A} a.
Arguments Raise {A} e.

Definition rbind {A B : Type} (m : result A) (k : A -> result B) : result B :=
  match m with
  | Ok a => k a
  | Raise e => Raise e
  end.

Notation "'do' x <- m ; k" := (rbind m (fun x => k))
  (at level 10, x name, m at level 100, k at level 200).

Fixpoint mapR {A B : Type} (f : A -> result B) (l : list A) : result (list B) :=
  match l with
  | [] => Ok []
  | x :: xs => do y <- f x; do ys <- mapR f xs; Ok (y :: ys)
  end.

(** [l[i]] on a Python list or a numpy axis. *)
Definition index {A : Type} (l : list A) (i : nat) : result A :=
  match l !! i with
  | Some x => Ok x
  | None => Raise IndexError
  end.

(** The exceptions of the service layer and of the scripts: the built-in
    ones above, those the file system, SQLite and the HTTP framework
    raise, and those Python raises on a value of the wrong type. *)
Inductive error :=
  | Builtin (e : exn)
  | FileNotFoundError (msg : string)
  | IntegrityError (msg : string)
  | OperationalError (msg : string)
  | HTTPException (status_code : Z) (detail : string)
  | TypeError (msg : string)
  | AttributeError (msg : string).

Inductive outcome (A : Type) :=
  | Return (a : A)
  | Throw (e : error).
Arguments Return {A} a.
Arguments Throw {A} e.

(** ** Python strings *)

Module PyStr.

Definition chars (s : string) : list ascii := list_ascii_of_string s.

Definition code (c : ascii) : nat := nat_of_ascii c.

Definition between (lo hi : nat) (c : ascii) : bool :=
  (lo <=? code c) && (code c <=? hi).

Definition is_char (x : ascii) (c : ascii) : bool := Ascii.eqb x c.

(** [str.isspace] on a code point below 256. *)
Definition isspace (c : ascii) : bool :=
  between 9 13 c || between 28 32 c || (code c =? 133) || (code c =? 160).

Definition isascii (c : ascii) : bool := code c <? 128.

Definition isascii_alpha (c : ascii) : bool :=
  between 65 90 c || between 97 122 c.

(** [str.lower] on a code point below 256. *)
Definition lower_char (c : ascii) : ascii :=
  if between 65 90 c || (between 192 222 c && negb (code c =? 215))
  then ascii_of_nat (code c + 32) else c.

Definition lower (s : list ascii) : list ascii := map lower_char s.

Fixpoint lstrip (p : ascii -> bool) (s : list ascii) : list ascii :=
  match s with
  | [] => []
  | c :: s' => if p c then lstrip p s' else s
  end.

Fixpoint rstrip (p : ascii -> bool) (s : list ascii) : list ascii :=
  match s with
  | [] => []
  | c :: s' =>
      match rstrip p s' with
      | [] => if p c then [] else [c]
      | r => c :: r
      end
  end.

(** [s.strip()] with no argument. *)
Definition strip (s : list ascii) : list ascii := rstrip isspace (lstrip isspace s).

(** The text before the first character satisfying [p], and the text from
    that character on (empty when there is none). *)
Fixpoint break_at (p : ascii -> bool) (s : list ascii) : list ascii * list ascii :=
  match s with
  | [] => ([], [])
  | c :: s' =>
      if p c then ([], s)
      else let '(a, b) := break_at p s' in (c :: a, b)
  end.

(** [x in s] for a character [x]. *)
Definition contains (x : ascii) (s : list ascii) : bool := existsb (is_char x) s.

(** [s.partition(sep)] for a one-character separator; the middle component
    says whether the separator was found. *)
Definition partition (x : ascii) (s : list ascii) : list ascii * bool * list ascii :=
  match break_at (is_char x) s with
  | (a, _ :: b) => (a, true, b)
  | (_, []) => (s, false, [])
  end.

(** [s.rpartition(sep)[2]]: the text after the last separator, or all of
    [s] when there is none. *)
Fixpoint rpartition_tail (x : ascii) (s : list ascii) : list ascii :=
  match s with
  | [] => []
  | c :: s' =>
      if contains x s' then rpartition_tail x s'
      else if is_char x c then s' else s
  end.

(** [bool(s)] for a string. *)
Definition nonempty (s : list ascii) : bool :=
  match s with [] => false | _ => true end.

(** [s[:len(pre)] == pre]. *)
Definition starts_with (pre s : list ascii) : bool :=
  bool_decide (take (length pre) s = pre).

(** [s.strip() != ""], the test the loaders and request validators use. *)
Definition nonblank (s : string) : bool := nonempty (strip (chars s)).

(** [str.isprintable] on a code point below 256. *)
Definition isprintable (c : ascii) : bool :=
  (between 32 126 c || between 161 255 c) && negb (code c =? 173).

Definition hex_digit (n : nat) : ascii :=
  nth n (chars "0123456789abcdef") "0"%char.

(** The double quote. *)
Definition dquote : ascii := ascii_of_nat 34.

(** What [repr] writes for one character of a string quoted with [q]. *)
Definition repr_char (q c : ascii) : list ascii :=
  if is_char q c || is_char "\" c then ["\"%char; c]
  else if code c =? 9 then chars "\t"
  else if code c =? 10 then chars "\n"
  else if code c =? 13 then chars "\r"
  else if isprintable c then [c]
  else ["\"%char; "x"%char; hex_digit (code c / 16); hex_digit (code c mod 16)].

(** [repr(s)] for a string: single quotes, unless the string holds a
    single quote and no double quote. *)
Definition repr (s : list ascii) : list ascii :=
  let q := if contains "'" s && negb (contains dquote s) then dquote else "'"%char in
  q :: flat_map (repr_char q) s ++ [q].

(** [sep.join(parts)]. *)
Fixpoint join (sep : list ascii) (parts : list (list ascii)) : list ascii :=
  match parts with
  | [] => []
  | [p] => p
  | p :: rest => p ++ sep ++ join sep rest
  end.

(** [repr(l)] for a list of strings, which is also [str(l)] and what an
    f-string writes for it. *)
Definition repr_list (l : list string) : string :=
  string_of_list_ascii
    ("["%char :: join (chars ", ") (map (fun s => repr (chars s)) l) ++ ["]"%char]).

Global Arguments chars : simpl never.
Global Arguments is_char : simpl never.
Global Arguments isspace : simpl never.
Global Arguments isascii_alpha : simpl never.
Global Arguments isascii : simpl never.
Global Arguments lower_char : simpl never.

End PyStr.

(** ** urllib.parse (CPython 3.11): [urlsplit] and [urlunsplit] *)

Module Urllib.
Import PyStr.

(** Membership in [_WHATWG_C0_CONTROL_OR_SPACE]. *)
Definition is_c0_control_or_space (c : ascii) : bool := code c <=? 32.

(** Membership in [_UNSAFE_URL_BYTES_TO_REMOVE]. *)
Definition is_unsafe_url_byte (c : ascii) : bool :=
  (code c =? 9) || (code c =? 13) || (code c =? 10).

(** Membership in [scheme_chars]. *)
Definition in_scheme_chars (c : ascii) : bool :=
  isascii_alpha c || between 48 57 c ||
  is_char "+" c || is_char "-" c || is_char "." c.

Global Arguments is_c0_control_or_space : simpl never.
Global Arguments is_unsafe_url_byte : simpl never.
Global Arguments in_scheme_chars : simpl never.

Record SplitResult := {
  scheme : list ascii;
  netloc : list ascii;
  path : list ascii;
  query : list ascii;
  fragment : list ascii
}.

Definition uses_netloc : list (list ascii) :=
  map chars [""; "ftp"; "http"; "gopher"; "nntp"; "telnet";
             "imap"; "wais"; "file"; "mms"; "https"; "shttp";
             "snews"; "prospero"; "rtsp"; "rtspu"; "rsync";
             "svn"; "svn+ssh"; "sftp"; "nfs"; "git"; "git+ssh";
             "ws"; "wss"]%string.

(** The two validators of [urllib.parse] that rest on other libraries
    ([ipaddress] and [re] in [_check_bracketed_host], [unicodedata] in
    [_checknetloc]): each gives [None] when it passes and the message of
    the [ValueError] it raises otherwise. *)
Record Validators := {
  check_bracketed_host : list ascii -> option string;
  check_nfkc : list ascii -> option string
}.

(** Validators that accept every host; on a netloc made of ASCII
    characters without brackets no validator is consulted. *)
Definition no_validation : Validators :=
  {| check_bracketed_host := fun _ => None; check_nfkc := fun _ => None |}.

Section Split.
Context (V : Validators).

Definition _check_bracketed_netloc (netloc : list ascii) : result unit :=
  let hostname_and_port := rpartition_tail "@" netloc in
  let '(before_bracket, have_open_br, bracketed) := partition "[" hostname_and_port in
  do hostname <-
    (if have_open_br then
       if nonempty before_bracket then Raise (ValueError "Invalid IPv6 URL")
       else
         let '(hostname, _, port) := partition "]" bracketed in
         if nonempty port && negb (starts_with [":"%char] port)
         then Raise (ValueError "Invalid IPv6 URL")
         else Ok hostname
     else
       let '(hostname, _, _) := partition ":" hostname_and_port in Ok hostname);
  match check_bracketed_host V hostname with
  | None => Ok tt
  | Some msg => Raise (ValueError msg)
  end.

Definition _checknetloc (netloc : list ascii) : result unit :=
  if negb (nonempty netloc) || forallb isascii netloc then Ok tt
  else match check_nfkc V netloc with
       | None => Ok tt
       | Some msg => Raise (ValueError msg)
       end.

(** The delimiters [_splitnetloc] looks for. *)
Definition is_netloc_delim (c : ascii) : bool :=
  is_char "/" c || is_char "?" c || is_char "#" c.

(** [_splitnetloc(url, 2)]. *)
Definition _splitnetloc (url : list ascii) : list ascii * list ascii :=
  break_at is_netloc_delim (drop 2 url).

(** The bracket checks [urlsplit] runs on a netloc it has split off. *)
Definition bracket_checks (netloc : list ascii) : result unit :=
  if (contains "[" netloc && negb (contains "]" netloc))
     || (contains "]" netloc && negb (contains "[" netloc))
  then Raise (ValueError "Invalid IPv6 URL")
  else if contains "[" netloc && contains "]" netloc
       then _check_bracketed_netloc netloc
       else Ok tt.

(** The scheme step of [urlsplit]: [i = url.find(':')] and the test on
    [url[:i]]. *)
Definition split_scheme (url : list ascii) : list ascii * list ascii :=
  match break_at (is_char ":") url with
  | (c :: pre, _ :: post) =>
      if isascii_alpha c && forallb in_scheme_chars (c :: pre)
      then (lower (c :: pre), post)
      else ([], url)
  | _ => ([], url)
  end.

(** The netloc step of [urlsplit]. *)
Definition split_netloc (url : list ascii) : result (list ascii * list ascii) :=
  if starts_with (chars "//") url then
    let '(netloc, url) := _splitnetloc url in
    do _ <- bracket_checks netloc;
    Ok (netloc, url)
  else Ok ([], url).

(** [url.split(sep, 1)] when [sep] occurs in [url], else [url] and the
    empty default. *)
Definition split_once (x : ascii) (url : list ascii) : list ascii * list ascii :=
  match break_at (is_char x) url with
  | (a, _ :: b) => (a, b)
  | (_, []) => (url, [])
  end.

Definition urlsplit (url : list ascii) : result SplitResult :=
  let url := lstrip is_c0_control_or_space url in
  let url := List.filter (fun c => negb (is_unsafe_url_byte c)) url in
  let '(scheme, url) := split_scheme url in
  do nu <- split_netloc url;
  let '(netloc, url) := nu in
  let '(url, fragment) := split_once "#" url in
  let '(url, query) := split_once "?" url in
  do _ <- _checknetloc netloc;
  Ok {| scheme := scheme; netloc := netloc; path := url;
        query := query; fragment := fragment |}.

End Split.

Definition urlunsplit (components : SplitResult) : list ascii :=
  let url := path components in
  let url :=
    if nonempty (netloc components)
       || (nonempty (scheme components)
           && bool_decide (scheme components ∈ uses_netloc)
           && negb (starts_with (chars "//") url))
    then
      let url := if nonempty url && negb (starts_with (chars "/") url)
                 then "/"%char :: url else url in
      chars "//" ++ netloc components ++ url
    else url in
  let url := if nonempty (scheme components)
             then scheme components ++ ":"%char :: url else url in
  let url := if nonempty (query components)
             then url ++ "?"%char :: query components else url in
  let url := if nonempty (fragment components)
             then url ++ "#"%char :: fragment components else url in
  url.

End Urllib.

(** ** numpy and builtin numeric operations *)

Module Num.
Local Open Scope R_scope.

Definition Rleb (x y : R) : bool := if Rle_dec x y then true else false.
Definition Rltb (x y : R) : bool := if Rlt_dec x y then true else false.

(** [np.sum] along one axis. *)
Definition sum_R (l : list R) : R := fold_right Rplus 0 l.

(** [np.max]/[np.amax] along one axis; numpy raises [ValueError] when the
    reduced axis is empty. *)
Definition row_max (row : list R) : result R :=
  match row with
  | [] => Raise (ValueError
                   "zero-size array to reduction operation maximum which has no identity")
  | x :: xs => Ok (fold_left Rmax xs x)
  end.

Fixpoint argmax_from (best_i : nat) (best : R) (i : nat) (l : list R) : nat :=
  match l with
  | [] => best_i
  | x :: l' =>
      if Rlt_dec best x then argmax_from i x (S i) l'
      else argmax_from best_i best (S i) l'
  end.

(** [np.argmax]: the first position of the maximum. *)
Definition argmax (l : list R) : result nat :=
  match l with
  | [] => Raise (ValueError "attempt to get argmax of an empty sequence")
  | x :: l' => Ok (argmax_from 0 x 1 l')
  end.

(** The argument at and below which [np.exp] gives exactly 0.0 on
    float64: the logarithm of 2^-1075, half the smallest positive float. *)
Definition EXP_UNDERFLOW : R := -1075 * ln 2.

(** [np.exp] on a float64 that is not large enough to overflow: the
    exponential, with its underflow to exactly 0.0. Rounding is not
    modelled, here as elsewhere. *)
Definition np_exp (x : R) : R := if Rle_dec x EXP_UNDERFLOW then 0 else exp x.

(** Rounding to the nearest integer, halves to the even one. *)
Definition round_half_even (y : R) : Z :=
  let f := Int_part y in
  let d := frac_part y in
  if Rlt_dec d (1 / 2) then f
  else if Rlt_dec (1 / 2) d then (f + 1)%Z
  else if Z.even f then f else (f + 1)%Z.

(** [round(x, ndigits)]. *)
Definition py_round (x : R) (ndigits : nat) : R :=
  IZR (round_half_even (x * 10 ^ ndigits)) / 10 ^ ndigits.

Fixpoint insert_asc (key : nat -> R) (i : nat) (l : list nat) : list nat :=
  match l with
  | [] => [i]
  | j :: l' => if Rle_dec (key i) (key j) then i :: l else j :: insert_asc key i l'
  end.

(** The order-preserving (stable) ascending sort of the positions of
    [a]: what NumPy does with [kind="stable"], and with its default kind
    where that falls back to insertion sort. *)
Definition stable_argsort (a : list R) : list nat :=
  foldr (insert_asc (fun i => nth i a 0)) [] (seq 0 (length a)).

Fixpoint insert_after_ties (key : nat -> R) (i : nat) (l : list nat) : list nat :=
  match l with
  | [] => [i]
  | j :: l' =>
      if Rlt_dec (key i) (key j) then i :: l else j :: insert_after_ties key i l'
  end.

(** An ascending sort of the positions of [a] that is not stable: it
    leaves positions of equal value in descending order. *)
Definition tie_reversing_argsort (a : list R) : list nat :=
  foldr (insert_after_ties (fun i => nth i a 0)) [] (seq 0 (length a)).

(** [np.argsort(a)] with NumPy's default sort kind, which is not stable.
    What NumPy promises is that the result lists every position of [a]
    once, in ascending order of value; the order it leaves positions of
    equal value in depends on the build of NumPy and on the length of the
    array. An [ArgSort] is one implementation within that promise, and
    the code is modelled for every one of them. *)
Class ArgSort := {
  argsort : list R -> list nat;
  argsort_Permutation : forall a, argsort a ≡ₚ seq 0 (length a);
  argsort_ascending :
    forall a, StronglySorted (fun i j => nth i a 0 <= nth j a 0) (argsort a)
}.

Fixpoint insert_desc {A : Type} (key : A -> R) (x : A) (l : list A) : list A :=
  match l with
  | [] => [x]
  | y :: l' => if Rle_dec (key y) (key x) then x :: l else y :: insert_desc key x l'
  end.

(** [sorted(l, key=key, reverse=True)]: descending, equal keys in their
    original order. *)
Definition sorted_desc {A : Type} (key : A -> R) (l : list A) : list A :=
  foldr (insert_desc key) [] l.

(** [l[:k]] for an [int] k. *)
Definition slice_to {A : Type} (k : Z) (l : list A) : list A :=
  if (0 <=? k)%Z then take (Z.to_nat k) l
  else take (length l - Z.to_nat (- k)) l.

End Num.

(** ** Insertion-ordered dictionaries *)

Module PyDict.

Definition pydict (V : Type) : Type := list (string * V).

Fixpoint get {V : Type} (k : string) (d : pydict V) : option V :=
  match d with
  | [] => None
  | (k', v) :: d' => if String.eqb k k' then Some v else get k d'
  end.

(** [d[k] = v]: an existing key keeps its place. *)
Fixpoint set {V : Type} (k : string) (v : V) (d : pydict V) : pydict V :=
  match d with
  | [] => [(k, v)]
  | (k', v') :: d' =>
      if String.eqb k k' then (k, v) :: d' else (k', v') :: set k v d'
  end.

(** [{key: value for key, value in pairs}]. *)
Definition of_pairs {V : Type} (pairs : list (string * V)) : pydict V :=
  foldl (fun d kv => set (fst kv) (snd kv) d) [] pairs.

End PyDict.

(** ** Cells of a table read by [pd.read_csv] *)

(** A cell of a text column is a string or a missing value (NaN). *)
Inductive cell :=
  | CStr (s : string)
  | CNaN.

(** [Series.astype(str)] on one cell. *)
Definition astype_str (c : cell) : string :=
  match c with
  | CStr s => s
  | CNaN => "nan"
  end.

(** ** ml_training/utils.py *)

Module Utils.
Import PyStr Urllib Num.
Local Open Scope R_scope.

Definition ROLE_BUCKETS : list string :=
  ["Founder/Executive"; "Recruiter/HR"; "Software Engineer"; "ML/AI/Data";
   "DevOps/SRE/Cloud"; "Security"; "Engineering Manager/Tech Lead";
   "Product Manager"; "Designer"; "Sales/BD"; "Marketing/Growth"; "Ops";
   "Student/Academic"; "Other"]%string.

Definition NARRATIVE_LABELS : list string :=
  ["toxic_culture"; "burnout"; "elitism"; "credibility_overclaim";
   "culture_misalignment"]%string.

Definition ROLE_MIN_COMMENTS : Z := 15.
Definition NARRATIVE_MIN_COMMENTS : Z := 5.
Definition NARRATIVE_THRESHOLD : R := 0.10.

(** [canonicalize_url]; [V] stands for the library validators [urlsplit]
    consults. A non-string argument gives the empty string. *)
Definition canonicalize_url (V : Validators) (url : cell) : result string :=
  match url with
  | CNaN => Ok ""%string
  | CStr url =>
      let trimmed := strip (chars url) in
      if negb (nonempty trimmed) then Ok ""%string
      else
        do parts <- urlsplit V trimmed;
        let path := rstrip (is_char "/") (path parts) in
        Ok (string_of_list_ascii
              (urlunsplit {| scheme := scheme parts;
                             netloc := lower (netloc parts);
                             path := path; query := []; fragment := [] |}))
  end.

Global Arguments canonicalize_url : simpl never.

(** [ensure_columns(df, required, df_name)]; of the table it reads
    [df.columns]. *)
Definition ensure_columns (columns required : list string) (df_name : string)
  : result unit :=
  let missing := List.filter (fun col => negb (bool_decide (col ∈ columns))) required in
  match missing with
  | [] => Ok tt
  | _ => Raise (ValueError ("Missing required columns in " +:+ df_name +:+ ": "
                            +:+ repr_list missing))
  end.

(** [drop_empty_text(df, text_col)] on a table given as the list of its
    rows. *)
Definition drop_empty_text {Row : Type} (text_col : Row -> cell) (df : list Row)
  : list Row :=
  List.filter (fun row => nonblank (astype_str (text_col row))) df.

(** [np.clip(x, lo, None)]. *)
Definition clip_min (lo x : R) : R := Rmax lo x.

(** [np.exp(arr - max)] on one row, given the row maximum. *)
Definition exp_shifted (m : R) (row : list R) : list R :=
  map (fun x => np_exp (x - m)) row.

(** The divisor of a row: [np.clip(exp_vals.sum(axis=1), 1e-12, None)]. *)
Definition row_divisor (exp_vals : list R) : R :=
  clip_min 1e-12 (sum_R exp_vals).

Definition softmax_row (row : list R) : result (list R) :=
  do m <- row_max row;
  let exp_vals := exp_shifted m row in
  let sums := row_divisor exp_vals in
  Ok (map (fun e => e / sums) exp_vals).

(** [softmax_rows]: a 2-D array is the list of its rows. *)
Definition softmax_rows (arr : list (list R)) : result (list (list R)) :=
  mapR softmax_row arr.

End Utils.

(** ** ml_training/models.py *)

Module Models.
Import Utils.

(** The fitted [Pipeline] of the role model (TF-IDF followed by the
    multi-output ridge): what the source uses of it is [predict], from a
    list of texts to one row of raw per-bucket outputs per text. *)
Record Pipeline := { pipeline_predict : list string -> list (list R) }.

Record RoleCompositionModel := { pipeline : option Pipeline }.

Definition predict (self : RoleCompositionModel) (X : list string)
  : result (list (list R)) :=
  match pipeline self with
  | None => Raise (RuntimeError "Model not fitted.")
  | Some p => softmax_rows (pipeline_predict p X)
  end.

Definition predict_raw (self : RoleCompositionModel) (X : list string)
  : result (list (list R)) :=
  match pipeline self with
  | None => Raise (RuntimeError "Model not fitted.")
  | Some p => Ok (pipeline_predict p X)
  end.

(** The fitted TF-IDF vectorizer: [transform] gives the stored entries
    (column, value) of the sparse row of one text; the width of that row
    is the number of feature names. *)
Record Tfidf := {
  transform : string -> list (nat * R);
  get_feature_names_out : list string
}.

(** A fitted estimator inside [OneVsRestClassifier]: the logistic model
    of [build_narrative_model], or scikit-learn's constant predictor when
    the training column held one class only. *)
Inductive BinaryEstimator :=
  | LogisticRegression (coef : list R) (intercept : R)
  | ConstantPredictor (y : bool).

(** The fitted pipeline of [build_narrative_model]. *)
Record NarrativeModel := {
  nm_tfidf : Tfidf;
  nm_estimators : list BinaryEstimator
}.

Local Open Scope R_scope.

Definition expit (z : R) : R := 1 / (1 + exp (- z)).

(** [decision_function] of a linear model on a sparse row. *)
Definition decision (coef : list R) (intercept : R) (row : list (nat * R)) : R :=
  Num.sum_R (map (fun e => snd e * nth (fst e) coef 0) row) + intercept.

(** [estimator.predict_proba(X)[:, 1]] on one row. *)
Definition positive_proba (row : list (nat * R)) (e : BinaryEstimator) : R :=
  match e with
  | LogisticRegression coef intercept => expit (decision coef intercept row)
  | ConstantPredictor y => if y then 1 else 0
  end.

(** [Pipeline.predict_proba] with a multilabel [OneVsRestClassifier] as
    its last step: one column per estimator, two when there is a single
    estimator. *)
Definition narrative_predict_proba (m : NarrativeModel) (X : list string)
  : list (list R) :=
  map (fun text =>
         let Y := map (positive_proba (transform (nm_tfidf m) text))
                      (nm_estimators m) in
         match nm_estimators m with
         | [_] => map (fun y => 1 - y) Y ++ Y
         | _ => Y
         end) X.

End Models.

(** ** ml_training/retriever.py *)

Module Retriever.
Import PyStr Num.
Local Open Scope R_scope.

(** A row of the index table; of its columns the serving code reads the
    post URL and the company. *)
Record index_row := { idx_post_url : string; idx_company : string }.

(** The three retriever artifacts, as loaded: the vectorizer (one text to
    its dense feature row), the training matrix and the index table. *)
Record Artifacts := {
  vectorizer : string -> list R;
  matrix : list (list R);
  index_df : list index_row
}.

Definition dot (a b : list R) : R := sum_R (zip_with Rmult a b).

(** [sklearn.preprocessing.normalize] on one row: a norm below ten
    machine epsilons (a zero row) is replaced by one. *)
Definition normalize (a : list R) : list R :=
  let n := sqrt (dot a a) in
  let n := if Rlt_dec n (10 * / 2 ^ 52) then 1 else n in
  map (fun x => x / n) a.

(** [cosine_similarity(query_vec, matrix).ravel()]. *)
Definition cosine_similarity (query : list R) (m : list (list R)) : list R :=
  map (fun row => dot (normalize query) (normalize row)) m.

(** [np.argsort(similarities)[::-1][:k]]. *)
Definition top_indices `{ArgSort} (similarities : list R) (k : Z) : list nat :=
  slice_to k (rev (argsort similarities)).

Definition get_similar_posts `{ArgSort} (art : Artifacts) (draft_text : string) (k : Z)
  : result (list (index_row * R)) :=
  if negb (nonempty (chars draft_text)) || negb (nonblank draft_text)
  then Raise (ValueError "draft_text cannot be empty.")
  else
    let query_vec := vectorizer art draft_text in
    let similarities := cosine_similarity query_vec (matrix art) in
    let top_idx := top_indices similarities k in
    mapR (fun idx =>
            do record <- index (index_df art) idx;
            do s <- index similarities idx;
            Ok (record, s)) top_idx.

End Retriever.

(** ** ml_training/data_loader.py *)

Module DataLoader.
Import PyStr Urllib Utils.

(** A row of a posts CSV file: the two columns the load step inspects. *)
Record post_row := { post_url : cell; post_text : cell }.

(** A row after the load step added its two columns. *)
Record post := {
  source : post_row;
  company : string;
  post_url_clean : string
}.

(** [df.duplicated(subset=keys, keep=False)]: a row is marked when its key
    occurs at least twice. *)
Definition duplicated_keep_false (keys : list (string * string)) : list bool :=
  map (fun k => bool_decide (2 <= length (filter (fun k' => k' = k) keys))) keys.

(** [df[mask]]. *)
Definition select_rows {Row : Type} (df : list Row) (mask : list bool) : list Row :=
  map fst (List.filter snd (zip df mask)).

Definition duplicate_message (company : string) : string :=
  "Duplicate post_url entries detected for " +:+ company +:+ ". "
  +:+ "Ensure one row per post_url in posts_training.csv.".

(** The columns [company] and [post_url_clean] of a row. *)
Definition post_key (p : post) : string * string := (company p, post_url_clean p).

Definition _assert_unique_posts (df : list post) (company_name : string)
  : result unit :=
  let dups := select_rows df (duplicated_keep_false (map post_key df)) in
  match dups with
  | [] => Ok tt
  | _ => Raise (ValueError (duplicate_message company_name))
  end.

(** The two column assignments of [_load_posts]:
    [df["company"] = company] and
    [df["post_url_clean"] = df["post_url"].apply(canonicalize_url)]. *)
Definition add_columns (V : Validators) (rows : list post_row) (company_name : string)
  : result (list post) :=
  mapR (fun r =>
          do u <- canonicalize_url V (post_url r);
          Ok {| source := r; company := company_name; post_url_clean := u |})
       rows.

(** The two row filters of [_load_posts]:
    [df[df["post_url_clean"] != ""]] and [drop_empty_text(df, "post_text")]. *)
Definition filter_rows (df : list post) : list post :=
  let df := List.filter (fun p => negb (String.eqb (post_url_clean p) "")) df in
  drop_empty_text (fun p => post_text (source p)) df.

(** [_load_posts] on the rows read from the company's posts file. *)
Definition _load_posts (V : Validators) (rows : list post_row) (company_name : string)
  : result (list post) :=
  do df <- add_columns V rows company_name;
  let df := filter_rows df in
  do _ <- _assert_unique_posts df company_name;
  Ok df.

(** *** Training targets computed from the comments *)

Definition POST_REQUIRED_COLUMNS : list string :=
  ["post_url"; "post_text"; "posted_at"; "likes"; "total_comments";
   "risk_level"; "risk_class"; "risk_score"; "risk_reasons";
   "risk_level_full"; "risk_class_full"; "risk_score_full"; "risk_reasons_full";
   "pct_negative"; "pct_negative_engineer"; "pct_toxic_burnout";
   "pct_critical_hostile"; "pct_supportive"; "pct_negative_full";
   "pct_negative_engineer_full"; "pct_toxic_burnout_full";
   "pct_critical_hostile_full"; "pct_supportive_full"]%string.

Definition COMMENT_REQUIRED_COLUMNS : list string :=
  ["post_url"; "comment_text"; "author_headline"; "role_bucket"; "sentiment";
   "tone"; "narrative"]%string.

(** A row of the comments table after [_load_comments_full]: the columns
    the two target computations read. *)
Record comment := {
  c_company : string;
  c_post_url_clean : string;
  role_bucket : cell;
  narrative : cell
}.

(** The pair a table is grouped by: company and canonical post URL. *)
Definition group_key : Type := string * string.

Definition comment_key (c : comment) : group_key := (c_company c, c_post_url_clean c).

Definition key_eqb (a b : group_key) : bool :=
  String.eqb (fst a) (fst b) && String.eqb (snd a) (snd b).

(** The order of tuples of strings. *)
Definition key_leb (a b : group_key) : bool :=
  match String.compare (fst a) (fst b) with
  | Lt => true
  | Gt => false
  | Eq => String.leb (snd a) (snd b)
  end.

Fixpoint insert_key (k : group_key) (l : list group_key) : list group_key :=
  match l with
  | [] => [k]
  | k' :: l' => if key_leb k k' then k :: l else k' :: insert_key k l'
  end.

(** The groups of [df.groupby(["company", "post_url_clean"])]: the
    distinct keys, in sorted order. *)
Definition group_keys (keys : list group_key) : list group_key :=
  foldr insert_key [] (remove_dups keys).

(** The number of rows of a table that satisfy a test. *)
Definition count_rows {Row : Type} (p : Row -> bool) (df : list Row) : nat :=
  length (List.filter p df).

(** The column [role_bucket] after
    [fillna("Other")] and [loc[~isin(ROLE_BUCKETS)] = "Other"]. *)
Definition working_role_bucket (c : comment) : string :=
  let filled := match role_bucket c with CNaN => "Other"%string | CStr s => s end in
  if bool_decide (filled ∈ ROLE_BUCKETS) then filled else "Other"%string.

(** [_compute_role_distribution]: one row per group, holding the key
    and the share of every role bucket. *)
Definition _compute_role_distribution (comments_df : list comment)
  : list (group_key * list R) :=
  map (fun k =>
         let role_counts :=
           map (fun b => count_rows
                           (fun c => key_eqb (comment_key c) k
                                     && String.eqb (working_role_bucket c) b)
                           comments_df) ROLE_BUCKETS in
         let totals := fold_right Nat.add 0%nat role_counts in
         (k, map (fun n => if (totals =? 0)%nat then 0%R
                           else (INR n / INR totals)%R) role_counts))
      (group_keys (map comment_key comments_df)).

(** The column [narrative] after [fillna("")]. *)
Definition working_narrative (c : comment) : string :=
  match narrative c with CNaN => ""%string | CStr s => s end.

(** [_compute_narrative_flags]; [posts_key] and [pct_toxic_burnout] read
    the columns of a posts row that the fall-back uses, a missing
    percentage being [None]. The result is the table of flags, one row
    per key with a flag per narrative label, and whether the comments
    were used. *)
Definition _compute_narrative_flags {Post : Type}
    (posts_key : Post -> group_key) (pct_toxic_burnout : Post -> option R)
    (posts_df : list Post) (comments_df : option (list comment))
  : list (group_key * list Z) * bool :=
  match comments_df with
  | Some (c0 :: cs) =>
      let working := c0 :: cs in
      (map (fun k =>
              let denom :=
                count_rows (fun c => key_eqb (comment_key c) k) working in
              (k, map (fun label =>
                         let n := count_rows
                                    (fun c => key_eqb (comment_key c) k
                                              && String.eqb (working_narrative c) label)
                                    working in
                         let share := if (denom =? 0)%nat then 0%R
                                      else (INR n / INR denom)%R in
                         if Num.Rleb NARRATIVE_THRESHOLD share then 1%Z else 0%Z)
                      NARRATIVE_LABELS))
           (group_keys (map comment_key working)),
       true)
  | _ =>
      (map (fun p =>
              let proxy :=
                match pct_toxic_burnout p with
                | Some x => if Num.Rleb NARRATIVE_THRESHOLD x then 1%Z else 0%Z
                | None => 0%Z
                end in
              (posts_key p, [proxy; proxy; 0%Z; 0%Z; 0%Z]))
           posts_df,
       false)
  end.

(** [df.groupby("company").size().to_dict()] on the company column. *)
Definition company_sizes (companies : list string) : gmap string nat :=
  foldr (fun c m => <[c := S (default 0%nat (m !! c))]> m) ∅ companies.

Record Manifest := { train : gmap string nat; test : gmap string nat }.

(** [_manifest_counts]; of the table it reads the company column. *)
Definition _manifest_counts (companies : list string) (holdout_company : string)
  : Manifest :=
  {| train := company_sizes
                (List.filter (fun c => negb (String.eqb c holdout_company)) companies);
     test := company_sizes
               (List.filter (fun c => String.eqb c holdout_company) companies) |}.

End DataLoader.

(** ** services/ml_api/explain.py *)

Module Explain.
Import Num Models.
Local Open Scope R_scope.

Record Contribution := { ngram : string; weight : R }.

(** [vectorize(text, vectorizer)]: the sparse row and the feature names. *)
Definition vectorize (text : string) (vectorizer : Tfidf)
  : list (nat * R) * list string :=
  (transform vectorizer text, get_feature_names_out vectorizer).

(** [top_contributions_from_vec]; [width] is [vec.shape[1]] and [entries]
    are the stored entries of the row. *)
Definition top_contributions_from_vec `{ArgSort} (width : nat) (entries : list (nat * R))
    (coefs : list R) (feature_names : list string) (top_k : Z)
  : result (list Contribution) :=
  if negb (width =? length coefs)%nat then Ok []
  else
    do contributions <-
      mapR (fun e => do c <- index coefs (fst e); Ok (snd e * c)) entries;
    match contributions with
    | [] => Ok []
    | _ =>
        let order := slice_to top_k (rev (argsort (map Rabs contributions))) in
        mapR (fun i =>
                do e <- index entries i;
                do name <- index feature_names (fst e);
                do w <- index contributions i;
                Ok {| ngram := name; weight := w |}) order
    end.

End Explain.

(** ** services/ml_api/schemas.py and predictor.py *)

Module Serving.
Import PyStr Num Utils Models Explain.
Local Open Scope R_scope.

Record AnalyzeRequest := { post_text : string; company_hint : option string }.

(** [AnalyzeRequest(post_text=text)]: the validator trims the text and
    rejects a blank one. *)
Definition new_request (text : string) : result AnalyzeRequest :=
  let cleaned := strip (chars text) in
  if negb (nonempty cleaned)
  then Raise (ValueError "post_text cannot be empty or whitespace")
  else Ok {| post_text := string_of_list_ascii cleaned; company_hint := None |}.

(** The fitted risk pipeline as the facade uses it: the class
    probabilities of one text, [classes_] when the attribute exists, the
    [tfidf] step when there is one, and the coefficient vector that
    [choose_risk_coefficients] selects for the class "Harmful" when the
    classifier offers one. *)
Record RiskModel := {
  rm_predict_proba : string -> list R;
  rm_classes : option (list string);
  rm_tfidf : option Tfidf;
  rm_harmful_coefs : option (list R)
}.

Record Predictor := {
  role_buckets : list string;
  narrative_labels : list string;
  narrative_threshold : R;
  role_model : RoleCompositionModel;
  narrative_model : NarrativeModel;
  risk_model : RiskModel;
  retriever : option Retriever.Artifacts
}.

(** [scipy.special.softmax(x, axis=1)] on one row. *)
Definition scipy_softmax_row (row : list R) : result (list R) :=
  do m <- row_max row;
  let exp_vals := map (fun x => np_exp (x - m)) row in
  Ok (map (fun e => e / sum_R exp_vals) exp_vals).

(** [np.isclose(a, b)] with the default tolerances. *)
Definition isclose (a b : R) : bool := Rleb (Rabs (a - b)) (1e-8 + 1e-5 * Rabs b).

(** The test of [_role_distribution] on the reshaped row:
    [np.any(raw_preds < 0) or not np.isclose(raw_preds.sum(axis=1), 1.0).all()]. *)
Definition needs_softmax (raw_preds : list R) : bool :=
  existsb (fun x => Rltb x 0) raw_preds || negb (isclose (sum_R raw_preds) 1).

Definition _role_distribution (self : Predictor) (text : string)
  : result (PyDict.pydict R) :=
  do predicted <- predict (role_model self) [text];
  let raw_preds := concat predicted in
  do probs <- (if needs_softmax raw_preds then scipy_softmax_row raw_preds
               else Ok raw_preds);
  do pairs <- mapR (fun ib => do p <- index probs (fst ib); Ok (snd ib, p))
                   (imap (fun idx bucket => (idx, bucket)) (role_buckets self));
  Ok (PyDict.of_pairs pairs).

Record NarrativeEntry := { prob : R; flag : bool }.

Fixpoint narratives_loop (row : list R) (idx : nat) (labels : list string)
    (results : gmap string NarrativeEntry) : result (gmap string NarrativeEntry) :=
  match labels with
  | [] => Ok results
  | label :: rest =>
      do p <- index row idx;
      narratives_loop row (S idx) rest
        (<[label := {| prob := p; flag := Rleb 0.10 p |}]> results)
  end.

Definition _narratives (self : Predictor) (text : string)
  : result (gmap string NarrativeEntry) :=
  let probs := narrative_predict_proba (narrative_model self) [text] in
  do row <- index probs 0;
  narratives_loop row 0 (narrative_labels self) ∅.

Definition expected_classes : list string := ["Helpful"; "Harmless"; "Harmful"]%string.

Definition _risk_model_preds (self : Predictor) (text : string)
  : result (gmap string R * string) :=
  let probs := rm_predict_proba (risk_model self) text in
  let model_classes := default expected_classes (rm_classes (risk_model self)) in
  let prob_map : gmap string R :=
    foldl (fun m label => <[label := 0]> m) ∅ expected_classes in
  let prob_map :=
    foldl (fun m cp => <[fst cp := snd cp]> m) prob_map (zip model_classes probs) in
  do pred_idx <- argmax probs;
  do pred <- (match model_classes with
              | [] => Ok "Helpful"%string
              | _ => index model_classes pred_idx
              end);
  Ok (prob_map, pred).

(** [narratives.get(lbl, {}).get("flag")], read as a truth value. *)
Definition flagged (narratives : gmap string NarrativeEntry) (lbl : string) : bool :=
  match narratives !! lbl with
  | Some e => flag e
  | None => false
  end.

Definition harmful_labels : list string :=
  ["toxic_culture"; "elitism"; "credibility_overclaim"; "culture_misalignment"]%string.

Definition _risk_rule_based (narratives : gmap string NarrativeEntry) : string :=
  if existsb (flagged narratives) harmful_labels then "Harmful"
  else if flagged narratives "burnout" then "Harmless"
  else "Helpful".

Definition _similar_posts `{ArgSort} (self : Predictor) (text : string) (k : Z)
  : result (list (string * string * string * R)) :=
  match retriever self with
  | None => Ok []
  | Some r =>
      let query_vec := Retriever.vectorizer r text in
      let sims := Retriever.cosine_similarity query_vec (Retriever.matrix r) in
      let top_idx := Retriever.top_indices sims k in
      mapR (fun idx =>
              do row <- index (Retriever.index_df r) idx;
              do s <- index sims idx;
              Ok (Retriever.idx_company row, Retriever.idx_post_url row,
                  string_of_list_ascii (take 160 (chars (Retriever.idx_post_url row))),
                  s)) top_idx
  end.

Definition _risk_top_ngrams `{ArgSort} (self : Predictor) (text : string)
  : result (list Contribution) :=
  match rm_tfidf (risk_model self) with
  | None => Ok []
  | Some vec =>
      match rm_harmful_coefs (risk_model self) with
      | None => Ok []
      | Some coefs =>
          let '(vec_mat, feature_names) := vectorize text vec in
          top_contributions_from_vec (length feature_names) vec_mat coefs
            feature_names 8
      end
  end.

(** The loop of [_narrative_top_ngrams] over the labels zipped with the
    fitted estimators: an estimator without [coef_] (the constant
    predictor) is skipped. *)
Fixpoint narrative_top_loop `{ArgSort} (vec_mat : list (nat * R)) (feature_names : list string)
    (pairs : list (string * BinaryEstimator))
    (out : PyDict.pydict (list Contribution))
  : result (PyDict.pydict (list Contribution)) :=
  match pairs with
  | [] => Ok out
  | (label, est) :: rest =>
      match est with
      | ConstantPredictor _ => narrative_top_loop vec_mat feature_names rest out
      | LogisticRegression coefs _ =>
          do top <- top_contributions_from_vec (length feature_names) vec_mat coefs
                      feature_names 6;
          narrative_top_loop vec_mat feature_names rest (PyDict.set label top out)
      end
  end.

(** [_narrative_top_ngrams]; the fitted narrative pipeline always has its
    [tfidf] step and a classifier with [estimators_]. *)
Definition _narrative_top_ngrams `{ArgSort} (self : Predictor) (text : string)
  : result (PyDict.pydict (list Contribution)) :=
  let '(vec_mat, feature_names) := vectorize text (nm_tfidf (narrative_model self)) in
  narrative_top_loop vec_mat feature_names
    (zip (narrative_labels self) (nm_estimators (narrative_model self))) [].

(** [_entropy]: Shannon entropy in bits of the clipped, renormalised
    distribution. *)
Definition _entropy (dist : PyDict.pydict R) : R :=
  let probs := map (fun kv => Rmin 1 (Rmax 1e-12 (snd kv))) dist in
  let probs := map (fun p => p / sum_R probs) probs in
  - sum_R (map (fun p => p * (ln p / ln 2)) probs).

(** [max(d.values()) if d else 0.0]. *)
Definition max_value (d : gmap string R) : R :=
  match (map_to_list d).*2 with
  | [] => 0
  | x :: xs => fold_left Rmax xs x
  end.

Definition risk_level_of (max_prob : R) : string :=
  if Rleb 0.75 max_prob then "High"
  else if Rleb 0.55 max_prob then "Medium"
  else "Low".

(** The response of [analyze]. Left out are the fields that hold text
    formatted from a float ([primary_risk_reason]), the request metadata
    (clock, latency, fresh identifier) and the narrative and role evidence
    lists. *)
Record AnalyzeResponse := {
  input_text : string;
  audience : option string;
  role_distribution_top5 : list (string * R);
  role_distribution_all : list (string * R);
  confidence_entropy : R;
  risk_class : string;
  risk_probs : gmap string R;
  risk_level : string;
  narrative_probs : gmap string R;
  narrative_flags : gmap string bool;
  risk_top_ngrams : list Contribution
}.

Definition analyze `{ArgSort} (self : Predictor) (request : AnalyzeRequest)
  : result AnalyzeResponse :=
  let text := string_of_list_ascii (strip (chars (post_text request))) in
  if negb (nonempty (chars text))
  then Raise (ValueError "post_text cannot be empty or whitespace")
  else
    do narratives <- _narratives self text;
    do role_dist <- _role_distribution self text;
    let role_all := map (fun kv => (fst kv, py_round (snd kv * 100) 4)) role_dist in
    let role_top5 := take 5 (sorted_desc snd role_all) in
    let entropy_val := _entropy role_dist in
    do rp <- _risk_model_preds self text;
    let '(risk_probs, risk_pred) := rp in
    let rule_based := _risk_rule_based narratives in
    let max_prob := max_value risk_probs in
    let risk_level := risk_level_of max_prob in
    do risk_top <- _risk_top_ngrams self text;
    Ok {| input_text := text;
          audience := match company_hint request with
                      | Some h => if nonempty (chars h) then Some h else None
                      | None => None
                      end;
          role_distribution_top5 := role_top5;
          role_distribution_all := role_all;
          confidence_entropy := entropy_val;
          risk_class := rule_based;
          risk_probs := risk_probs;
          risk_level := risk_level;
          narrative_probs := prob <$> narratives;
          narrative_flags := flag <$> narratives;
          risk_top_ngrams := risk_top |}.

(** [merged[item["ngram"]] = merged.get(item["ngram"], 0.0) + sign * item["weight"]]
    for each item in turn. *)
Definition merge_phrases (sign : R) (phrases : list Contribution)
    (merged : PyDict.pydict R) : PyDict.pydict R :=
  foldl (fun m item =>
           PyDict.set (ngram item)
             (default 0 (PyDict.get (ngram item) m) + sign * weight item) m)
        merged phrases.

Definition _compare_top_phrases (baseline_phrases variant_phrases : list Contribution)
  : list Contribution :=
  let merged := merge_phrases (-1) baseline_phrases [] in
  let merged := merge_phrases 1 variant_phrases merged in
  let items := map (fun kv => {| ngram := fst kv; weight := snd kv |}) merged in
  let items := sorted_desc (fun x => Rabs (weight x)) items in
  slice_to 10 items.

Record Delta := {
  role_pct_delta : PyDict.pydict R;
  risk_prob_delta : PyDict.pydict R;
  changed_top_phrases : list Contribution
}.

Record CompareResponse := {
  baseline : AnalyzeResponse;
  variant : AnalyzeResponse;
  delta : Delta
}.

(** [next((v["pct"] for v in entries if v["role"] == role), 0.0)]. *)
Definition first_pct (role : string) (entries : list (string * R)) : R :=
  match List.find (fun v => String.eqb (fst v) role) entries with
  | Some v => snd v
  | None => 0
  end.

Definition compare `{ArgSort} (self : Predictor) (baseline_text variant_text : string)
  : result CompareResponse :=
  do baseline_req <- new_request baseline_text;
  do variant_req <- new_request variant_text;
  do baseline <- analyze self baseline_req;
  do variant <- analyze self variant_req;
  let role_delta :=
    PyDict.of_pairs
      (map (fun entry =>
              (fst entry,
               py_round (first_pct (fst entry) (role_distribution_all variant)
                         - snd entry) 4))
           (role_distribution_all baseline)) in
  let risk_delta :=
    PyDict.of_pairs
      (map (fun k =>
              (k, py_round (default 0 (risk_probs variant !! k)
                            - default 0 (risk_probs baseline !! k)) 6))
           expected_classes) in
  let changed_phrases :=
    _compare_top_phrases (risk_top_ngrams baseline) (risk_top_ngrams variant) in
  Ok {| baseline := baseline; variant := variant;
        delta := {| role_pct_delta := role_delta;
                    risk_prob_delta := risk_delta;
                    changed_top_phrases := changed_phrases |} |}.

(** *** Construction of the predictor *)

(** [metadata.json] as [__init__] reads it: each of the three entries is
    there or not. *)
Record Metadata := {
  md_role_buckets : option (list string);
  md_narrative_labels : option (list string);
  md_narrative_threshold : option R
}.

(** The model directory as [__init__] finds it: how the directory and a
    file in it are written in messages ([str(model_dir)] and
    [str(model_dir / filename)]), whether the directory exists, and for
    each file whether it exists and what loading it gives. *)
Record ModelDir := {
  dir_str : string;
  path_str : string -> string;
  dir_exists : bool;
  metadata_json : option Metadata;
  role_model_joblib : option RoleCompositionModel;
  narrative_model_joblib : option NarrativeModel;
  risk_model_joblib : option RiskModel;
  shared_tfidf_joblib : option (string -> list R);
  train_tfidf_matrix_npz : option (list (list R));
  train_post_index_csv : option (list Retriever.index_row)
}.

Definition _load_metadata (d : ModelDir) : outcome Metadata :=
  match metadata_json d with
  | None => Throw (FileNotFoundError "metadata.json is required in the model directory.")
  | Some md => Return md
  end.

(** [_load_artifact(filename)], given what the file holds. *)
Definition _load_artifact {A : Type} (d : ModelDir) (filename : string)
    (file : option A) : outcome A :=
  match file with
  | None => Throw (FileNotFoundError ("Missing artifact: " +:+ path_str d filename))
  | Some a => Return a
  end.

Definition _load_retriever (d : ModelDir) : option Retriever.Artifacts :=
  match shared_tfidf_joblib d, train_tfidf_matrix_npz d, train_post_index_csv d with
  | Some vectorizer, Some matrix, Some index_df =>
      Some {| Retriever.vectorizer := vectorizer;
              Retriever.matrix := matrix;
              Retriever.index_df := index_df |}
  | _, _, _ => None
  end.

(** [bool(l)] for a list. *)
Definition nonempty_list {A : Type} (l : list A) : bool :=
  match l with [] => false | _ => true end.

(** [Predictor.__init__(model_dir)]. The optional report [top_ngrams.json]
    it also reads is not part of the modelled predictor. *)
Definition __init__ (d : ModelDir) : outcome Predictor :=
  if negb (dir_exists d)
  then Throw (FileNotFoundError ("Model directory not found: " +:+ dir_str d))
  else
    match _load_metadata d with
    | Throw e => Throw e
    | Return metadata =>
        let role_buckets := default [] (md_role_buckets metadata) in
        let narrative_labels := default [] (md_narrative_labels metadata) in
        let narrative_threshold := default 0.5 (md_narrative_threshold metadata) in
        if negb (nonempty_list role_buckets) || negb (nonempty_list narrative_labels)
        then Throw (Builtin (ValueError
                      "Metadata missing required role_buckets or narrative_labels."))
        else
          match _load_artifact d "role_model.joblib" (role_model_joblib d) with
          | Throw e => Throw e
          | Return role_model =>
          match _load_artifact d "narrative_model.joblib" (narrative_model_joblib d) with
          | Throw e => Throw e
          | Return narrative_model =>
          match _load_artifact d "risk_model.joblib" (risk_model_joblib d) with
          | Throw e => Throw e
          | Return risk_model =>
              Return {| role_buckets := role_buckets;
                        narrative_labels := narrative_labels;
                        narrative_threshold := narrative_threshold;
                        role_model := role_model;
                        narrative_model := narrative_model;
                        risk_model := risk_model;
                        retriever := _load_retriever d |}
          end end end
    end.

End Serving.

(** ** ml_training/eval.py and train_all.py: narrative decisions *)

Module Evaluate.
Import Num Models.

(** The decision step of [evaluate_narrative_model]:
    [y_pred = (y_prob >= threshold).astype(int)]. *)
Definition narrative_y_pred (model : NarrativeModel) (X_test : list string)
    (threshold : R) : list (list Z) :=
  map (map (fun p => if Rleb threshold p then 1%Z else 0%Z))
      (narrative_predict_proba model X_test).

(** [_effective_splits(groups, desired)]. *)
Definition _effective_splits (groups : list string) (desired : Z) : Z :=
  let unique_groups := remove_dups groups in
  if (Z.of_nat (length unique_groups) <? 2)%Z then 0%Z
  else Z.max 2 (Z.min desired (Z.of_nat (length unique_groups))).

(** One iteration of the loop of [extract_top_ngrams]: the terms of one
    estimator, none for an estimator without [coef_]. *)
Definition top_terms_of `{ArgSort} (feature_names : list string) (top_k : Z)
    (estimator : BinaryEstimator) : result (list (string * R)) :=
  match estimator with
  | ConstantPredictor _ => Ok []
  | LogisticRegression coefs _ =>
      let top_idx := slice_to top_k (rev (argsort coefs)) in
      mapR (fun i => do term <- index feature_names i;
                     do w <- index coefs i;
                     Ok (term, w)) top_idx
  end.

(** [extract_top_ngrams(model, labels, top_k)]. *)
Definition extract_top_ngrams `{ArgSort} (model : NarrativeModel) (labels : list string)
    (top_k : Z) : result (PyDict.pydict (list (string * R))) :=
  let feature_names := get_feature_names_out (nm_tfidf model) in
  do results <-
    mapR (fun le => do terms <- top_terms_of feature_names top_k (snd le);
                    Ok (fst le, terms))
         (zip labels (nm_estimators model));
  Ok (PyDict.of_pairs results).

End Evaluate.

Module TrainAll.
Local Open Scope R_scope.

(** The threshold [main] passes to [evaluate_narrative_model] and writes
    to [metadata.json] as [narrative_threshold]. *)
Definition reporting_threshold : R := 0.5.

Definition main_narrative_y_pred (model : Models.NarrativeModel)
    (X_test : list string) : list (list Z) :=
  Evaluate.narrative_y_pred model X_test reporting_threshold.

End TrainAll.

(** ** services/ml_api/db.py: the run history *)

Module Db.
Import PyStr Num.

(** A row of the table [runs]. *)
Record run := {
  id : Z;
  created_at_iso : string;
  mode : string;
  baseline_text : option string;
  variant_text : option string;
  response_json : string
}.

(** The database behind [CONN]: the rows of [runs] in the order of their
    insertion, and the largest row id the table ever held, which
    AUTOINCREMENT keeps in [sqlite_sequence]. *)
Record conn := { runs : list run; seq : Z }.

(** [_ensure_db()], given the database found in the file, if there is
    one: the table is created only when it does not exist. *)
Definition _ensure_db (file : option conn) : conn :=
  default {| runs := []; seq := 0 |} file.

(** The entry [meta] of a response dict, as [insert_run] reads it. *)
Record meta_dict := { timestamp_iso : option string; timestamp : option string }.

(** A response dict, as [insert_run] uses it: its entry [meta] when it
    has one, and the text [json.dumps] makes of it. *)
Record response_dict := { meta : option meta_dict; dumps : string }.

(** [a or b] on two values that are strings or [None]. *)
Definition py_or (a b : option string) : option string :=
  match a with
  | Some s => if nonempty (chars s) then Some s else b
  | None => b
  end.

(** The largest row id of the table's past and present. *)
Definition largest_rowid (c : conn) : Z := foldr Z.max (seq c) (map id (runs c)).

(** The largest row id SQLite can give. *)
Definition MAX_ROWID : Z := 9223372036854775807.

(** [insert_run(mode, response, baseline_text, variant_text)] on the
    database [c]: the new database, or the error of the INSERT, which
    leaves the database as it was. *)
Definition insert_run (c : conn) (mode_ : string) (response : response_dict)
    (baseline_text_ variant_text_ : option string) : outcome conn :=
  let meta_ := default {| timestamp_iso := None; timestamp := None |} (meta response) in
  let created := py_or (timestamp_iso meta_) (timestamp meta_) in
  if (MAX_ROWID <=? largest_rowid c)%Z
  then Throw (OperationalError "database or disk is full")
  else
    match created with
    | None => Throw (IntegrityError "NOT NULL constraint failed: runs.created_at_iso")
    | Some created =>
        let rowid := (largest_rowid c + 1)%Z in
        Return {| runs := runs c ++ [ {| id := rowid;
                                          created_at_iso := created;
                                          mode := mode_;
                                          baseline_text := baseline_text_;
                                          variant_text := variant_text_;
                                          response_json := dumps response |} ];
                  seq := rowid |}
    end.

(** An entry of what [fetch_history] returns; [J] is the type of decoded
    JSON values, and the response is the decoded column, or its text when
    that does not decode. *)
Record history_entry (J : Type) := {
  h_id : Z;
  h_created_at_iso : string;
  h_mode : string;
  h_baseline_text : option string;
  h_variant_text : option string;
  h_response : J + string
}.
Arguments h_id {J} _.
Arguments h_created_at_iso {J} _.
Arguments h_mode {J} _.
Arguments h_baseline_text {J} _.
Arguments h_variant_text {J} _.
Arguments h_response {J} _.

(** [SELECT ... ORDER BY id DESC LIMIT ?]: a negative limit is no
    limit. *)
Definition select_runs (c : conn) (limit : Z) : list run :=
  let ordered := sorted_desc (fun r => IZR (id r)) (runs c) in
  if (limit <? 0)%Z then ordered else take (Z.to_nat limit) ordered.

(** [fetch_history(limit)]; [loads] is [json.loads], [None] standing for
    a [JSONDecodeError]. *)
Definition fetch_history {J : Type} (loads : string -> option J) (c : conn)
    (limit : Z) : list (history_entry J) :=
  map (fun r =>
         {| h_id := id r;
            h_created_at_iso := created_at_iso r;
            h_mode := mode r;
            h_baseline_text := baseline_text r;
            h_variant_text := variant_text r;
            h_response := match loads (response_json r) with
                          | Some resp_obj => inl resp_obj
                          | None => inr (response_json r)
                          end |})
      (select_runs c limit).

End Db.

(** ** services/ml_api/main.py: the HTTP handlers *)

Module Api.
Import PyStr Serving Db.

(** The reading of [time.gmtime()], each field as [time.strftime] writes
    it for [%Y], [%m], [%d], [%H], [%M] and [%S]. *)
Record gmtime := {
  tm_Y : string; tm_m : string; tm_d : string;
  tm_H : string; tm_M : string; tm_S : string
}.

(** [time.strftime("%Y-%m-%dT%H:%M:%SZ", t)]. *)
Definition strftime_iso (t : gmtime) : string :=
  tm_Y t +:+ "-" +:+ tm_m t +:+ "-" +:+ tm_d t +:+ "T"
  +:+ tm_H t +:+ ":" +:+ tm_M t +:+ ":" +:+ tm_S t +:+ "Z".

(** [json.dumps] on the two kinds of result the predictor returns; the
    first argument of [dumps_analysis] is the [timestamp_iso] of the
    result's [meta]. *)
Record Json := {
  dumps_analysis : string -> AnalyzeResponse -> string;
  dumps_comparison : CompareResponse -> string
}.

(** The dict [Predictor.analyze] returns, for the history store: its
    [meta] holds [timestamp_iso] and no [timestamp]. *)
Definition analysis_dict (J : Json) (now : gmtime) (result : AnalyzeResponse)
  : response_dict :=
  {| meta := Some {| timestamp_iso := Some (strftime_iso now); timestamp := None |};
     dumps := dumps_analysis J (strftime_iso now) result |}.

(** The dict [Predictor.compare] returns, for the history store: its
    entries are [baseline], [variant] and [delta]; it has no [meta]. *)
Definition comparison_dict (J : Json) (result : CompareResponse) : response_dict :=
  {| meta := None; dumps := dumps_comparison J result |}.

Record CompareRequest := { baseline_text : string; variant_text : string }.

(** [GET /health]. *)
Definition health (predictor : option Predictor) : outcome (string * bool) :=
  match predictor with
  | None => Throw (HTTPException 500 "Models not loaded")
  | Some _ => Return ("ok"%string, true)
  end.

(** [POST /analyze]: the answer and the database after the call. [now]
    is the clock reading [Predictor.analyze] takes for its [meta]. The
    narrative and role evidence, which [AnalyzeResponse] leaves out, is
    taken to be computed without an exception, and the result to be
    serializable. *)
Definition analyze `{Num.ArgSort} (J : Json) (predictor : option Predictor) (now : gmtime)
    (c : conn) (request : AnalyzeRequest) (save : bool)
  : outcome AnalyzeResponse * conn :=
  match predictor with
  | None => (Throw (HTTPException 500 "Models not loaded"), c)
  | Some p =>
      match Serving.analyze p request with
      | Raise _ => (Throw (HTTPException 500 "Prediction failed"), c)
      | Ok result =>
          if save then
            match insert_run c "analyze" (analysis_dict J now result)
                    (Some (post_text request)) None with
            | Throw _ => (Throw (HTTPException 500 "Prediction failed"), c)
            | Return c' => (Return result, c')
            end
          else (Return result, c)
      end
  end.

(** [POST /analyze/compare]. *)
Definition compare `{Num.ArgSort} (J : Json) (predictor : option Predictor) (c : conn)
    (request : CompareRequest) (save : bool)
  : outcome CompareResponse * conn :=
  match predictor with
  | None => (Throw (HTTPException 500 "Models not loaded"), c)
  | Some p =>
      match Serving.compare p (baseline_text request) (variant_text request) with
      | Raise _ => (Throw (HTTPException 500 "Compare failed"), c)
      | Ok result =>
          if save then
            match insert_run c "compare" (comparison_dict J result)
                    (Some (baseline_text request)) (Some (variant_text request)) with
            | Throw _ => (Throw (HTTPException 500 "Compare failed"), c)
            | Return c' => (Return result, c')
            end
          else (Return result, c)
      end
  end.

(** [GET /history]: the rows and their count. *)
Definition history {J : Type} (loads : string -> option J) (c : conn) (limit : Z)
  : list (history_entry J) * nat :=
  let rows := fetch_history loads c limit in
  (rows, length rows).

End Api.

(** ** convert_json_to_csv.py: cleaning of scraped posts *)

Module Convert.
Import PyStr.

Section Posts.
(** The type of the entries of a post that the cleaning passes on
    unread. *)
Context {Payload : Type}.

(** The [author] dict: its [name], which may be missing ([None]) or JSON
    null ([Some None]), and the rest. *)
Record author_dict := { name : option (option string); author_rest : Payload }.

(** A scraped post, as [json.load] gives it. An entry that is present
    is JSON null or a value of the type the scraper writes: [text] a
    string, [stats] a dict of counts, [author] a dict. For [text],
    [stats], [author] and [document] the outer [None] is a missing entry
    and [Some None] is null. The two urns and [source_company] are read
    through their truth value only, so for them [None] stands for a
    missing entry and for null alike; [posted_at] is only tested for
    presence. *)
Record post := {
  activity_urn : option string;
  full_urn : option string;
  text : option (option string);
  stats : option (option (PyDict.pydict Z));
  author : option (option author_dict);
  posted_at : option Payload;
  source_company : option string;
  document : option (option Payload)
}.

Record issues := {
  missing_text : nat;
  empty_text : nat;
  missing_stats : nat;
  missing_author : nat;
  missing_timestamp : nat;
  duplicates : nat
}.

(** [post.get('activity_urn') or post.get('full_urn')], and whether the
    result is truthy. *)
Definition urn_of (p : post) : option string :=
  match activity_urn p with
  | Some u => if nonempty (chars u) then Some u else full_urn p
  | None => full_urn p
  end.

Definition truthy_urn (p : post) : option string :=
  match urn_of p with
  | Some u => if nonempty (chars u) then Some u else None
  | None => None
  end.

Definition STAT_KEYS : list string :=
  ["total_reactions"; "like"; "love"; "celebrate"; "support"; "insight";
   "comments"; "reposts"]%string.

(** What [x in None] raises (the wording of CPython 3.11). *)
Definition not_iterable : error :=
  TypeError "argument of type 'NoneType' is not iterable".

(** What [None.lower()] raises. *)
Definition no_lower : error :=
  AttributeError "'NoneType' object has no attribute 'lower'".

(** The loop that gives every missing count the value 0; on a null
    [stats] its first membership test raises. *)
Definition fill_stats (stats_ : option (PyDict.pydict Z)) : outcome (PyDict.pydict Z) :=
  match stats_ with
  | None => Throw not_iterable
  | Some stats_ =>
      Return (foldl (fun st stat_key =>
                       match PyDict.get stat_key st with
                       | Some _ => st
                       | None => PyDict.set stat_key 0%Z st
                       end) stats_ STAT_KEYS)
  end.

(** The lines that infer [source_company] from the author's name when
    the entry is missing or falsy: the entry afterwards. The test
    ['name' in post['author']] raises on a null author, and [.lower()] on
    a null name. *)
Definition infer_company (company : option string) (author_ : option author_dict)
  : outcome (option string) :=
  let from_author :=
    match author_ with
    | None => Throw not_iterable
    | Some a =>
        match name a with
        | None => Return company
        | Some None => Throw no_lower
        | Some (Some n) => Return (Some (string_of_list_ascii (lower (chars n))))
        end
    end in
  match company with
  | Some s => if nonempty (chars s) then Return company else from_author
  | None => from_author
  end.

(** The state of the loop of [clean_linkedin_post_data]. *)
Record cleaning := {
  cleaned_posts : list post;
  seen_urns : list string;
  found : issues
}.

Definition count_issue (f : issues -> issues) (st : cleaning) : cleaning :=
  {| cleaned_posts := cleaned_posts st; seen_urns := seen_urns st;
     found := f (found st) |}.

(** One iteration of the loop, on a post whose urn has been looked at. *)
Definition clean_one (st : cleaning) (p : post) : outcome cleaning :=
  match text p with
  | None =>
      Return
        (count_issue (fun i => {| missing_text := S (missing_text i);
                                  empty_text := empty_text i;
                                  missing_stats := missing_stats i;
                                  missing_author := missing_author i;
                                  missing_timestamp := missing_timestamp i;
                                  duplicates := duplicates i |}) st)
  | Some t =>
      let stripped := match t with
                      | Some s => strip (chars s)
                      | None => []
                      end in
      if negb (nonempty stripped) then
        Return
          (count_issue (fun i => {| missing_text := missing_text i;
                                    empty_text := S (empty_text i);
                                    missing_stats := missing_stats i;
                                    missing_author := missing_author i;
                                    missing_timestamp := missing_timestamp i;
                                    duplicates := duplicates i |}) st)
      else
        match stats p with
        | None =>
            Return
              (count_issue (fun i => {| missing_text := missing_text i;
                                        empty_text := empty_text i;
                                        missing_stats := S (missing_stats i);
                                        missing_author := missing_author i;
                                        missing_timestamp := missing_timestamp i;
                                        duplicates := duplicates i |}) st)
        | Some stats_ =>
            match author p with
            | None =>
                Return
                  (count_issue
                     (fun i => {| missing_text := missing_text i;
                                  empty_text := empty_text i;
                                  missing_stats := missing_stats i;
                                  missing_author := S (missing_author i);
                                  missing_timestamp := missing_timestamp i;
                                  duplicates := duplicates i |}) st)
            | Some author_ =>
                match posted_at p with
                | None =>
                    Return
                      (count_issue
                         (fun i => {| missing_text := missing_text i;
                                      empty_text := empty_text i;
                                      missing_stats := missing_stats i;
                                      missing_author := missing_author i;
                                      missing_timestamp := S (missing_timestamp i);
                                      duplicates := duplicates i |}) st)
                | Some _ =>
                    match fill_stats stats_ with
                    | Throw e => Throw e
                    | Return filled =>
                        match infer_company (source_company p) author_ with
                        | Throw e => Throw e
                        | Return company =>
                            let p' :=
                              {| activity_urn := activity_urn p;
                                 full_urn := full_urn p;
                                 text := Some (Some (string_of_list_ascii stripped));
                                 stats := Some (Some filled);
                                 author := author p;
                                 posted_at := posted_at p;
                                 source_company := company;
                                 document := match document p with
                                             | Some None => None
                                             | d => d
                                             end |} in
                            Return {| cleaned_posts := cleaned_posts st ++ [p'];
                                      seen_urns := seen_urns st;
                                      found := found st |}
                        end
                    end
                end
            end
        end
  end.

(** One iteration of the loop. *)
Definition clean_step (st : cleaning) (p : post) : outcome cleaning :=
  match truthy_urn p with
  | Some urn =>
      if bool_decide (urn ∈ seen_urns st) then
        Return
          (count_issue (fun i => {| missing_text := missing_text i;
                                    empty_text := empty_text i;
                                    missing_stats := missing_stats i;
                                    missing_author := missing_author i;
                                    missing_timestamp := missing_timestamp i;
                                    duplicates := S (duplicates i) |}) st)
      else
        clean_one {| cleaned_posts := cleaned_posts st;
                     seen_urns := urn :: seen_urns st;
                     found := found st |} p
  | None => clean_one st p
  end.

(** The loop over the posts; an exception ends it. *)
Fixpoint clean_loop (st : cleaning) (posts : list post) : outcome cleaning :=
  match posts with
  | [] => Return st
  | p :: rest =>
      match clean_step st p with
      | Return st' => clean_loop st' rest
      | Throw e => Throw e
      end
  end.

(** [clean_linkedin_post_data(posts)]: the cleaned posts and the counts
    it prints, or the exception a null entry makes it raise. *)
Definition clean_linkedin_post_data (posts : list post) : outcome (list post * issues) :=
  match clean_loop
          {| cleaned_posts := []; seen_urns := [];
             found := {| missing_text := 0; empty_text := 0; missing_stats := 0;
                         missing_author := 0; missing_timestamp := 0;
                         duplicates := 0 |} |} posts with
  | Return st => Return (cleaned_posts st, found st)
  | Throw e => Throw e
  end.

End Posts.

Arguments author_dict : clear implicits.
Arguments post : clear implicits.
Arguments cleaning : clear implicits.

End Convert.

(** ** Vocabulary for the properties of [canonicalize_url] *)

Module UrlSpec.
Import PyStr Urllib Utils.

(** A character that neither [str.strip] nor [urlsplit] removes at the
    ends of a URL: not white space, not a C0 control character. *)
Definition url_char (c : ascii) : bool :=
  negb (isspace c) && negb (is_c0_control_or_space c).

Definition clean (s : list ascii) : Prop := Forall (fun c => url_char c = true) s.

(** The string holds no white space and no control character. *)
Definition no_space_or_control (u : string) : bool := forallb url_char (chars u).

Definition is_separator (x : ascii) : Prop :=
  In x [":"; "/"; "?"; "#"; "["; "]"; "@"]%char.

Definition is_qf (c : ascii) : bool := is_char "?" c || is_char "#" c.

Definition slash : ascii := "/"%char.

(** The string holds neither [?] nor [#]. *)
Definition no_query_or_fragment (u : string) : bool :=
  forallb (fun c => negb (is_qf c)) (chars u).

(** A suffix that is empty, or a query string with its [?], or a fragment
    with its [#]. *)
Definition query_or_fragment_suffix (t : string) : bool :=
  match chars t with
  | [] => true
  | c :: _ => is_qf c
  end.

(** Both library validators keep accepting a host after it is
    lower-cased (IPv6 literals and IPvFuture tags are case-insensitive). *)
Definition respects_lower (V : Validators) : Prop :=
  (forall h, check_bracketed_host V h = None ->
             check_bracketed_host V (lower h) = None) /\
  (forall n, check_nfkc V n = None -> check_nfkc V (lower n) = None).

(** The input whose canonical form does not parse back into the same
    parts: no host, and a path that begins with two slashes. *)
Definition hostless_double_slash (V : Validators) (u : string) : bool :=
  match urlsplit V (strip (chars u)) with
  | Ok parts =>
      negb (nonempty (netloc parts)) && starts_with (chars "//") (path parts)
  | Raise _ => false
  end.

(** The scheme, netloc and path that [urlsplit] finds in a string that
    needs no stripping. *)
Definition parse3 (V : Validators) (s : list ascii)
  : result (list ascii * list ascii * list ascii) :=
  do nu <- split_netloc V (snd (split_scheme s));
  do _ <- _checknetloc V (fst nu);
  Ok (fst (split_scheme s), fst nu, fst (break_at is_qf (snd nu))).

(** The canonical string built from a scheme, a netloc and a path. *)
Definition unsplit3 (t : list ascii * list ascii * list ascii) : list ascii :=
  urlunsplit {| scheme := t.1.1; netloc := lower t.1.2;
                path := rstrip (is_char "/") t.2; query := []; fragment := [] |}.

Definition canon_parts (parts : SplitResult) : list ascii :=
  urlunsplit {| scheme := scheme parts; netloc := lower (netloc parts);
                path := rstrip (is_char "/") (path parts);
                query := []; fragment := [] |}.

Definition slash_led (p : list ascii) : Prop :=
  match p with [] => True | c :: _ => c = slash end.

Definition delim_led (p : list ascii) : Prop :=
  match p with [] => True | c :: _ => is_netloc_delim c = true end.

Definition qf_led (t : list ascii) : Prop :=
  match t with [] => True | c :: _ => is_qf c = true end.

Definition body_of (sch nl p' : list ascii) : list ascii :=
  if nonempty nl
     || (nonempty sch && bool_decide (sch ∈ uses_netloc)
         && negb (starts_with (chars "//") p'))
  then chars "//" ++ nl
       ++ (if nonempty p' && negb (starts_with (chars "/") p')
           then slash :: p' else p')
  else p'.

Definition assemble (sch nl p' : list ascii) : list ascii :=
  if nonempty sch then sch ++ ":"%char :: body_of sch nl p' else body_of sch nl p'.

(** What [canonicalize_url] and [urlsplit] do to a string before parsing. *)
Definition preprocess (s : list ascii) : list ascii :=
  List.filter (fun c => negb (is_unsafe_url_byte c))
    (lstrip is_c0_control_or_space (strip s)).

End UrlSpec.

(** ** Vocabulary for the properties of the serving facade *)

Module ServingSpec.
Import Num Models Serving.
Local Open Scope R_scope.

(** The same predictor with another risk model. *)
Definition with_risk_model (self : Predictor) (rm : RiskModel) : Predictor :=
  {| role_buckets := role_buckets self;
     narrative_labels := narrative_labels self;
     narrative_threshold := narrative_threshold self;
     role_model := role_model self;
     narrative_model := narrative_model self;
     risk_model := rm;
     retriever := retriever self |}.

(** The same predictor with another [narrative_threshold] in its
    metadata. *)
Definition with_narrative_threshold (self : Predictor) (thr : R) : Predictor :=
  {| role_buckets := role_buckets self;
     narrative_labels := narrative_labels self;
     narrative_threshold := thr;
     role_model := role_model self;
     narrative_model := narrative_model self;
     risk_model := risk_model self;
     retriever := retriever self |}.

(** The text [analyze] works on. *)
Definition analyzed_text (request : AnalyzeRequest) : string :=
  string_of_list_ascii (PyStr.strip (PyStr.chars (post_text request))).

(** The probability map before the model's classes are written to it:
    [{label: 0.0 for label in expected_classes}]. *)
Definition initial_prob_map : gmap string R :=
  foldl (fun m label => <[label := 0]> m) ∅ expected_classes.

(** A flag of the response, an absent label counting as unset. *)
Definition flag_set (flags : gmap string bool) (lbl : string) : bool :=
  default false (flags !! lbl).

(** An entry that [_narratives] may store for a row of probabilities: its
    probability comes from the row and its flag is the comparison of that
    probability with 0.10. *)
Definition entry_ok (row : list R) (e : NarrativeEntry) : Prop :=
  In (prob e) row /\ flag e = Rleb 0.10 (prob e).

(** The number of columns of [narrative_predict_proba]. *)
Definition proba_width (m : NarrativeModel) : nat :=
  match nm_estimators m with
  | [_] => 2
  | ests => length ests
  end.

(** The classes the risk model reports and the probabilities paired with
    them. *)
Definition emitted (self : Predictor) (text : string) : list (string * R) :=
  zip (default expected_classes (rm_classes (risk_model self)))
      (rm_predict_proba (risk_model self) text).

(** The weight [_compare_top_phrases] accumulates for one phrase. *)
Fixpoint weight_sum (k : string) (phrases : list Explain.Contribution) : R :=
  match phrases with
  | [] => 0
  | item :: rest =>
      (if String.eqb (Explain.ngram item) k then Explain.weight item else 0)
      + weight_sum k rest
  end.

End ServingSpec.

(** ** Vocabulary for the properties of sorting *)

Module RetrieverSpec.
Local Open Scope R_scope.

(** Position [i] comes before position [j] in the stable ascending sort:
    a smaller value, or an equal value and a smaller position. *)
Definition sorts_before (key : nat -> R) (i j : nat) : Prop :=
  key i < key j \/ (key i = key j /\ (i < j)%nat).

End RetrieverSpec.

(** ** Vocabulary for the properties of the cleaning of scraped posts *)

Module ConvertSpec.
Import PyStr Convert.

(** The number of posts the counts of issues stand for. *)
Definition total_issues (i : issues) : nat :=
  missing_text i + empty_text i + missing_stats i + missing_author i
  + missing_timestamp i + duplicates i.

(** A post as the cleaning hands it on: its text is trimmed and not
    empty, its [stats] hold every count, it has an [author] entry and a
    time of posting, and no [document] entry that is null. *)
Definition cleaned_ok {Payload : Type} (p : post Payload) : Prop :=
  exists t st,
    text p = Some (Some t) /\ strip (chars t) = chars t /\ chars t <> [] /\
    stats p = Some (Some st) /\
    Forall (fun k => is_Some (PyDict.get k st)) STAT_KEYS /\
    is_Some (author p) /\ is_Some (posted_at p) /\ document p <> Some None.

(** No entry that the cleaning reads as a dict or as a string is null:
    not [stats], not [author], not the author's [name]. *)
Definition null_free {Payload : Type} (p : post Payload) : Prop :=
  stats p <> Some None /\ author p <> Some None /\
  (forall a, author p = Some (Some a) -> name a <> Some None).

End ConvertSpec.

(** ** Example data *)

Module Examples.
Import Num Utils Models Explain Serving.
Local Open Scope R_scope.

Definition two_bucket_pipeline : Pipeline :=
  {| pipeline_predict := fun X => map (fun _ => [1; 0]) X |}.

Definition two_bucket_model : RoleCompositionModel :=
  {| pipeline := Some two_bucket_pipeline |}.

(** A vectorizer with the single feature "layoffs", present in every
    text with weight 1. *)
Definition layoffs_tfidf : Tfidf :=
  {| transform := fun _ => [(0%nat, 1)];
     get_feature_names_out := ["layoffs"%string] |}.

Definition demo_narrative_model : NarrativeModel :=
  {| nm_tfidf := layoffs_tfidf;
     nm_estimators :=
       [LogisticRegression [2] 0; ConstantPredictor false;
        LogisticRegression [-3] 0; ConstantPredictor false;
        ConstantPredictor false] |}.

Definition demo_risk_model : RiskModel :=
  {| rm_predict_proba := fun _ => [0.2; 0.8];
     rm_classes := Some ["Harmful"; "Helpful"]%string;
     rm_tfidf := Some layoffs_tfidf;
     rm_harmful_coefs := Some [1] |}.

Definition demo_predictor : Predictor :=
  {| role_buckets := ["Founder/Executive"; "Recruiter/HR"]%string;
     narrative_labels := NARRATIVE_LABELS;
     narrative_threshold := 0.5;
     role_model := two_bucket_model;
     narrative_model := demo_narrative_model;
     risk_model := demo_risk_model;
     retriever := None |}.

(** A narrative model that gives the first label the probability
    1 / (1 + e), about 0.27, on every text. *)
Definition lukewarm_narrative_model : NarrativeModel :=
  {| nm_tfidf := layoffs_tfidf;
     nm_estimators :=
       [LogisticRegression [-1] 0; ConstantPredictor false;
        ConstantPredictor false; ConstantPredictor false;
        ConstantPredictor false] |}.

(** The demonstration predictor with that narrative model; its metadata
    set [narrative_threshold] to 0.5. *)
Definition lukewarm_predictor : Predictor :=
  {| role_buckets := ["Founder/Executive"; "Recruiter/HR"]%string;
     narrative_labels := NARRATIVE_LABELS;
     narrative_threshold := 0.5;
     role_model := two_bucket_model;
     narrative_model := lukewarm_narrative_model;
     risk_model := demo_risk_model;
     retriever := None |}.

(** Two indexed posts with the same feature row. *)
Definition twin_artifacts : Retriever.Artifacts :=
  {| Retriever.vectorizer := fun _ => [0];
     Retriever.matrix := [[0]; [0]];
     Retriever.index_df :=
       [ {| Retriever.idx_post_url := "https://example.com/a";
            Retriever.idx_company := "acme" |};
         {| Retriever.idx_post_url := "https://example.com/b";
            Retriever.idx_company := "acme" |} ] |}.

(** The demonstration predictor with the twin posts as its retriever. *)
Definition retrieving_predictor : Predictor :=
  {| role_buckets := ["Founder/Executive"; "Recruiter/HR"]%string;
     narrative_labels := NARRATIVE_LABELS;
     narrative_threshold := 0.5;
     role_model := two_bucket_model;
     narrative_model := demo_narrative_model;
     risk_model := demo_risk_model;
     retriever := Some twin_artifacts |}.

Definition post_a : DataLoader.post_row :=
  {| DataLoader.post_url := CStr "https://example.com/posts/1";
     DataLoader.post_text := CStr "We are hiring" |}.

(** The same post as [post_a] under another spelling of its URL. *)
Definition post_a_again : DataLoader.post_row :=
  {| DataLoader.post_url := CStr "HTTPS://Example.com/posts/1/?utm=x";
     DataLoader.post_text := CStr "We are hiring (repost)" |}.

Definition post_b : DataLoader.post_row :=
  {| DataLoader.post_url := CStr "https://example.com/posts/2";
     DataLoader.post_text := CStr "Quarterly results" |}.

End Examples.

(** * NumPy's sorting promise *)

Section StableSort.
Import Num RetrieverSpec.
Local Open Scope R_scope.

Context (key : nat -> R).

Lemma sorts_before_trans (i j k : nat) :
  sorts_before key i j -> sorts_before key j k -> sorts_before key i k.
Proof. unfold sorts_before. intros [?|[? ?]] [?|[? ?]]; [left|left|left|right]; lra || (split; [lra|lia]). Qed.

Lemma insert_asc_Permutation (i : nat) (l : list nat) :
  insert_asc key i l ≡ₚ i :: l.
Proof.
  induction l as [|j l IH]; simpl; [done|].
  destruct (Rle_dec (key i) (key j)); [done|].
  rewrite IH. apply Permutation_swap.
Qed.

Lemma insert_asc_sorted (i : nat) (l : list nat) :
  StronglySorted (sorts_before key) l ->
  Forall (fun j => (i < j)%nat) l ->
  StronglySorted (sorts_before key) (insert_asc key i l).
Proof.
  induction 1 as [|j l Hl IH Hj]; intros Hi; simpl.
  - repeat constructor.
  - inversion Hi as [|? ? Hij Hil]; subst.
    destruct (Rle_dec (key i) (key j)) as [Hle|Hgt].
    + assert (sorts_before key i j) as Hbefore.
      { unfold sorts_before. destruct (Rle_lt_or_eq_dec _ _ Hle); [by left|by right]. }
      constructor; [by constructor|]. constructor; [done|].
      eapply Forall_impl; [exact Hj|]. simpl. intros k Hk.
      by eapply sorts_before_trans.
    + constructor; [by apply IH|].
      rewrite insert_asc_Permutation. constructor; [|done].
      left. lra.
Qed.

Lemma foldr_insert_asc (start len : nat) :
  let sorted := foldr (insert_asc key) [] (seq start len) in
  sorted ≡ₚ seq start len /\ StronglySorted (sorts_before key) sorted.
Proof.
  revert start. induction len as [|len IH]; intros start; simpl.
  - split; [done|constructor].
  - destruct (IH (S start)) as [Hperm Hsorted]. split.
    + rewrite insert_asc_Permutation. by rewrite Hperm.
    + apply insert_asc_sorted; [done|].
      rewrite Hperm. apply Forall_forall. intros j Hj.
      apply list_elem_of_In, in_seq in Hj. lia.
Qed.

Lemma insert_after_ties_Permutation (i : nat) (l : list nat) :
  insert_after_ties key i l ≡ₚ i :: l.
Proof.
  induction l as [|j l IH]; simpl; [done|].
  destruct (Rlt_dec (key i) (key j)); [done|].
  rewrite IH. apply Permutation_swap.
Qed.

Lemma insert_after_ties_sorted (i : nat) (l : list nat) :
  StronglySorted (fun a b => key a <= key b) l ->
  StronglySorted (fun a b => key a <= key b) (insert_after_ties key i l).
Proof.
  induction 1 as [|j l Hl IH Hj]; simpl.
  - repeat constructor.
  - destruct (Rlt_dec (key i) (key j)) as [Hlt|Hge].
    + constructor; [by constructor|]. constructor; [lra|].
      eapply Forall_impl; [exact Hj|]. simpl. intros k Hk. lra.
    + constructor; [done|].
      rewrite insert_after_ties_Permutation. constructor; [lra|done].
Qed.

End StableSort.

Section SortingPromise.
Import Num RetrieverSpec.
Local Open Scope R_scope.

Lemma StronglySorted_weaken {A : Type} (R1 R2 : A -> A -> Prop) (l : list A) :
  (forall x y, R1 x y -> R2 x y) -> StronglySorted R1 l -> StronglySorted R2 l.
Proof.
  intros Himp. induction 1 as [|a l _ IH Ha]; constructor; [done|].
  eapply Forall_impl; [exact Ha|]. exact (Himp a).
Qed.

(** The stable sort leaves equal values in ascending order of position. *)
Lemma stable_argsort_spec (a : list R) :
  stable_argsort a ≡ₚ seq 0 (length a) /\
  StronglySorted (sorts_before (fun i => nth i a 0)) (stable_argsort a).
Proof. apply foldr_insert_asc. Qed.

Lemma stable_argsort_ascending (a : list R) :
  StronglySorted (fun i j => nth i a 0 <= nth j a 0) (stable_argsort a).
Proof.
  eapply StronglySorted_weaken; [|apply stable_argsort_spec].
  unfold sorts_before. intros i j [?|[? _]]; lra.
Qed.

Lemma tie_reversing_argsort_Permutation (a : list R) :
  tie_reversing_argsort a ≡ₚ seq 0 (length a).
Proof.
  unfold tie_reversing_argsort. induction (seq 0 (length a)) as [|i l IH]; simpl; [done|].
  by rewrite insert_after_ties_Permutation, IH.
Qed.

Lemma tie_reversing_argsort_ascending (a : list R) :
  StronglySorted (fun i j => nth i a 0 <= nth j a 0) (tie_reversing_argsort a).
Proof.
  unfold tie_reversing_argsort. induction (seq 0 (length a)) as [|i l IH]; simpl.
  - constructor.
  - by apply (insert_after_ties_sorted (fun i => nth i a 0)).
Qed.

End SortingPromise.

(** The stable sort keeps NumPy's promise. *)
Definition stable_sort : Num.ArgSort :=
  {| Num.argsort := Num.stable_argsort;
     Num.argsort_Permutation := fun a => proj1 (stable_argsort_spec a);
     Num.argsort_ascending := stable_argsort_ascending |}.

(** So does the sort that leaves equal values in descending order of
    position. *)
Definition tie_reversing_sort : Num.ArgSort :=
  {| Num.argsort := Num.tie_reversing_argsort;
     Num.argsort_Permutation := tie_reversing_argsort_Permutation;
     Num.argsort_ascending := tie_reversing_argsort_ascending |}.

(** * Properties *)

(** ** URL canonicalization *)

Import PyStr Urllib Num Utils UrlSpec.

Section UrlFacts.

Ltac by_cases_on_char c :=
  destruct c as [[] [] [] [] [] [] [] []]; vm_compute; try reflexivity; try discriminate; intuition congruence.

Lemma is_char_eq (x c : ascii) : is_char x c = true <-> c = x.
Proof. unfold is_char. rewrite Ascii.eqb_eq. split; congruence. Qed.

Lemma lower_char_idem (c : ascii) : lower_char (lower_char c) = lower_char c.
Proof. by_cases_on_char c. Qed.

Lemma lower_char_separator (x c : ascii) :
  is_separator x -> is_char x (lower_char c) = is_char x c.
Proof.
  unfold is_separator. simpl.
  intros [<-|[<-|[<-|[<-|[<-|[<-|[<-|[]]]]]]]]; by_cases_on_char c.
Qed.

Lemma lower_char_isascii (c : ascii) : isascii (lower_char c) = isascii c.
Proof. by_cases_on_char c. Qed.

Lemma lower_char_alpha (c : ascii) :
  isascii_alpha c = true -> isascii_alpha (lower_char c) = true.
Proof. by_cases_on_char c. Qed.

Lemma lower_char_scheme (c : ascii) :
  in_scheme_chars c = true -> in_scheme_chars (lower_char c) = true.
Proof. by_cases_on_char c. Qed.

Lemma lower_char_url_char (c : ascii) :
  url_char c = true -> url_char (lower_char c) = true.
Proof. by_cases_on_char c. Qed.

Lemma scheme_char_not_colon (c : ascii) :
  in_scheme_chars c = true -> is_char ":" c = false.
Proof. by_cases_on_char c. Qed.

Lemma url_char_not_unsafe (c : ascii) :
  url_char c = true -> is_unsafe_url_byte c = false.
Proof. by_cases_on_char c. Qed.

End UrlFacts.

Section StringOps.
Implicit Types (p : ascii -> bool) (s a b t : list ascii).

Lemma lstrip_head p s :
  match s with [] => True | c :: _ => p c = false end -> lstrip p s = s.
Proof. destruct s as [|c s']; simpl; [done|]. by intros ->. Qed.

Lemma rstrip_none p s : Forall (fun c => p c = false) s -> rstrip p s = s.
Proof.
  induction 1 as [|c s Hc Hs IH]; simpl; [done|].
  rewrite IH. destruct s; [by rewrite Hc|done].
Qed.

Lemma rstrip_idem p s : rstrip p (rstrip p s) = rstrip p s.
Proof.
  induction s as [|c s IH]; simpl; [done|].
  destruct (rstrip p s) as [|d r] eqn:E.
  - destruct (p c) eqn:Hc; simpl; [done|]. by rewrite Hc.
  - change (rstrip p (c :: d :: r)) with
      (match rstrip p (d :: r) with [] => if p c then [] else [c] | x => c :: x end).
    by rewrite IH.
Qed.

Lemma rstrip_snoc p s c : p c = true -> rstrip p (s ++ [c]) = rstrip p s.
Proof.
  intros Hc. induction s as [|d s IH]; simpl.
  - by rewrite Hc.
  - by rewrite IH.
Qed.

Lemma rstrip_app_keep p s t : rstrip p t <> [] -> rstrip p (s ++ t) = s ++ rstrip p t.
Proof.
  intros Ht. induction s as [|d s IH]; simpl; [done|].
  rewrite IH. destruct (s ++ rstrip p t) eqn:E; [|done].
  apply app_eq_nil in E as [_ E]. done.
Qed.

Lemma rstrip_is_prefix p s : exists t, s = rstrip p s ++ t.
Proof.
  induction s as [|c s [t IH]]; simpl; [by exists []|].
  destruct (rstrip p s) as [|d r] eqn:E.
  - destruct (p c); [by exists (c :: s)|]. exists s. done.
  - exists t. simpl in *. by f_equal.
Qed.

Lemma rstrip_Forall (P : ascii -> Prop) p s : Forall P s -> Forall P (rstrip p s).
Proof.
  intros H. destruct (rstrip_is_prefix p s) as [t Ht].
  rewrite Ht in H. by apply Forall_app in H as [H _].
Qed.

Lemma break_at_app p s a b : break_at p s = (a, b) -> s = a ++ b.
Proof.
  revert a b. induction s as [|c s IH]; simpl; intros a b H.
  - by injection H as <- <-.
  - destruct (p c).
    + by injection H as <- <-.
    + destruct (break_at p s) as [a' b']. injection H as <- <-.
      simpl. f_equal. by apply IH.
Qed.

Lemma break_at_fst p s a b :
  break_at p s = (a, b) -> Forall (fun c => p c = false) a.
Proof.
  revert a b. induction s as [|c s IH]; simpl; intros a b H.
  - injection H as <- <-. constructor.
  - destruct (p c) eqn:Hc.
    + injection H as <- <-. constructor.
    + destruct (break_at p s) as [a' b']. injection H as <- <-.
      constructor; [done|]. by eapply IH.
Qed.

Lemma break_at_snd p s a b :
  break_at p s = (a, b) -> match b with [] => True | c :: _ => p c = true end.
Proof.
  revert a b. induction s as [|c s IH]; simpl; intros a b H.
  - by injection H as <- <-.
  - destruct (p c) eqn:Hc.
    + by injection H as <- <-.
    + destruct (break_at p s) as [a' b']. injection H as <- <-. by eapply IH.
Qed.

Lemma break_at_unique p a b :
  Forall (fun c => p c = false) a ->
  match b with [] => True | c :: _ => p c = true end ->
  break_at p (a ++ b) = (a, b).
Proof.
  intros Ha Hb. induction Ha as [|c a Hc Ha IH]; simpl.
  - destruct b as [|c b]; simpl; [done|]. by rewrite Hb.
  - by rewrite Hc, IH.
Qed.

Lemma break_at_none p s : Forall (fun c => p c = false) s -> break_at p s = (s, []).
Proof.
  intros H. rewrite <- (app_nil_r s) at 1. by apply break_at_unique.
Qed.

Lemma break_at_fst_or p q s :
  fst (break_at p (fst (break_at q s))) = fst (break_at (fun c => p c || q c) s).
Proof.
  induction s as [|c s IH]; simpl; [done|].
  destruct (q c) eqn:Hq; simpl.
  - by rewrite orb_true_r.
  - rewrite orb_false_r. destruct (break_at q s) as [a b] eqn:E. simpl in *.
    destruct (p c) eqn:Hp; [done|].
    destruct (break_at p a) as [a1 b1].
    destruct (break_at (fun c0 => p c0 || q c0) s) as [a2 b2].
    simpl in *. by rewrite IH.
Qed.

Lemma break_at_map (f : ascii -> ascii) p s :
  (forall c, p (f c) = p c) ->
  break_at p (map f s) = (map f (fst (break_at p s)), map f (snd (break_at p s))).
Proof.
  intros Hf. induction s as [|c s IH]; simpl; [done|].
  rewrite Hf. destruct (p c); [done|].
  rewrite IH. by destruct (break_at p s).
Qed.

End StringOps.

Section CanonFacts.
Context (V : Validators).

Lemma clean_lstrip s : clean s -> lstrip is_c0_control_or_space s = s.
Proof.
  intros H. apply lstrip_head. destruct H as [|c s Hc _]; [done|].
  unfold url_char in Hc. apply andb_true_iff in Hc as [_ Hc].
  by apply negb_true_iff in Hc.
Qed.

Lemma clean_filter s :
  clean s -> List.filter (fun c => negb (is_unsafe_url_byte c)) s = s.
Proof.
  induction 1 as [|c s Hc _ IH]; simpl; [done|].
  by rewrite (url_char_not_unsafe c Hc), IH.
Qed.

Lemma clean_strip s : clean s -> strip s = s.
Proof.
  intros H. unfold strip. rewrite lstrip_head.
  - apply rstrip_none. eapply Forall_impl; [exact H|]. simpl. intros c Hc.
    unfold url_char in Hc. apply andb_true_iff in Hc as [Hc _].
    by apply negb_true_iff in Hc.
  - destruct H as [|c s Hc _]; [done|].
    unfold url_char in Hc. apply andb_true_iff in Hc as [Hc _].
    by apply negb_true_iff in Hc.
Qed.

Lemma split_once_fst x s : fst (split_once x s) = fst (break_at (is_char x) s).
Proof.
  unfold split_once. destruct (break_at (is_char x) s) as [a b] eqn:E.
  destruct b; [|done]. simpl. apply break_at_app in E. by rewrite app_nil_r in E.
Qed.

Lemma urlsplit_clean s :
  clean s ->
  (do parts <- urlsplit V s; Ok (scheme parts, netloc parts, path parts)) = parse3 V s.
Proof.
  intros H. unfold urlsplit, parse3.
  rewrite (clean_lstrip s H), (clean_filter s H).
  destruct (split_scheme s) as [sch r]. simpl.
  destruct (split_netloc V r) as [[nl r2]|e]; simpl; [|done].
  pose proof (split_once_fst "#" r2) as H1.
  destruct (split_once "#" r2) as [u1 fr]. simpl in H1.
  pose proof (split_once_fst "?" u1) as H2.
  destruct (split_once "?" u1) as [u2 q]. simpl in H2.
  destruct (_checknetloc V nl); simpl; [|done].
  do 2 f_equal. subst u2 u1.
  apply (break_at_fst_or (is_char "?") (is_char "#") r2).
Qed.

Lemma canonicalize_url_core (u : string) :
  canonicalize_url V (CStr u) =
  do parts <- urlsplit V (strip (chars u));
  Ok (string_of_list_ascii (canon_parts parts)).
Proof.
  unfold canonicalize_url. destruct (strip (chars u)) as [|c s] eqn:E; simpl; [|done].
  reflexivity.
Qed.

(** *** Lower-casing commutes with the netloc checks *)

Ltac sep := unfold is_separator; simpl; auto 10.

Lemma nonempty_lower s : nonempty (lower s) = nonempty s.
Proof. by destruct s. Qed.

Lemma lower_idem s : lower (lower s) = lower s.
Proof.
  unfold lower. rewrite map_map. apply map_ext. intros c. apply lower_char_idem.
Qed.

Lemma contains_lower x s : is_separator x -> contains x (lower s) = contains x s.
Proof.
  intros Hx. unfold contains, lower. induction s as [|c s IH]; simpl; [done|].
  by rewrite IH, lower_char_separator.
Qed.

Lemma break_at_lower x s :
  is_separator x ->
  break_at (is_char x) (lower s) =
  (lower (fst (break_at (is_char x) s)), lower (snd (break_at (is_char x) s))).
Proof. intros Hx. apply break_at_map. intros c. by apply lower_char_separator. Qed.

Lemma partition_lower x s :
  is_separator x ->
  partition x (lower s) =
  (lower (partition x s).1.1, (partition x s).1.2, lower (partition x s).2).
Proof.
  intros Hx. unfold partition. rewrite break_at_lower by done.
  destruct (break_at (is_char x) s) as [a [|c b]]; simpl; done.
Qed.

Lemma rpartition_tail_lower x s :
  is_separator x -> rpartition_tail x (lower s) = lower (rpartition_tail x s).
Proof.
  intros Hx. induction s as [|c s IH]; simpl; [done|].
  change (map lower_char s) with (lower s).
  rewrite contains_lower, lower_char_separator by done.
  destruct (contains x s); [done|]. by destruct (is_char x c).
Qed.

Lemma starts_with_colon_lower s :
  starts_with [":"%char] (lower s) = starts_with [":"%char] s.
Proof.
  destruct s as [|c s]; [done|]. unfold starts_with. simpl.
  apply bool_decide_ext. split; intros [= H]; f_equal.
  - apply is_char_eq. rewrite <- (lower_char_separator ":" c) by sep.
    by apply is_char_eq.
  - apply is_char_eq. rewrite (lower_char_separator ":" c) by sep.
    by apply is_char_eq.
Qed.

Lemma check_bracketed_netloc_lower nl :
  respects_lower V ->
  _check_bracketed_netloc V nl = Ok tt ->
  _check_bracketed_netloc V (lower nl) = Ok tt.
Proof.
  intros [Hhost _]. unfold _check_bracketed_netloc.
  rewrite rpartition_tail_lower by sep.
  set (hp := rpartition_tail "@" nl).
  rewrite partition_lower by sep.
  destruct (partition "[" hp) as [[before have] bracketed]. simpl.
  destruct have.
  - rewrite nonempty_lower. destruct (nonempty before); [done|].
    rewrite partition_lower by sep.
    destruct (partition "]" bracketed) as [[hostname x] port]. simpl.
    rewrite nonempty_lower, starts_with_colon_lower.
    destruct (nonempty port && negb (starts_with [":"%char] port)); [done|]. simpl.
    destruct (check_bracketed_host V hostname) eqn:E; [done|].
    by rewrite (Hhost _ E).
  - rewrite partition_lower by sep.
    destruct (partition ":" hp) as [[hostname x] port]. simpl.
    destruct (check_bracketed_host V hostname) eqn:E; [done|].
    by rewrite (Hhost _ E).
Qed.

Lemma bracket_checks_lower nl :
  respects_lower V ->
  bracket_checks V nl = Ok tt -> bracket_checks V (lower nl) = Ok tt.
Proof.
  intros HV. unfold bracket_checks. rewrite !contains_lower by sep.
  destruct (_ || _); [done|].
  destruct (_ && _); [|done]. by apply check_bracketed_netloc_lower.
Qed.

Lemma checknetloc_lower nl :
  respects_lower V ->
  _checknetloc V nl = Ok tt -> _checknetloc V (lower nl) = Ok tt.
Proof.
  intros [_ Hn]. unfold _checknetloc. rewrite nonempty_lower.
  assert (forallb isascii (lower nl) = forallb isascii nl) as ->.
  { unfold lower. induction nl as [|c nl IH]; simpl; [done|].
    by rewrite IH, lower_char_isascii. }
  destruct (_ || _); [done|].
  destruct (check_nfkc V nl) eqn:E; [done|]. by rewrite (Hn _ E).
Qed.

End CanonFacts.

Section SchemeNetloc.
Context (V : Validators).
Implicit Types (s r p t : list ascii).

Lemma is_char_refl x : is_char x x = true.
Proof. by apply is_char_eq. Qed.

Lemma starts_with_cons x pre c s :
  starts_with (x :: pre) (c :: s) = is_char x c && starts_with pre s.
Proof.
  unfold starts_with. simpl. destruct (is_char x c) eqn:E; simpl.
  - apply is_char_eq in E as ->. apply bool_decide_ext.
    split; [by intros [= ->]|by intros ->].
  - apply bool_decide_eq_false. intros [= -> _]. by rewrite is_char_refl in E.
Qed.

Lemma starts_with_nil_l s : starts_with [] s = true.
Proof. unfold starts_with. simpl. by destruct s. Qed.

Lemma starts_with_nil_r x pre : starts_with (x :: pre) [] = false.
Proof. done. Qed.

Lemma starts_with_slash2 r :
  starts_with (chars "//") r = true -> exists r', r = slash :: slash :: r'.
Proof.
  change (chars "//") with [slash; slash].
  destruct r as [|c1 [|c2 r']]; [done| |].
  - rewrite starts_with_cons. rewrite starts_with_nil_r, andb_false_r. done.
  - rewrite !starts_with_cons, starts_with_nil_l, andb_true_r.
    intros [H1 H2]%andb_true_iff. apply is_char_eq in H1, H2. subst. by exists r'.
Qed.

Lemma starts_with_slash2_app r t :
  starts_with (chars "//") r = true -> starts_with (chars "//") (r ++ t) = true.
Proof. intros [r' ->]%starts_with_slash2. done. Qed.

Lemma split_scheme_nil : split_scheme [] = ([], []).
Proof. done. Qed.

Lemma split_scheme_not_alpha c s :
  isascii_alpha c = false -> split_scheme (c :: s) = ([], c :: s).
Proof.
  intros Hc. unfold split_scheme. simpl.
  destruct (is_char ":" c); [done|].
  destruct (break_at (is_char ":") s) as [a [|d b]]; [done|].
  by rewrite Hc.
Qed.

Lemma scheme_chars_no_colon s :
  forallb in_scheme_chars s = true -> Forall (fun c => is_char ":" c = false) s.
Proof.
  intros H. apply Forall_forall. intros c Hc.
  apply scheme_char_not_colon. rewrite forallb_forall in H. apply H.
  by apply list_elem_of_In.
Qed.

Lemma split_scheme_found c pre post :
  isascii_alpha c = true -> forallb in_scheme_chars (c :: pre) = true ->
  split_scheme ((c :: pre) ++ ":"%char :: post) = (lower (c :: pre), post).
Proof.
  intros Hc Hall. unfold split_scheme.
  rewrite (break_at_unique (is_char ":") (c :: pre) (":"%char :: post)).
  - by rewrite Hc, Hall.
  - by apply scheme_chars_no_colon.
  - done.
Qed.

Lemma split_scheme_cases s :
  (exists c pre post,
      s = (c :: pre) ++ ":"%char :: post /\ isascii_alpha c = true /\
      forallb in_scheme_chars (c :: pre) = true /\
      split_scheme s = (lower (c :: pre), post))
  \/ split_scheme s = ([], s).
Proof.
  unfold split_scheme. destruct (break_at (is_char ":") s) as [a b] eqn:E.
  destruct a as [|c pre]; [by right|]. destruct b as [|d post]; [by right|].
  destruct (isascii_alpha c && forallb in_scheme_chars (c :: pre)) eqn:Hok; [|by right].
  left. exists c, pre, post. apply andb_true_iff in Hok as [Hc Hall].
  pose proof (break_at_snd _ _ _ _ E) as Hd. simpl in Hd.
  apply is_char_eq in Hd as ->. apply break_at_app in E. done.
Qed.

(** A scheme that was split off parses again as itself. *)
Lemma split_scheme_again s sch r rest :
  split_scheme s = (sch, r) -> sch <> [] ->
  split_scheme (sch ++ ":"%char :: rest) = (sch, rest).
Proof.
  intros Hs Hne. destruct (split_scheme_cases s) as [(c & pre & post & _ & Hc & Hall & E)|E];
    rewrite E in Hs; injection Hs as <- <-; [|done].
  change (lower (c :: pre)) with (lower_char c :: lower pre).
  rewrite split_scheme_found.
  - change (lower (lower_char c :: lower pre)) with (lower (lower (c :: pre))).
    by rewrite lower_idem.
  - by apply lower_char_alpha.
  - change (lower_char c :: lower pre) with (map lower_char (c :: pre)).
    rewrite forallb_forall in Hall. apply forallb_forall. intros x Hx.
    apply in_map_iff in Hx as (y & <- & Hy). apply lower_char_scheme. by apply Hall.
Qed.

Lemma split_scheme_prefix q t :
  split_scheme (q ++ t) = ([], q ++ t) -> split_scheme q = ([], q).
Proof.
  intros H. destruct (split_scheme_cases q) as [(c & pre & post & Hq & Hc & Hall & E)|E];
    [|done].
  exfalso. rewrite Hq in H. rewrite <- app_assoc in H. simpl in H.
  change (c :: pre ++ ":"%char :: post ++ t) with ((c :: pre) ++ ":"%char :: post ++ t) in H.
  rewrite split_scheme_found in H by done. discriminate.
Qed.

(** Appending text that starts with a character that can neither belong
    to a scheme nor end one leaves the scheme step unchanged. *)
Lemma split_scheme_app b t :
  match t with
  | [] => True
  | c :: _ => in_scheme_chars c = false /\ is_char ":" c = false
  end ->
  split_scheme (b ++ t) = ((split_scheme b).1, (split_scheme b).2 ++ t).
Proof.
  intros Ht.
  destruct (split_scheme_cases b) as [(c & pre & post & Hb & Hc & Hall & E)|E].
  - rewrite E. simpl. rewrite Hb, <- app_assoc. simpl.
    change (c :: pre ++ ":"%char :: post ++ t) with ((c :: pre) ++ ":"%char :: post ++ t).
    by apply split_scheme_found.
  - rewrite E. simpl. destruct t as [|d t]; [by rewrite app_nil_r|].
    destruct Ht as [Hd1 Hd2].
    destruct (split_scheme_cases (b ++ d :: t))
      as [(c & pre & post & Hb & Hc & Hall & E')|E']; [|done].
    exfalso.
    (* the first colon of [b ++ d :: t] lies in [b] or after [d] *)
    destruct (break_at (is_char ":") b) as [a1 b1] eqn:Eb.
    pose proof (break_at_app _ _ _ _ Eb) as Hab.
    pose proof (break_at_fst _ _ _ _ Eb) as Ha1.
    pose proof (break_at_snd _ _ _ _ Eb) as Hb1.
    assert (break_at (is_char ":") (b ++ d :: t) = (c :: pre, ":"%char :: post)) as Hbr.
    { rewrite Hb. apply break_at_unique; [by apply scheme_chars_no_colon|done]. }
    destruct b1 as [|x b1].
    + rewrite app_nil_r in Hab. subst a1.
      destruct (break_at (is_char ":") t) as [a2 b2] eqn:Et.
      rewrite (break_at_app _ _ _ _ Et) in Hbr.
      replace (b ++ d :: a2 ++ b2) with ((b ++ d :: a2) ++ b2) in Hbr
        by (by rewrite <- app_assoc).
      rewrite (break_at_unique (is_char ":") (b ++ d :: a2) b2) in Hbr.
      * injection Hbr as Hpre _. rewrite <- Hpre in Hall.
        rewrite forallb_app in Hall. simpl in Hall. rewrite Hd1 in Hall.
        simpl in Hall. by rewrite andb_false_r in Hall.
      * apply Forall_app. split; [done|]. constructor; [done|].
        by eapply break_at_fst.
      * by eapply break_at_snd.
    + rewrite Hab, <- app_assoc in Hbr. simpl in Hbr.
      rewrite (break_at_unique (is_char ":") a1 (x :: b1 ++ d :: t)) in Hbr by done.
      injection Hbr as Ha Hx _. subst a1 x.
      unfold split_scheme in E. rewrite Eb, Hc, Hall in E. discriminate.
Qed.

End SchemeNetloc.

Section Idempotence.
Context (V : Validators).
Implicit Types (s r p t : list ascii).

Lemma slash_led_delim_led p : slash_led p -> delim_led p.
Proof. destruct p as [|c p]; [done|]. simpl. by intros ->. Qed.

Lemma slash_led_rstrip f p : slash_led p -> slash_led (rstrip f p).
Proof.
  intros H. destruct (rstrip_is_prefix f p) as [t Ht].
  destruct (rstrip f p) as [|c q]; [done|]. rewrite Ht in H. exact H.
Qed.

Lemma slash_led_no_fix p :
  slash_led p -> nonempty p && negb (starts_with (chars "/") p) = false.
Proof.
  destruct p as [|c p]; [done|]. simpl. intros ->.
  change (chars "/") with [slash].
  rewrite starts_with_cons, starts_with_nil_l. unfold slash. rewrite is_char_refl. reflexivity.
Qed.

Lemma not_delim_not_qf c : is_netloc_delim c = false -> is_qf c = false.
Proof.
  unfold is_netloc_delim, is_qf. intros H.
  apply orb_false_iff in H as [H H3]. apply orb_false_iff in H as [_ H2].
  by rewrite H2, H3.
Qed.

Lemma qf_is_delim c : is_qf c = true -> is_netloc_delim c = true.
Proof.
  unfold is_netloc_delim, is_qf. intros [H|H]%orb_true_iff; rewrite H;
    by rewrite ?orb_true_r.
Qed.

Lemma path_slash_led r2 : delim_led r2 -> slash_led (fst (break_at is_qf r2)).
Proof.
  destruct r2 as [|c r2]; [done|]. simpl. intros Hc.
  destruct (is_qf c) eqn:Hq; [done|].
  destruct (break_at is_qf r2). simpl.
  unfold is_netloc_delim, is_qf in *. apply orb_false_iff in Hq as [H2 H3].
  rewrite H2, H3, !orb_false_r in Hc. by apply is_char_eq in Hc.
Qed.

Lemma split_netloc_cases r nl r2 :
  split_netloc V r = Ok (nl, r2) ->
  (exists r', r = slash :: slash :: r' /\
              break_at is_netloc_delim r' = (nl, r2) /\
              bracket_checks V nl = Ok tt)
  \/ (starts_with (chars "//") r = false /\ nl = [] /\ r2 = r).
Proof.
  unfold split_netloc. destruct (starts_with (chars "//") r) eqn:E.
  - apply starts_with_slash2 in E as [r' ->]. unfold _splitnetloc.
    change (drop 2 (slash :: slash :: r')) with r'.
    destruct (break_at is_netloc_delim r') as [a b] eqn:Eb.
    destruct (bracket_checks V a) as [[]|e] eqn:Ec; simpl; [|by intros [=]].
    intros [= <- <-]. left. by exists r'.
  - intros [= <- <-]. by right.
Qed.

Lemma split_netloc_build nl p :
  Forall (fun c => is_netloc_delim c = false) nl ->
  delim_led p ->
  bracket_checks V nl = Ok tt ->
  split_netloc V (slash :: slash :: nl ++ p) = Ok (nl, p).
Proof.
  intros Hnl Hp Hb. unfold split_netloc.
  change (chars "//") with [slash; slash].
  rewrite !starts_with_cons, starts_with_nil_l, !is_char_refl. simpl.
  unfold _splitnetloc. change (drop 2 (slash :: slash :: nl ++ p)) with (nl ++ p).
  rewrite (break_at_unique is_netloc_delim nl p Hnl Hp). by rewrite Hb.
Qed.

Lemma split_netloc_none r :
  starts_with (chars "//") r = false -> split_netloc V r = Ok ([], r).
Proof. intros H. unfold split_netloc. by rewrite H. Qed.

Lemma bracket_checks_nil : bracket_checks V [] = Ok tt.
Proof. done. Qed.

Lemma checknetloc_nil : _checknetloc V [] = Ok tt.
Proof. done. Qed.

Lemma starts_with_slash2_prefix p t :
  starts_with (chars "//") (p ++ t) = false -> starts_with (chars "//") p = false.
Proof.
  intros H. destruct (starts_with (chars "//") p) eqn:E; [|done].
  by rewrite (starts_with_slash2_app p t E) in H.
Qed.

Lemma unsplit3_assemble sch nl p :
  unsplit3 (sch, nl, p) = assemble sch (lower nl) (rstrip (is_char "/") p).
Proof. reflexivity. Qed.

Lemma rstrip_cons_keep f c q :
  rstrip f q = q -> q <> [] -> rstrip f (c :: q) = c :: q.
Proof. intros H Hne. simpl. rewrite H. by destruct q. Qed.

Lemma isascii_alpha_slash : isascii_alpha slash = false.
Proof. done. Qed.

Lemma is_qf_slash : is_qf slash = false.
Proof. done. Qed.

Lemma split_scheme_slash_led p : slash_led p -> split_scheme p = ([], p).
Proof.
  destruct p as [|c p]; [done|]. simpl. intros ->.
  apply split_scheme_not_alpha. apply isascii_alpha_slash.
Qed.

Lemma parse3_of_parts url sch body nl r2 :
  split_scheme url = (sch, body) ->
  split_netloc V body = Ok (nl, r2) ->
  _checknetloc V nl = Ok tt ->
  Forall (fun c => is_qf c = false) r2 ->
  parse3 V url = Ok (sch, nl, r2).
Proof.
  intros Hs Hn Hc Hq. unfold parse3. rewrite Hs. simpl. rewrite Hn. simpl.
  rewrite Hc. simpl. by rewrite (break_at_none is_qf r2 Hq).
Qed.

Lemma lower_no_delim nl :
  Forall (fun c => is_netloc_delim c = false) nl ->
  Forall (fun c => is_netloc_delim c = false) (lower nl).
Proof.
  intros H. unfold lower. apply Forall_map. eapply Forall_impl; [exact H|].
  simpl. intros c Hc. unfold is_netloc_delim in *.
  by rewrite !lower_char_separator by (unfold is_separator; simpl; auto 10).
Qed.

Lemma parse3_unsplit3 s (t : list ascii * list ascii * list ascii) :
  respects_lower V ->
  parse3 V s = Ok t ->
  (t.1.2 = [] -> starts_with (chars "//") t.2 = false) ->
  exists t' : list ascii * list ascii * list ascii,
    parse3 V (unsplit3 t) = Ok t' /\ unsplit3 t' = unsplit3 t.
Proof.
  intros HV Hparse Hhost. destruct t as [[sch nl] p]. simpl in Hhost.
  unfold parse3 in Hparse.
  destruct (split_scheme s) as [sch0 r] eqn:Es. simpl in Hparse.
  destruct (split_netloc V r) as [[nl0 r2]|e] eqn:En; simpl in Hparse; [|done].
  destruct (_checknetloc V nl0) as [[]|e] eqn:Ec; simpl in Hparse; [|done].
  injection Hparse as <- <- Hp.
  set (p' := rstrip (is_char "/") p).
  assert (Forall (fun c => is_qf c = false) p) as Hpq.
  { rewrite <- Hp. destruct (break_at is_qf r2) as [a b] eqn:E. by eapply break_at_fst. }
  assert (Forall (fun c => is_qf c = false) p') as Hp'q by by apply rstrip_Forall.
  assert (rstrip (is_char "/") p' = p') as Hp'idem by apply rstrip_idem.
  assert (forall body, sch0 <> [] ->
            split_scheme (sch0 ++ ":"%char :: body) = (sch0, body)) as Hagain.
  { intros body Hne. by eapply split_scheme_again. }
  assert (nl0 = [] -> starts_with (chars "//") p' = false) as Hp'2.
  { intros Hnil. specialize (Hhost Hnil).
    destruct (rstrip_is_prefix (is_char "/") p) as [t Ht]. fold p' in Ht.
    rewrite Ht in Hhost. by eapply starts_with_slash2_prefix. }
  assert (nl0 <> [] -> slash_led p' /\
            Forall (fun c => is_netloc_delim c = false) nl0 /\
            bracket_checks V nl0 = Ok tt) as Hparsed.
  { intros Hne.
    destruct (split_netloc_cases r nl0 r2 En) as [(r' & -> & Eb & Hbr)|(_ & ? & _)]; [|done].
    split; [|split]; [|by eapply break_at_fst|done].
    apply slash_led_rstrip. rewrite <- Hp. apply path_slash_led. by eapply break_at_snd. }
  assert (sch0 = [] -> nl0 = [] -> split_scheme p' = ([], p')) as Hbare.
  { intros -> ->.
    destruct (split_netloc_cases r [] r2 En) as [(r' & -> & Eb & Hbr)|(_ & _ & ->)].
    - apply split_scheme_slash_led, slash_led_rstrip. rewrite <- Hp.
      apply path_slash_led. by eapply break_at_snd.
    - destruct (split_scheme_cases s)
        as [(c & pre & post & _ & _ & _ & E)|E]; rewrite E in Es;
        [discriminate|]. injection Es as <-.
      destruct (rstrip_is_prefix (is_char "/") p) as [t1 Ht1]. fold p' in Ht1.
      destruct (break_at is_qf s) as [a b] eqn:Eqf. simpl in Hp. subst a.
      apply break_at_app in Eqf. rewrite Ht1, <- app_assoc in Eqf.
      apply (split_scheme_prefix p' (t1 ++ b)). by rewrite <- Eqf. }
  rewrite unsplit3_assemble. fold p'. unfold assemble, body_of.
  rewrite nonempty_lower.
  destruct nl0 as [|n0 nl0].
  - (* empty netloc *)
    specialize (Hp'2 eq_refl). clear Hparsed.
    simpl nonempty at 1 3. rewrite orb_false_l, Hp'2.
    change (lower []) with (@nil ascii).
    simpl negb. rewrite andb_true_r.
    destruct (nonempty sch0 && bool_decide (sch0 ∈ uses_netloc)) eqn:Hcond.
    + apply andb_true_iff in Hcond as [Hne Huses]. rewrite Hne.
      set (p'' := if nonempty p' && negb (starts_with (chars "/") p')
                  then slash :: p' else p').
      assert (slash_led p'') as Hled''.
      { unfold p''. destruct (nonempty p' && negb (starts_with (chars "/") p')) eqn:Ef;
          [done|].
        destruct p' as [|c q]; [done|]. simpl in Ef.
        change (chars "/") with [slash] in Ef.
        rewrite starts_with_cons, starts_with_nil_l, andb_true_r in Ef.
        apply negb_false_iff, is_char_eq in Ef. done. }
      assert (Forall (fun c => is_qf c = false) p'') as Hq''.
      { unfold p''. destruct (_ && _); [|done]. constructor; [apply is_qf_slash|done]. }
      assert (rstrip (is_char "/") p'' = p'') as Hidem''.
      { unfold p''. destruct (nonempty p' && negb (starts_with (chars "/") p')) eqn:Ef;
          [|done].
        apply rstrip_cons_keep; [done|]. by destruct p'. }
      assert (starts_with (chars "//") p'' = false) as Hp''2.
      { unfold p''. destruct (nonempty p' && negb (starts_with (chars "/") p')) eqn:Ef;
          [|done].
        apply andb_true_iff in Ef as [_ Ef]. apply negb_true_iff in Ef.
        change (chars "//") with [slash; slash]. rewrite starts_with_cons.
        change (chars "/") with [slash] in Ef. by rewrite Ef, andb_false_r. }
      exists (sch0, [], p''). split.
      * apply (parse3_of_parts _ sch0 (chars "//" ++ [] ++ p'') [] p'').
        -- apply Hagain. by destruct sch0.
        -- apply (split_netloc_build [] p''); [constructor| |done].
           by apply slash_led_delim_led.
        -- done.
        -- done.
      * rewrite unsplit3_assemble. change (lower []) with (@nil ascii). rewrite Hidem''.
        unfold assemble, body_of. rewrite Hne, Huses, Hp''2. simpl.
        by rewrite (slash_led_no_fix p'' Hled'').
    + exists (sch0, [], p'). split.
      * apply (parse3_of_parts _ sch0 p').
        -- destruct sch0 as [|c0 sch0]; simpl nonempty; cbv iota.
           ++ by apply Hbare.
           ++ by apply Hagain.
        -- by apply split_netloc_none.
        -- done.
        -- done.
      * rewrite unsplit3_assemble. change (lower []) with (@nil ascii).
        rewrite Hp'idem. unfold assemble, body_of. simpl nonempty at 1 3.
        by rewrite Hp'2, andb_true_r, Hcond.
  - (* non-empty netloc *)
    destruct Hparsed as (Hled' & Hnd & Hbr); [done|].
    simpl nonempty at 1 3. rewrite orb_true_l.
    rewrite (slash_led_no_fix p' Hled').
    exists (sch0, lower (n0 :: nl0), p'). split.
    + apply (parse3_of_parts _ sch0 (chars "//" ++ lower (n0 :: nl0) ++ p')).
      * destruct sch0 as [|c0 sch0]; simpl nonempty; cbv iota.
        -- apply split_scheme_not_alpha. apply isascii_alpha_slash.
        -- by apply Hagain.
      * apply (split_netloc_build (lower (n0 :: nl0)) p').
        -- by apply lower_no_delim.
        -- by apply slash_led_delim_led.
        -- by apply bracket_checks_lower.
      * by apply checknetloc_lower.
      * done.
    + rewrite unsplit3_assemble. rewrite lower_idem, Hp'idem.
      unfold assemble, body_of. rewrite nonempty_lower. simpl nonempty at 1 3.
      by rewrite orb_true_l, (slash_led_no_fix p' Hled').
Qed.

End Idempotence.

Section CanonTheorems.
Context (V : Validators).
Implicit Types (s r p : list ascii).

Lemma url_char_colon : url_char ":" = true. Proof. done. Qed.
Lemma url_char_slash : url_char slash = true. Proof. done. Qed.

Lemma clean_lower s : clean s -> clean (lower s).
Proof.
  intros H. unfold lower. apply Forall_map. eapply Forall_impl; [exact H|].
  simpl. apply lower_char_url_char.
Qed.

Lemma clean_assemble sch nl p' :
  clean sch -> clean nl -> clean p' -> clean (assemble sch nl p').
Proof.
  intros Hs Hn Hp. unfold assemble, body_of, clean in *.
  assert (Forall (fun c => url_char c = true) (chars "//")) as H2.
  { repeat constructor. }
  repeat match goal with |- context [if ?b then _ else _] => destruct b end;
    repeat match goal with
           | |- Forall _ (_ ++ _) => apply Forall_app; split
           | |- Forall _ (_ :: _) => apply Forall_cons; split
           end; done.
Qed.

Lemma clean_parse3 s t3 :
  clean s -> parse3 V s = Ok t3 -> clean (unsplit3 t3).
Proof.
  intros Hs Hparse. destruct t3 as [[sch nl] p]. unfold parse3 in Hparse.
  destruct (split_scheme s) as [sch0 r] eqn:Es. simpl in Hparse.
  destruct (split_netloc V r) as [[nl0 r2]|e] eqn:En; simpl in Hparse; [|done].
  destruct (_checknetloc V nl0) as [[]|e] eqn:Ec; simpl in Hparse; [|done].
  injection Hparse as <- <- Hp.
  assert (clean sch0 /\ clean r) as [Hsch Hr].
  { destruct (split_scheme_cases s) as [(c & pre & post & Hs' & _ & _ & E)|E];
      rewrite E in Es; injection Es as <- <-.
    - rewrite Hs' in Hs. apply Forall_app in Hs as [H1 H2].
      split; [by apply (clean_lower (c :: pre))|]. by inversion H2.
    - split; [constructor|done]. }
  assert (clean nl0 /\ clean r2) as [Hnl Hr2].
  { destruct (split_netloc_cases V r nl0 r2 En) as [(r' & -> & Eb & _)|(_ & -> & ->)].
    - apply break_at_app in Eb. inversion Hr as [|? ? _ Hr']. inversion Hr' as [|? ? _ Hr''].
      rewrite Eb in Hr''. by apply Forall_app in Hr''.
    - split; [constructor|done]. }
  assert (clean p) as Hcp.
  { destruct (break_at is_qf r2) as [a b] eqn:E. simpl in Hp. subst a.
    apply break_at_app in E. rewrite E in Hr2. by apply Forall_app in Hr2 as [H _]. }
  rewrite unsplit3_assemble. apply clean_assemble; [done|by apply clean_lower|].
  by apply rstrip_Forall.
Qed.

(** [urlsplit] is [parse3] after the two normalisation steps. *)
Lemma urlsplit_parse3 s :
  (do parts <- urlsplit V s; Ok (scheme parts, netloc parts, path parts)) =
  parse3 V (List.filter (fun c => negb (is_unsafe_url_byte c))
              (lstrip is_c0_control_or_space s)).
Proof.
  unfold urlsplit, parse3.
  set (s1 := List.filter _ _).
  destruct (split_scheme s1) as [sch r]. simpl.
  destruct (split_netloc V r) as [[nl r2]|e]; simpl; [|done].
  pose proof (split_once_fst "#" r2) as H1.
  destruct (split_once "#" r2) as [u1 fr]. simpl in H1.
  pose proof (split_once_fst "?" u1) as H2.
  destruct (split_once "?" u1) as [u2 q]. simpl in H2.
  destruct (_checknetloc V nl); simpl; [|done].
  do 2 f_equal. subst u2 u1.
  apply (break_at_fst_or (is_char "?") (is_char "#") r2).
Qed.

Lemma canonicalize_url_parse3 (u : string) :
  canonicalize_url V (CStr u) =
  do t3 <- parse3 V (List.filter (fun c => negb (is_unsafe_url_byte c))
                       (lstrip is_c0_control_or_space (strip (chars u))));
  Ok (string_of_list_ascii (unsplit3 t3)).
Proof.
  rewrite canonicalize_url_core, <- urlsplit_parse3.
  by destruct (urlsplit V (strip (chars u))).
Qed.

Lemma canonicalize_url_clean (u : string) :
  clean (chars u) ->
  canonicalize_url V (CStr u) =
  do t3 <- parse3 V (chars u); Ok (string_of_list_ascii (unsplit3 t3)).
Proof.
  intros H. rewrite canonicalize_url_parse3.
  by rewrite (clean_strip _ H), (clean_lstrip _ H), (clean_filter _ H).
Qed.

Lemma chars_string_of_list s : chars (string_of_list_ascii s) = s.
Proof. apply list_ascii_of_string_of_list_ascii. Qed.

Lemma no_space_or_control_clean u : no_space_or_control u = true -> clean (chars u).
Proof.
  unfold no_space_or_control, clean. rewrite forallb_forall, Forall_forall.
  intros H c Hc. apply H. by apply list_elem_of_In.
Qed.

Lemma canonicalize_url_idempotent_clean (u : string) :
  respects_lower V ->
  no_space_or_control u = true ->
  hostless_double_slash V u = false ->
  (do c <- canonicalize_url V (CStr u); canonicalize_url V (CStr c)) = canonicalize_url V (CStr u).
Proof.
  intros HV Hclean%no_space_or_control_clean Hhost.
  unfold hostless_double_slash in Hhost. rewrite (clean_strip _ Hclean) in Hhost.
  pose proof (urlsplit_parse3 (chars u)) as Hsp.
  rewrite (clean_lstrip _ Hclean), (clean_filter _ Hclean) in Hsp.
  rewrite (canonicalize_url_clean u Hclean).
  destruct (parse3 V (chars u)) as [t3|e] eqn:Hparse; simpl; [|done].
  pose proof (clean_parse3 _ _ Hclean Hparse) as Hout.
  rewrite canonicalize_url_clean by by rewrite chars_string_of_list.
  rewrite chars_string_of_list.
  destruct (parse3_unsplit3 V (chars u) t3 HV Hparse) as (t' & -> & Ht').
  - intros Hnl. destruct (urlsplit V (chars u)) as [parts|]; simpl in Hsp; [|done].
    injection Hsp as <-. simpl in *. rewrite Hnl in Hhost. simpl in Hhost.
    done.
  - simpl. by rewrite Ht'.
Qed.

End CanonTheorems.

Section Suffixes.
Context (V : Validators).
Implicit Types (s r p b : list ascii).

Lemma qf_char_facts c :
  is_qf c = true ->
  in_scheme_chars c = false /\ is_char ":" c = false /\ is_char "/" c = false /\
  isspace c = false /\ is_c0_control_or_space c = false /\
  is_unsafe_url_byte c = false.
Proof.
  unfold is_qf. intros [H|H]%orb_true_iff; apply is_char_eq in H; subst c; done.
Qed.

Lemma slash_char_facts :
  in_scheme_chars slash = false /\ is_char ":" slash = false /\
  is_netloc_delim slash = true.
Proof. done. Qed.

Lemma break_at_app_led f x t :
  match t with [] => True | c :: _ => f c = true end ->
  break_at f (x ++ t) = ((break_at f x).1, (break_at f x).2 ++ t).
Proof.
  intros Ht. induction x as [|c x IH]; simpl.
  - destruct t as [|d t]; [done|]. simpl. by rewrite Ht.
  - destruct (f c); [done|]. rewrite IH. by destruct (break_at f x).
Qed.

Lemma split_scheme_rest_suffix b :
  exists pre, b = pre ++ (split_scheme b).2.
Proof.
  destruct (split_scheme_cases b) as [(c & pre & post & Hb & _ & _ & E)|E]; rewrite E; simpl.
  - exists ((c :: pre) ++ [":"%char]). rewrite Hb, <- app_assoc. done.
  - by exists [].
Qed.

Lemma split_scheme_rest_Forall (P : ascii -> Prop) b :
  Forall P b -> Forall P (split_scheme b).2.
Proof.
  intros H. destruct (split_scheme_rest_suffix b) as [pre Hpre].
  rewrite Hpre in H. by apply Forall_app in H as [_ H].
Qed.

Lemma starts_with_slash2_led r t :
  match t with [] => True | c :: _ => is_char "/" c = false end ->
  starts_with (chars "//") (r ++ t) = starts_with (chars "//") r.
Proof.
  intros Ht. change (chars "//") with [slash; slash].
  destruct r as [|c1 [|c2 r]]; simpl.
  - destruct t as [|d t]; [done|]. rewrite starts_with_cons.
    unfold slash. by rewrite Ht.
  - rewrite !starts_with_cons. destruct t as [|d t]; [done|].
    rewrite starts_with_cons. unfold slash at 2. by rewrite Ht.
  - by rewrite !starts_with_cons, !starts_with_nil_l.
Qed.

Lemma split_netloc_app_qf r t :
  qf_led t ->
  split_netloc V (r ++ t) = do nu <- split_netloc V r; Ok (nu.1, nu.2 ++ t).
Proof.
  intros Ht. unfold split_netloc.
  rewrite starts_with_slash2_led.
  2:{ destruct t as [|d t]; [done|]. apply qf_char_facts in Ht. tauto. }
  destruct (starts_with (chars "//") r) eqn:E; [|done].
  apply starts_with_slash2 in E as [r' ->]. unfold _splitnetloc.
  change (drop 2 ((slash :: slash :: r') ++ t)) with (r' ++ t).
  change (drop 2 (slash :: slash :: r')) with r'.
  rewrite break_at_app_led.
  2:{ destruct t as [|d t]; [done|]. by apply qf_is_delim. }
  destruct (break_at is_netloc_delim r') as [a b2]. simpl.
  by destruct (bracket_checks V a).
Qed.

Lemma parse3_app_qf b t :
  qf_led t -> parse3 V (b ++ t) = parse3 V b.
Proof.
  intros Ht. unfold parse3. rewrite split_scheme_app.
  2:{ destruct t as [|d t]; [done|]. apply qf_char_facts in Ht. tauto. }
  simpl. rewrite split_netloc_app_qf by done.
  destruct (split_netloc V (split_scheme b).2) as [[nl r2]|e]; simpl; [|done].
  destruct (_checknetloc V nl); simpl; [|done].
  by rewrite break_at_app_led.
Qed.

Lemma unsplit3_rstrip sch nl p1 p2 :
  rstrip (is_char "/") p1 = rstrip (is_char "/") p2 ->
  unsplit3 (sch, nl, p1) = unsplit3 (sch, nl, p2).
Proof. intros H. rewrite !unsplit3_assemble. by rewrite H. Qed.

Lemma parse3_app_slash b :
  Forall (fun c => is_qf c = false) b ->
  (do t3 <- parse3 V (b ++ [slash]); Ok (unsplit3 t3)) =
  (do t3 <- parse3 V b; Ok (unsplit3 t3)).
Proof.
  intros Hb. unfold parse3. rewrite split_scheme_app by done.
  pose proof (split_scheme_rest_Forall _ b Hb) as Hr.
  destruct (split_scheme b) as [sch r]. simpl in *.
  destruct (starts_with (chars "//") r) eqn:E.
  - pose proof E as [r' ->]%starts_with_slash2.
    unfold split_netloc. rewrite (starts_with_slash2_app _ [slash] E), E.
    unfold _splitnetloc.
    change (drop 2 ((slash :: slash :: r') ++ [slash])) with (r' ++ [slash]).
    change (drop 2 (slash :: slash :: r')) with r'.
    rewrite break_at_app_led by done.
    destruct (break_at is_netloc_delim r') as [nl r2] eqn:Eb. simpl.
    destruct (bracket_checks V nl); simpl; [|done].
    destruct (_checknetloc V nl); simpl; [|done].
    f_equal. apply unsplit3_rstrip.
    assert (Forall (fun c => is_qf c = false) r2) as Hr2.
    { apply break_at_app in Eb. inversion Hr as [|? ? _ Hr']. inversion Hr' as [|? ? _ Hr''].
      rewrite Eb in Hr''. by apply Forall_app in Hr'' as [_ ?]. }
    rewrite (break_at_none is_qf r2 Hr2).
    rewrite (break_at_none is_qf (r2 ++ [slash])).
    + simpl. by apply rstrip_snoc.
    + apply Forall_app. split; [done|]. by constructor.
  - rewrite (split_netloc_none V r E). simpl.
    rewrite (break_at_none is_qf r Hr). simpl.
    assert (Forall (fun c => is_qf c = false) (r ++ [slash])) as Hrs.
    { apply Forall_app. split; [done|]. by constructor. }
    destruct (starts_with (chars "//") (r ++ [slash])) eqn:E'.
    + (* only when [r] is a single slash *)
      assert (r = [slash]) as ->.
      { apply starts_with_slash2 in E' as [r' Hr'].
        destruct r as [|c1 [|c2 r]]; [done| |].
        - by injection Hr' as -> _.
        - exfalso. injection Hr' as -> -> _.
          change (chars "//") with [slash; slash] in E.
          rewrite !starts_with_cons, starts_with_nil_l in E.
          unfold slash in E. by rewrite !is_char_refl in E. }
      reflexivity.
    + rewrite (split_netloc_none V _ E'). simpl.
      rewrite (break_at_none is_qf _ Hrs). simpl.
      f_equal. apply unsplit3_rstrip. by apply rstrip_snoc.
Qed.

End Suffixes.

Section SuffixTheorems.
Context (V : Validators).

Lemma chars_app (a b : string) : chars (a +:+ b) = chars a ++ chars b.
Proof.
  induction a as [|c a IH]; [done|].
  change (c :: chars (a +:+ b) = c :: chars a ++ chars b). by f_equal.
Qed.

Lemma rstrip_head_keep f d (T0 : list ascii) :
  f d = false -> exists T1, rstrip f (d :: T0) = d :: T1.
Proof.
  intros Hd. simpl. destruct (rstrip f T0) as [|x T1].
  - rewrite Hd. by exists [].
  - by exists (x :: T1).
Qed.

Lemma preprocess_suffix (B T : list ascii) :
  clean B -> qf_led T -> exists T', qf_led T' /\ preprocess (B ++ T) = B ++ T'.
Proof.
  intros HB HT. unfold preprocess.
  destruct T as [|d T0].
  - exists []. split; [done|]. rewrite app_nil_r.
    by rewrite (clean_strip _ HB), (clean_lstrip _ HB), (clean_filter _ HB).
  - simpl in HT. pose proof (qf_char_facts d HT) as (_ & _ & _ & Hsp & Hc0 & Hun).
    destruct (rstrip_head_keep isspace d T0 Hsp) as [T1 HT1].
    assert (strip (B ++ d :: T0) = B ++ d :: T1) as ->.
    { unfold strip. rewrite lstrip_head.
      - rewrite rstrip_app_keep; by rewrite HT1.
      - destruct HB as [|c B Hc _]; simpl; [done|].
        unfold url_char in Hc. apply andb_true_iff in Hc as [Hc _].
        by apply negb_true_iff in Hc. }
    rewrite lstrip_head.
    2:{ destruct HB as [|c B Hc _]; simpl; [done|].
        unfold url_char in Hc. apply andb_true_iff in Hc as [_ Hc].
        by apply negb_true_iff in Hc. }
    rewrite List.filter_app, (clean_filter _ HB). simpl. rewrite Hun. simpl.
    eexists. split; [|reflexivity]. done.
Qed.

Lemma query_or_fragment_suffix_led t :
  query_or_fragment_suffix t = true -> qf_led (chars t).
Proof. unfold query_or_fragment_suffix, qf_led. by destruct (chars t). Qed.

Lemma no_query_or_fragment_Forall u :
  no_query_or_fragment u = true -> Forall (fun c => is_qf c = false) (chars u).
Proof.
  unfold no_query_or_fragment. rewrite forallb_forall, Forall_forall.
  intros H c Hc. apply negb_true_iff, H. by apply list_elem_of_In.
Qed.

Lemma canonicalize_url_drops_suffix (b t : string) :
  no_space_or_control b = true ->
  query_or_fragment_suffix t = true ->
  canonicalize_url V (CStr (b +:+ t)) = canonicalize_url V (CStr b).
Proof.
  intros Hb%no_space_or_control_clean Ht%query_or_fragment_suffix_led.
  rewrite canonicalize_url_parse3, chars_app. fold (preprocess (chars b ++ chars t)).
  destruct (preprocess_suffix _ _ Hb Ht) as (T' & HT' & ->).
  rewrite parse3_app_qf by done. by rewrite canonicalize_url_clean.
Qed.

Lemma canonicalize_url_drops_slash (b : string) :
  no_space_or_control b = true ->
  no_query_or_fragment b = true ->
  canonicalize_url V (CStr (b +:+ "/")) = canonicalize_url V (CStr b).
Proof.
  intros Hb%no_space_or_control_clean Hq%no_query_or_fragment_Forall.
  rewrite !canonicalize_url_clean.
  - rewrite chars_app. change (chars "/") with [slash].
    pose proof (parse3_app_slash V (chars b) Hq) as H.
    destruct (parse3 V (chars b ++ [slash])), (parse3 V (chars b)); simpl in *; congruence.
  - done.
  - rewrite chars_app. apply Forall_app. split; [done|]. by repeat constructor.
Qed.

End SuffixTheorems.

Lemma string_app_assoc (a b c : string) : (a +:+ b) +:+ c = a +:+ b +:+ c.
Proof.
  induction a as [|x a IH]; [done|].
  change (String x ((a +:+ b) +:+ c) = String x (a +:+ b +:+ c)). by f_equal.
Qed.

(** C6, as amended. On a string free of white space and control
    characters, whose path does not begin with two slashes under an empty
    host, canonicalising twice gives what canonicalising once gives (the
    same string, or the same error); and appending a query string, a
    fragment or a trailing slash (followed or not by a query string or a
    fragment) to a string free of white space, control characters, [?] and
    [#] does not change its canonical form. The library validators are
    assumed to keep accepting a host once it is lower-cased. *)
Theorem canonicalize_url_idempotent_without_spaces
    (V : Validators) (u b t : string) :
  respects_lower V ->
  no_space_or_control u = true ->
  hostless_double_slash V u = false ->
  no_space_or_control b = true ->
  no_query_or_fragment b = true ->
  query_or_fragment_suffix t = true ->
  (do c <- canonicalize_url V (CStr u); canonicalize_url V (CStr c)) = canonicalize_url V (CStr u) /\
  canonicalize_url V (CStr (b +:+ t)) = canonicalize_url V (CStr b) /\
  canonicalize_url V (CStr (b +:+ "/" +:+ t)) = canonicalize_url V (CStr b).
Proof.
  intros HV Hu Hhost Hb Hq Ht. split; [|split].
  - by apply canonicalize_url_idempotent_clean.
  - by apply canonicalize_url_drops_suffix.
  - rewrite <- (canonicalize_url_drops_slash V b Hb Hq).
    rewrite <- string_app_assoc.
    apply canonicalize_url_drops_suffix; [|done].
    unfold no_space_or_control in *. rewrite chars_app, forallb_app, Hb. done.
Qed.


Lemma canonicalize_url_idempotent_without_spaces_witness :
  (do c <- canonicalize_url no_validation (CStr "HTTP://A.com/x/");
   canonicalize_url no_validation (CStr c))
  = canonicalize_url no_validation (CStr "HTTP://A.com/x/") /\
  canonicalize_url no_validation (CStr ("http://a.com/x" +:+ "?q=1#f"))
  = canonicalize_url no_validation (CStr "http://a.com/x") /\
  canonicalize_url no_validation (CStr ("http://a.com/x" +:+ "/" +:+ "?q=1#f"))
  = canonicalize_url no_validation (CStr "http://a.com/x").
Proof.
  apply (canonicalize_url_idempotent_without_spaces no_validation).
  - split; intros; reflexivity.
  - reflexivity.
  - reflexivity.
  - reflexivity.
  - reflexivity.
  - reflexivity.
Defined.

(** C6 as stated fails: with a space before the trailing slash the
    canonical form still ends in that space, and canonicalising it again
    strips it. *)
Lemma canonicalize_url_not_idempotent :
  canonicalize_url no_validation (CStr "http://a.com/x /") = Ok "http://a.com/x "%string /\
  canonicalize_url no_validation (CStr "http://a.com/x ") = Ok "http://a.com/x"%string /\
  (do c <- canonicalize_url no_validation (CStr "http://a.com/x /");
   canonicalize_url no_validation (CStr c))
  <> canonicalize_url no_validation (CStr "http://a.com/x /").
Proof. vm_compute. repeat split; discriminate. Qed.

(** ** Row-wise softmax *)

Section SoftmaxFacts.
Import Num Utils.
Local Open Scope R_scope.

Lemma fold_left_Rmax_ge_init (xs : list R) (x : R) : x <= fold_left Rmax xs x.
Proof.
  revert x. induction xs as [|y ys IH]; intros x; simpl.
  - lra.
  - etransitivity; [apply (Rmax_l x y)|apply IH].
Qed.

Lemma fold_left_Rmax_ge_elem (xs : list R) (x y : R) :
  In y xs -> y <= fold_left Rmax xs x.
Proof.
  revert x. induction xs as [|z zs IH]; intros x Hin; simpl in *.
  - contradiction.
  - destruct Hin as [->|Hin].
    + etransitivity; [apply (Rmax_r x y)|apply fold_left_Rmax_ge_init].
    + by apply IH.
Qed.

Lemma fold_left_Rmax_in (xs : list R) (x : R) :
  In (fold_left Rmax xs x) (x :: xs).
Proof.
  revert x. induction xs as [|y ys IH]; intros x; simpl.
  - by left.
  - destruct (IH (Rmax x y)) as [H|H].
    + unfold Rmax in H at 1. destruct (Rle_dec x y).
      * right. left. exact H.
      * left. exact H.
    + right. right. exact H.
Qed.

Lemma row_max_upper (row : list R) (m : R) :
  row_max row = Ok m -> Forall (fun x => x <= m) row.
Proof.
  destruct row as [|x xs]; simpl; intros H; [discriminate|].
  injection H as <-. apply Forall_forall. intros y Hy.
  apply list_elem_of_In in Hy. destruct Hy as [<-|Hy].
  - apply fold_left_Rmax_ge_init.
  - by apply fold_left_Rmax_ge_elem.
Qed.

Lemma row_max_member (row : list R) (m : R) :
  row_max row = Ok m -> In m row.
Proof.
  destruct row as [|x xs]; simpl; intros H; [discriminate|].
  injection H as <-. apply fold_left_Rmax_in.
Qed.

Lemma sum_R_nonneg (l : list R) : Forall (fun x => 0 <= x) l -> 0 <= sum_R l.
Proof.
  induction 1 as [|x l Hx _ IH]; simpl; lra.
Qed.

Lemma sum_R_ge_member (l : list R) (x : R) :
  Forall (fun y => 0 <= y) l -> In x l -> x <= sum_R l.
Proof.
  induction 1 as [|y l Hy Hl IH]; simpl; intros Hin; [contradiction|].
  destruct Hin as [->|Hin].
  - pose proof (sum_R_nonneg l Hl). lra.
  - specialize (IH Hin). lra.
Qed.

Lemma sum_R_map_div (l : list R) (d : R) :
  sum_R (map (fun e => e / d) l) = sum_R l / d.
Proof.
  induction l as [|x l IH]; simpl.
  - unfold Rdiv. lra.
  - rewrite IH. unfold Rdiv. lra.
Qed.

Lemma ln_2_pos : 0 < ln 2.
Proof. rewrite <- ln_1. apply ln_increasing; lra. Qed.

Lemma ln_2_upper : ln 2 < 0.93.
Proof.
  assert (1 + 0.465 < exp 0.465) as H by (apply exp_ineq1; lra).
  assert (2 < exp 0.93) as H2.
  { replace 0.93 with (0.465 + 0.465) by lra. rewrite exp_plus. nra. }
  rewrite <- (ln_exp 0.93). apply ln_increasing; lra.
Qed.

Lemma EXP_UNDERFLOW_neg : EXP_UNDERFLOW < 0.
Proof. unfold EXP_UNDERFLOW. pose proof ln_2_pos. lra. Qed.

Lemma np_exp_nonneg (x : R) : 0 <= np_exp x.
Proof.
  unfold np_exp. destruct (Rle_dec x EXP_UNDERFLOW); [lra|].
  left. apply exp_pos.
Qed.

Lemma np_exp_0 : np_exp 0 = 1.
Proof.
  unfold np_exp. pose proof EXP_UNDERFLOW_neg.
  destruct (Rle_dec 0 EXP_UNDERFLOW); [lra|apply exp_0].
Qed.

Lemma np_exp_zero_iff (x : R) : np_exp x = 0 <-> x <= EXP_UNDERFLOW.
Proof.
  unfold np_exp. destruct (Rle_dec x EXP_UNDERFLOW) as [H|H]; split; try done.
  pose proof (exp_pos x). lra.
Qed.

Lemma np_exp_pos (x : R) : -537 <= x -> 0 < np_exp x.
Proof.
  intros Hx. unfold np_exp, EXP_UNDERFLOW. pose proof ln_lt_2.
  destruct (Rle_dec x (-1075 * ln 2)); [lra|apply exp_pos].
Qed.

Lemma np_exp_monotone (x y : R) : x <= y -> np_exp x <= np_exp y.
Proof.
  intros Hxy. unfold np_exp.
  destruct (Rle_dec x EXP_UNDERFLOW), (Rle_dec y EXP_UNDERFLOW); try lra.
  - left. apply exp_pos.
  - destruct (Rle_lt_or_eq_dec _ _ Hxy) as [Hlt| ->]; [|lra].
    left. by apply exp_increasing.
Qed.

Lemma exp_shifted_nonneg (m : R) (row : list R) :
  Forall (fun e => 0 <= e) (exp_shifted m row).
Proof.
  apply Forall_forall. intros e He. apply list_elem_of_In in He.
  apply in_map_iff in He as (x & <- & _). apply np_exp_nonneg.
Qed.

Lemma exp_shifted_sum_ge_1 (m : R) (row : list R) :
  In m row -> 1 <= sum_R (exp_shifted m row).
Proof.
  intros Hin. apply (sum_R_ge_member (exp_shifted m row) 1).
  - apply exp_shifted_nonneg.
  - apply in_map_iff. exists m. split; [|done].
    replace (m - m) with 0 by lra. apply np_exp_0.
Qed.

Lemma row_divisor_lower (exp_vals : list R) : 1e-12 <= row_divisor exp_vals.
Proof. unfold row_divisor, clip_min. apply Rmax_l. Qed.

Lemma row_divisor_unclipped (m : R) (row : list R) :
  In m row -> row_divisor (exp_shifted m row) = sum_R (exp_shifted m row).
Proof.
  intros Hin. pose proof (exp_shifted_sum_ge_1 m row Hin).
  unfold row_divisor, clip_min. apply Rmax_right. lra.
Qed.

(** What [softmax_row] returns on a row with at least one entry. *)
Lemma softmax_row_spec (row : list R) :
  row <> [] ->
  exists m out,
    row_max row = Ok m /\ softmax_row row = Ok out /\
    out = map (fun e => e / row_divisor (exp_shifted m row)) (exp_shifted m row) /\
    length out = length row /\
    Forall (fun p => 0 <= p <= 1) out /\ sum_R out = 1.
Proof.
  intros Hne. destruct row as [|x xs]; [done|].
  set (row := x :: xs) in *.
  destruct (row_max row) as [m|] eqn:Hm; [|discriminate].
  pose proof (row_max_member row m Hm) as Hin.
  pose proof (exp_shifted_sum_ge_1 m row Hin) as Hsum.
  pose proof (row_divisor_unclipped m row Hin) as Hdiv.
  exists m, (map (fun e => e / row_divisor (exp_shifted m row)) (exp_shifted m row)).
  split; [done|]. split; [unfold softmax_row; by rewrite Hm|].
  split; [done|]. split.
  { unfold exp_shifted. by rewrite !length_map. }
  split.
  - rewrite Hdiv. apply Forall_forall. intros p Hp.
    apply list_elem_of_In in Hp. apply in_map_iff in Hp as (e & <- & He).
    assert (0 <= e) as Hpos.
    { pose proof (exp_shifted_nonneg m row) as Hall.
      rewrite Forall_forall in Hall. apply Hall. by apply list_elem_of_In. }
    assert (e <= sum_R (exp_shifted m row)) as Hle.
    { apply sum_R_ge_member; [|done]. apply exp_shifted_nonneg. }
    split.
    + apply Rmult_le_pos; [done|]. left. apply Rinv_0_lt_compat. lra.
    + apply (Rmult_le_reg_r (sum_R (exp_shifted m row))); [lra|].
      unfold Rdiv. rewrite Rmult_assoc, Rinv_l by lra. lra.
  - rewrite sum_R_map_div, Hdiv. field. lra.
Qed.

(** An entry of the result is 0 where [np.exp] underflows. *)
Lemma softmax_row_zero_entries (m : R) (row : list R) :
  Forall2 (fun x p => x - m <= EXP_UNDERFLOW -> p = 0) row
          (map (fun e => e / row_divisor (exp_shifted m row)) (exp_shifted m row)).
Proof.
  set (d := row_divisor (exp_shifted m row)). clearbody d.
  unfold exp_shifted. rewrite map_map.
  apply Forall2_fmap_r, Forall_Forall2_diag, Forall_forall. intros x _.
  cbv beta. intros H. apply np_exp_zero_iff in H. rewrite H. unfold Rdiv. lra.
Qed.

(** The entries at the row maximum are positive. *)
Lemma softmax_row_max_entries (m : R) (row : list R) :
  In m row ->
  Forall2 (fun x p => x = m -> 0 < p) row
          (map (fun e => e / row_divisor (exp_shifted m row)) (exp_shifted m row)).
Proof.
  intros Hin. pose proof (exp_shifted_sum_ge_1 m row Hin) as Hsum.
  rewrite (row_divisor_unclipped m row Hin).
  set (d := sum_R (exp_shifted m row)) in *. clearbody d.
  unfold exp_shifted. rewrite map_map.
  apply Forall2_fmap_r, Forall_Forall2_diag, Forall_forall. intros x _.
  cbv beta. intros ->. replace (m - m) with 0 by lra. rewrite np_exp_0.
  apply Rdiv_lt_0_compat; lra.
Qed.

End SoftmaxFacts.

Section ResultFacts.

Lemma mapR_Forall2 {A B : Type} (f : A -> result B) (P : A -> B -> Prop) (l : list A) :
  Forall (fun x => exists y, f x = Ok y /\ P x y) l ->
  exists ys, mapR f l = Ok ys /\ Forall2 P l ys.
Proof.
  induction 1 as [|x l (y & Hy & HP) _ (ys & Hys & HF)]; simpl.
  - exists []. by split.
  - exists (y :: ys). rewrite Hy, Hys. split; [done|]. by constructor.
Qed.

Lemma mapR_Ok_Forall2 {A B : Type} (f : A -> result B) (l : list A) (ys : list B) :
  mapR f l = Ok ys -> Forall2 (fun x y => f x = Ok y) l ys.
Proof.
  revert ys. induction l as [|x l IH]; simpl; intros ys H.
  - injection H as <-. constructor.
  - destruct (f x) as [y|e] eqn:Hx; simpl in H; [|done].
    destruct (mapR f l) as [ys'|e] eqn:Hl; simpl in H; [|done].
    injection H as <-. constructor; [done|]. by apply IH.
Qed.

Lemma index_Ok {A : Type} (l : list A) (i : nat) (x : A) :
  index l i = Ok x <-> l !! i = Some x.
Proof. unfold index. destruct (l !! i); split; congruence. Qed.

End ResultFacts.

Section SoftmaxTheorems.
Import Num Utils Models Serving.
Local Open Scope R_scope.

Lemma softmax_rows_spec (arr : list (list R)) :
  Forall (fun row => row <> []) arr ->
  exists out,
    softmax_rows arr = Ok out /\
    Forall2 (fun row orow =>
               exists m,
                 row_max row = Ok m /\
                 orow = map (fun e => e / row_divisor (exp_shifted m row))
                            (exp_shifted m row) /\
                 Forall (fun p => 0 <= p <= 1) orow /\ sum_R orow = 1) arr out.
Proof.
  intros Hne. apply mapR_Forall2. eapply Forall_impl; [exact Hne|].
  simpl. intros row Hrow.
  destruct (softmax_row_spec row Hrow) as (m & out & Hm & Hs & Hout & _ & Hpos & Hsum).
  exists out. split; [done|]. by exists m.
Qed.

(** C9, as amended. [softmax_rows] returns on every real matrix that has
    at least one column. The divisor of every row is at least 1, so the
    clip at 1e-12 never binds and nothing is divided by zero. Every entry
    of the result lies between 0 and 1; the entries at the maximum of
    their row are positive, and an entry that lies 1075 ln 2 (about
    745.13) or more below the maximum of its row is exactly 0, because
    [np.exp] underflows there. *)
Theorem softmax_rows_total_and_safe (arr : list (list R)) :
  Forall (fun row => row <> []) arr ->
  exists out,
    softmax_rows arr = Ok out /\
    Forall2 (fun row orow =>
               exists m,
                 row_max row = Ok m /\
                 1 <= row_divisor (exp_shifted m row) /\
                 row_divisor (exp_shifted m row) = sum_R (exp_shifted m row) /\
                 orow = map (fun e => e / row_divisor (exp_shifted m row))
                            (exp_shifted m row) /\
                 Forall (fun p => 0 <= p <= 1) orow /\
                 Forall2 (fun x p => x = m -> 0 < p) row orow /\
                 Forall2 (fun x p => x - m <= EXP_UNDERFLOW -> p = 0) row orow)
            arr out.
Proof.
  intros Hne. destruct (softmax_rows_spec arr Hne) as (out & Hout & HF).
  exists out. split; [done|]. eapply Forall2_impl; [exact HF|].
  simpl. intros row orow (m & Hm & Ho & Hpos & _). exists m.
  pose proof (row_max_member row m Hm) as Hin.
  pose proof (exp_shifted_sum_ge_1 m row Hin) as Hsum.
  pose proof (row_divisor_unclipped m row Hin) as Hdiv.
  split; [done|]. split; [lra|]. split; [done|]. split; [done|]. split; [done|].
  rewrite Ho. split.
  - by apply softmax_row_max_entries.
  - apply softmax_row_zero_entries.
Qed.

Lemma softmax_rows_total_and_safe_witness :
  exists out,
    softmax_rows [[0; -1000]; [3]] = Ok out /\
    Forall2 (fun row orow =>
               exists m,
                 row_max row = Ok m /\
                 1 <= row_divisor (exp_shifted m row) /\
                 row_divisor (exp_shifted m row) = sum_R (exp_shifted m row) /\
                 orow = map (fun e => e / row_divisor (exp_shifted m row))
                            (exp_shifted m row) /\
                 Forall (fun p => 0 <= p <= 1) orow /\
                 Forall2 (fun x p => x = m -> 0 < p) row orow /\
                 Forall2 (fun x p => x - m <= EXP_UNDERFLOW -> p = 0) row orow)
            [[0; -1000]; [3]] out.
Proof.
  apply (softmax_rows_total_and_safe [[0; -1000]; [3]]).
  repeat constructor; discriminate.
Defined.

(** C9 as stated fails twice. An entry 1000 below the maximum of its row
    comes out as exactly 0, not as a positive number; and on a matrix
    without columns the row maximum raises. *)
Lemma softmax_rows_underflow_and_empty_row :
  softmax_rows [[0; -1000]] = Ok [[1; 0]] /\
  softmax_rows [[]]
  = Raise (ValueError
             "zero-size array to reduction operation maximum which has no identity").
Proof.
  split; [|reflexivity].
  unfold softmax_rows, softmax_row. cbn [mapR row_max fold_left rbind].
  assert (Rmax 0 (-1000) = 0) as -> by (apply Rmax_left; lra).
  unfold exp_shifted. cbn [map].
  replace (0 - 0) with 0 by lra. replace (-1000 - 0) with (-1000) by lra.
  rewrite np_exp_0.
  assert (np_exp (-1000) = 0) as ->.
  { apply np_exp_zero_iff. unfold EXP_UNDERFLOW. pose proof ln_2_upper. lra. }
  unfold row_divisor, clip_min. cbn [sum_R fold_right].
  replace (1 + (0 + 0)) with 1 by lra.
  assert (Rmax 1e-12 1 = 1) as -> by (apply Rmax_right; lra).
  do 3 f_equal; [|f_equal]; field.
Qed.

(** C1. For a fitted role model whose pipeline yields at least one
    bucket per text, [predict] returns one row per raw row, and each
    returned row is non-negative and sums to 1 (exactly, in real
    arithmetic, hence within 1e-6). *)
Theorem role_predict_rows_are_distributions
    (self : RoleCompositionModel) (p : Pipeline) (X : list string) :
  pipeline self = Some p ->
  Forall (fun row => row <> []) (pipeline_predict p X) ->
  exists out,
    predict self X = Ok out /\
    length out = length (pipeline_predict p X) /\
    Forall (fun row =>
              Forall (fun v => 0 <= v) row /\
              sum_R row = 1 /\ Rabs (sum_R row - 1) <= 1e-6) out.
Proof.
  intros Hfit Hne. unfold predict. rewrite Hfit.
  destruct (softmax_rows_spec _ Hne) as (out & Hout & HF).
  exists out. split; [done|]. split.
  { symmetry. by eapply Forall2_length. }
  clear Hout. induction HF as [|row orow arr out (m & _ & _ & Hpos & Hsum) _ IH];
    constructor.
  - split; [|split].
    + eapply Forall_impl; [exact Hpos|]. simpl. intros; lra.
    + done.
    + rewrite Hsum. replace (1 - 1) with 0 by lra. rewrite Rabs_R0. lra.
  - apply IH. by inversion Hne.
Qed.

Lemma role_predict_rows_are_distributions_witness :
  exists out,
    predict Examples.two_bucket_model ["hiring"%string] = Ok out /\
    length out =
      length (pipeline_predict Examples.two_bucket_pipeline ["hiring"%string]) /\
    Forall (fun row =>
              Forall (fun v => 0 <= v) row /\
              sum_R row = 1 /\ Rabs (sum_R row - 1) <= 1e-6) out.
Proof.
  apply (role_predict_rows_are_distributions
           Examples.two_bucket_model Examples.two_bucket_pipeline).
  - reflexivity.
  - repeat constructor; discriminate.
Defined.

End SoftmaxTheorems.

(** ** The role distribution served by the facade *)

Section RoleDistribution.
Import Num Utils Models Serving.
Local Open Scope R_scope.

Lemma Rleb_true (x y : R) : x <= y -> Rleb x y = true.
Proof. intros H. unfold Rleb. by destruct (Rle_dec x y). Qed.

Lemma Rleb_false (x y : R) : y < x -> Rleb x y = false.
Proof. intros H. unfold Rleb. destruct (Rle_dec x y); [lra|done]. Qed.

Lemma Rltb_true (x y : R) : x < y -> Rltb x y = true.
Proof. intros H. unfold Rltb. by destruct (Rlt_dec x y). Qed.

Lemma Rltb_false (x y : R) : y <= x -> Rltb x y = false.
Proof. intros H. unfold Rltb. destruct (Rlt_dec x y); [lra|done]. Qed.

Lemma needs_softmax_distribution (probs : list R) :
  Forall (fun p => 0 <= p <= 1) probs -> sum_R probs = 1 ->
  needs_softmax probs = false.
Proof.
  intros Hpos Hsum. unfold needs_softmax. apply orb_false_iff. split.
  - apply not_true_iff_false. intros H. apply existsb_exists in H as (x & Hx & Hlt).
    rewrite Forall_forall in Hpos. apply list_elem_of_In, Hpos in Hx.
    rewrite Rltb_false in Hlt by lra. done.
  - apply negb_false_iff. unfold isclose. apply Rleb_true.
    rewrite Hsum. replace (1 - 1) with 0 by lra. rewrite Rabs_R0, Rabs_R1. lra.
Qed.

Lemma bucket_pairs_from (probs : list R) (buckets : list string) (k : nat) :
  (k + length buckets <= length probs)%nat ->
  mapR (fun ib : nat * string => do p <- index probs (fst ib); Ok (snd ib, p))
       (imap (fun idx bucket => ((k + idx)%nat, bucket)) buckets)
  = Ok (zip buckets (drop k probs)).
Proof.
  revert k. induction buckets as [|b bs IH]; intros k Hlen; simpl; [done|].
  simpl in Hlen.
  destruct (lookup_lt_is_Some_2 probs k) as [q Hq]; [lia|].
  rewrite Nat.add_0_r. unfold index at 1. rewrite Hq. simpl.
  rewrite (imap_ext _ (fun idx bucket => ((S k + idx)%nat, bucket))).
  2:{ intros i x _. simpl. f_equal. lia. }
  rewrite IH by lia. simpl.
  rewrite (drop_S _ _ _ Hq). done.
Qed.

Lemma bucket_pairs (probs : list R) (buckets : list string) :
  (length buckets <= length probs)%nat ->
  mapR (fun ib : nat * string => do p <- index probs (fst ib); Ok (snd ib, p))
       (imap (fun idx bucket => (idx, bucket)) buckets)
  = Ok (zip buckets probs).
Proof. intros H. by apply (bucket_pairs_from probs buckets 0). Qed.

(** What the facade serves for a fitted role model that yields one
    non-empty raw row with a column for every bucket. *)
Lemma role_distribution_spec
    (self : Predictor) (p : Pipeline) (text : string) (raw : list R) :
  pipeline (role_model self) = Some p ->
  pipeline_predict p [text] = [raw] ->
  raw <> [] ->
  (length (role_buckets self) <= length raw)%nat ->
  exists probs,
    softmax_row raw = Ok probs /\
    predict_raw (role_model self) [text] = Ok [raw] /\
    predict (role_model self) [text] = Ok [probs] /\
    needs_softmax probs = false /\
    _role_distribution self text =
      Ok (PyDict.of_pairs (zip (role_buckets self) probs)).
Proof.
  intros Hfit Hraw Hne Hlen.
  destruct (softmax_row_spec raw Hne) as (m & probs & Hm & Hs & Hprobs & Hl & Hpos & Hsum).
  exists probs.
  assert (predict (role_model self) [text] = Ok [probs]) as Hpred.
  { unfold predict. rewrite Hfit, Hraw. unfold softmax_rows, mapR. by rewrite Hs. }
  pose proof (needs_softmax_distribution probs Hpos Hsum) as Hpass.
  repeat split; try done.
  - unfold predict_raw. by rewrite Hfit, Hraw.
  - unfold _role_distribution. rewrite Hpred. simpl. rewrite app_nil_r, Hpass.
    simpl. rewrite bucket_pairs by lia. done.
Qed.

(** C2, as amended. The role model always applies the row-wise softmax
    to its raw outputs; the facade then finds that normalised row
    non-negative with sum 1 and passes it through: the served distribution
    pairs every bucket with the softmax of the raw outputs. *)
Theorem role_distribution_is_softmax_of_raw
    (self : Predictor) (p : Pipeline) (text : string) (raw : list R) :
  pipeline (role_model self) = Some p ->
  pipeline_predict p [text] = [raw] ->
  raw <> [] ->
  (length (role_buckets self) <= length raw)%nat ->
  exists probs,
    softmax_row raw = Ok probs /\
    predict_raw (role_model self) [text] = Ok [raw] /\
    predict (role_model self) [text] = Ok [probs] /\
    needs_softmax probs = false /\
    _role_distribution self text =
      Ok (PyDict.of_pairs (zip (role_buckets self) probs)).
Proof. apply role_distribution_spec. Qed.

Lemma role_distribution_is_softmax_of_raw_witness :
  exists probs,
    softmax_row [1; 0] = Ok probs /\
    predict_raw (role_model Examples.demo_predictor) ["hiring"%string] = Ok [[1; 0]] /\
    predict (role_model Examples.demo_predictor) ["hiring"%string] = Ok [probs] /\
    needs_softmax probs = false /\
    _role_distribution Examples.demo_predictor "hiring" =
      Ok (PyDict.of_pairs (zip (role_buckets Examples.demo_predictor) probs)).
Proof.
  apply (role_distribution_is_softmax_of_raw Examples.demo_predictor
           Examples.two_bucket_pipeline "hiring" [1; 0]).
  - reflexivity.
  - reflexivity.
  - discriminate.
  - simpl. lia.
Defined.

(** C2 as stated fails: raw outputs that are already a distribution are
    not passed through, neither by the role model nor by the facade. *)
Lemma role_predict_changes_valid_raw_outputs :
  predict_raw Examples.two_bucket_model ["hiring"%string] = Ok [[1; 0]] /\
  Forall (fun v => 0 <= v) [1; 0] /\ sum_R [1; 0] = 1 /\
  needs_softmax [1; 0] = false /\
  predict Examples.two_bucket_model ["hiring"%string] <> Ok [[1; 0]] /\
  _role_distribution Examples.demo_predictor "hiring" <>
    Ok [("Founder/Executive"%string, 1); ("Recruiter/HR"%string, 0)].
Proof.
  destruct (role_distribution_spec Examples.demo_predictor
              Examples.two_bucket_pipeline "hiring" [1; 0])
    as (probs & Hs & Hraw & Hpred & _ & Hdist);
    [reflexivity|reflexivity|discriminate|simpl; lia|].
  destruct (softmax_row_spec [1; 0]) as (m & out & Hm & Hs' & Hout & Hlen & _ & _);
    [discriminate|].
  rewrite Hs in Hs'. injection Hs' as <-.
  destruct probs as [|a [|b [|c probs]]]; try discriminate.
  assert (0 < b) as Hb.
  { assert (m = 1) as -> by (simpl in Hm; injection Hm as <-; apply Rmax_left; lra).
    rewrite (row_divisor_unclipped 1 [1; 0]) in Hout by (by left).
    injection Hout as _ ->. apply Rdiv_lt_0_compat.
    - apply np_exp_pos. lra.
    - pose proof (np_exp_pos (1 - 1) ltac:(lra)).
      pose proof (np_exp_pos (0 - 1) ltac:(lra)). lra. }
  split; [done|]. split; [repeat constructor; lra|]. split; [simpl; lra|].
  split; [|split].
  - unfold needs_softmax. simpl.
    rewrite !Rltb_false by lra. simpl.
    apply negb_false_iff. unfold isclose. apply Rleb_true.
    replace (1 + (0 + 0) - 1) with 0 by lra. rewrite Rabs_R0, Rabs_R1. lra.
  - change (predict Examples.two_bucket_model ["hiring"%string])
      with (predict (role_model Examples.demo_predictor) ["hiring"%string]).
    rewrite Hpred. intros [= -> ->]. lra.
  - rewrite Hdist. intros [= _ ->]. lra.
Qed.

End RoleDistribution.

(** ** Narrative probabilities and flags *)

Section Narratives.
Import Num Utils Models Serving ServingSpec.
Local Open Scope R_scope.

Lemma expit_range (z : R) : 0 < expit z < 1.
Proof.
  unfold expit. pose proof (exp_pos (- z)) as He.
  split.
  - apply Rdiv_lt_0_compat; lra.
  - apply (Rmult_lt_reg_r (1 + exp (- z))); [lra|].
    unfold Rdiv. rewrite Rmult_assoc, Rinv_l by lra. lra.
Qed.

Lemma positive_proba_range (row : list (nat * R)) (e : BinaryEstimator) :
  0 <= positive_proba row e <= 1.
Proof.
  destruct e as [coef intercept|[]]; simpl; [|lra|lra].
  pose proof (expit_range (decision coef intercept row)). lra.
Qed.

Lemma narrative_predict_proba_range (m : NarrativeModel) (X : list string) :
  Forall (Forall (fun p => 0 <= p <= 1)) (narrative_predict_proba m X).
Proof.
  unfold narrative_predict_proba. apply Forall_map, Forall_forall. intros text _.
  simpl.
  assert (Forall (fun p => 0 <= p <= 1)
            (map (positive_proba (transform (nm_tfidf m) text)) (nm_estimators m))) as HY.
  { apply Forall_map, Forall_forall. intros e _. apply positive_proba_range. }
  destruct (nm_estimators m) as [|e [|e' ests]]; try done.
  apply Forall_app. split; [|done].
  apply Forall_map. eapply Forall_impl; [exact HY|]. simpl. intros; lra.
Qed.

Lemma narrative_predict_proba_width (m : NarrativeModel) (X : list string) :
  Forall (fun row => length row = proba_width m) (narrative_predict_proba m X).
Proof.
  unfold narrative_predict_proba, proba_width. apply Forall_map, Forall_forall.
  intros text _. simpl.
  destruct (nm_estimators m) as [|e [|e' ests]]; simpl; try done.
  by rewrite !length_map.
Qed.

Lemma narratives_loop_entries (row : list R) (labels : list string) :
  forall idx acc results,
    narratives_loop row idx labels acc = Ok results ->
    (forall l e, acc !! l = Some e -> entry_ok row e) ->
    forall l e, results !! l = Some e -> entry_ok row e.
Proof.
  induction labels as [|label rest IH]; simpl; intros idx acc results H Hacc l e Hl.
  - injection H as <-. by eapply Hacc.
  - destruct (index row idx) as [p|] eqn:Hp; simpl in H; [|done].
    eapply IH; [exact H| |exact Hl].
    intros l' e' Hl'. destruct (decide (label = l')) as [->|Hne].
    + rewrite lookup_insert_eq in Hl'. injection Hl' as <-. split; [|done].
      simpl. apply index_Ok in Hp. apply list_elem_of_In. by eapply list_elem_of_lookup_2.
    + rewrite lookup_insert_ne in Hl' by done. by eapply Hacc.
Qed.

Lemma narratives_loop_total (row : list R) (labels : list string) :
  forall idx acc,
    (idx + length labels <= length row)%nat ->
    exists results, narratives_loop row idx labels acc = Ok results.
Proof.
  induction labels as [|label rest IH]; simpl; intros idx acc Hlen.
  - by eexists.
  - destruct (lookup_lt_is_Some_2 row idx) as [p Hp]; [lia|].
    unfold index. rewrite Hp. simpl. apply IH. lia.
Qed.

Lemma narratives_entries (self : Predictor) (text : string)
    (results : gmap string NarrativeEntry) (label : string) (e : NarrativeEntry) :
  _narratives self text = Ok results ->
  results !! label = Some e ->
  0 <= prob e <= 1 /\ flag e = Rleb 0.10 (prob e).
Proof.
  unfold _narratives. intros H Hl.
  destruct (index _ 0) as [row|] eqn:Hrow; simpl in H; [|done].
  destruct (narratives_loop_entries row _ 0 ∅ results H) with (l := label) (e := e)
    as [Hin Hflag]; [by intros l' e'; rewrite lookup_empty|done|].
  split; [|done].
  pose proof (narrative_predict_proba_range (narrative_model self) [text]) as Hr.
  apply index_Ok in Hrow. rewrite Forall_forall in Hr.
  specialize (Hr row (list_elem_of_lookup_2 _ _ _ Hrow)).
  rewrite Forall_forall in Hr. apply Hr. by apply list_elem_of_In.
Qed.

Lemma Rleb_spec (x y : R) : Rleb x y = true <-> x <= y.
Proof. unfold Rleb. destruct (Rle_dec x y); split; (done || lra || intros; done). Qed.

Lemma narratives_total (self : Predictor) (text : string) :
  (length (narrative_labels self) <= proba_width (narrative_model self))%nat ->
  exists results, _narratives self text = Ok results.
Proof.
  intros Hlen. unfold _narratives.
  pose proof (narrative_predict_proba_width (narrative_model self) [text]) as Hw.
  destruct (narrative_predict_proba (narrative_model self) [text]) as [|row rows] eqn:E.
  { unfold narrative_predict_proba in E. discriminate. }
  simpl. apply narratives_loop_total. inversion Hw as [|? ? Hrow _]. lia.
Qed.

Lemma narratives_loop_keys (row : list R) (labels : list string) :
  forall idx acc results,
    narratives_loop row idx labels acc = Ok results ->
    forall l, (In l labels \/ is_Some (acc !! l)) -> is_Some (results !! l).
Proof.
  induction labels as [|label rest IH]; simpl; intros idx acc results H l Hl.
  - injection H as <-. by destruct Hl.
  - destruct (index row idx) as [p|] eqn:Hp; simpl in H; [|done].
    eapply IH; [exact H|].
    destruct Hl as [[->|Hin]|Hacc]; [right|by left|right].
    + rewrite lookup_insert_eq. by eexists.
    + destruct (decide (label = l)) as [->|Hne].
      * rewrite lookup_insert_eq. by eexists.
      * by rewrite lookup_insert_ne.
Qed.

(** C8, as amended. Serving: the call returns when the model has a
    column for every label; every label then has an entry, every returned
    probability lies in [0,1] and its flag is the comparison of that
    probability with the constant 0.10, whatever [narrative_threshold] the
    metadata carries: the serving threshold is not configurable. Offline:
    the decisions are the comparison with the threshold passed in, which
    [train_all] sets to 0.5, independently of the serving constant. *)
Theorem narrative_flags_follow_thresholds
    (self : Predictor) (text : string)
    (model : NarrativeModel) (X_test : list string) (threshold thr : R) :
  (length (narrative_labels self) <= proba_width (narrative_model self))%nat ->
  (exists results,
      _narratives self text = Ok results /\
      (forall label, In label (narrative_labels self) -> is_Some (results !! label)) /\
      (forall label e, results !! label = Some e ->
          0 <= prob e <= 1 /\ (flag e = true <-> 0.10 <= prob e))) /\
  _narratives (with_narrative_threshold self thr) text = _narratives self text /\
  Forall2 (Forall2 (fun p d => (0 <= p <= 1) /\ (d = 1%Z <-> threshold <= p) /\
                               (d = 0%Z <-> p < threshold)))
          (narrative_predict_proba model X_test)
          (Evaluate.narrative_y_pred model X_test threshold) /\
  TrainAll.main_narrative_y_pred model X_test =
    Evaluate.narrative_y_pred model X_test 0.5.
Proof.
  intros Hlen. split; [|split; [done|split; [|done]]].
  - destruct (narratives_total self text Hlen) as [results Hres].
    exists results. split; [done|]. split.
    + intros label Hin. unfold _narratives in Hres.
      destruct (index _ 0) as [row|] eqn:Hrow; simpl in Hres; [|done].
      eapply narratives_loop_keys; [exact Hres|]. by left.
    + intros label e Hl.
      destruct (narratives_entries self text results label e Hres Hl) as [Hrange Hflag].
      split; [done|]. rewrite Hflag. apply Rleb_spec.
  - unfold Evaluate.narrative_y_pred.
    pose proof (narrative_predict_proba_range model X_test) as Hr.
    induction Hr as [|row rows Hrow _ IH]; simpl; constructor; [|exact IH].
    induction Hrow as [|p ps Hp _ IH']; simpl; constructor; [|exact IH'].
    split; [done|]. unfold Rleb. destruct (Rle_dec threshold p); split; split;
      intros; (done || lra).
Qed.

Lemma narrative_flags_follow_thresholds_witness :
  (exists results,
      _narratives Examples.demo_predictor "layoffs" = Ok results /\
      (forall label, In label (narrative_labels Examples.demo_predictor) ->
                     is_Some (results !! label)) /\
      (forall label e, results !! label = Some e ->
          0 <= prob e <= 1 /\ (flag e = true <-> 0.10 <= prob e))) /\
  _narratives (with_narrative_threshold Examples.demo_predictor 0.9) "layoffs" =
    _narratives Examples.demo_predictor "layoffs" /\
  Forall2 (Forall2 (fun p d => (0 <= p <= 1) /\ (d = 1%Z <-> 0.5 <= p) /\
                               (d = 0%Z <-> p < 0.5)))
          (narrative_predict_proba Examples.demo_narrative_model ["layoffs"%string])
          (Evaluate.narrative_y_pred Examples.demo_narrative_model
             ["layoffs"%string] 0.5) /\
  TrainAll.main_narrative_y_pred Examples.demo_narrative_model ["layoffs"%string] =
    Evaluate.narrative_y_pred Examples.demo_narrative_model ["layoffs"%string] 0.5.
Proof.
  apply (narrative_flags_follow_thresholds Examples.demo_predictor "layoffs"
           Examples.demo_narrative_model ["layoffs"%string] 0.5 0.9).
  vm_compute. lia.
Defined.

(** C8 as stated fails: the serving threshold cannot be configured. The
    metadata of this predictor set [narrative_threshold] to 0.5; a label
    whose probability is 1 / (1 + e), below 0.5, is flagged all the same,
    because the flag is the comparison with the constant 0.10. *)
Lemma serving_threshold_is_not_configurable :
  exists results e,
    _narratives Examples.lukewarm_predictor "layoffs" = Ok results /\
    results !! "toxic_culture"%string = Some e /\
    prob e < narrative_threshold Examples.lukewarm_predictor /\
    flag e = true /\
    flag e <> Rleb (narrative_threshold Examples.lukewarm_predictor) (prob e).
Proof.
  assert (expit (-1) = 1 / (1 + exp 1)) as Hexpit.
  { unfold expit. by replace (- -1) with 1 by lra. }
  assert (2 < exp 1) as He2 by (pose proof (exp_ineq1 1); lra).
  pose proof exp_le_3 as He3.
  assert (0.10 <= expit (-1) < 0.5) as [Hlo Hhi].
  { rewrite Hexpit. split.
    - apply (Rmult_le_reg_r (1 + exp 1)); [lra|].
      unfold Rdiv. rewrite Rmult_assoc, Rinv_l by lra. lra.
    - apply (Rmult_lt_reg_r (1 + exp 1)); [lra|].
      unfold Rdiv. rewrite Rmult_assoc, Rinv_l by lra. lra. }
  assert (decision [-1] 0 [(0%nat, 1)] = -1) as Hdec.
  { unfold decision. simpl. lra. }
  eexists _, {| prob := expit (-1); flag := Rleb 0.10 (expit (-1)) |}.
  split; [reflexivity|]. split.
  - rewrite !lookup_insert_ne by done. rewrite lookup_insert_eq.
    change (transform (nm_tfidf (narrative_model Examples.lukewarm_predictor))
              "layoffs") with [(0%nat, 1)].
    cbn [positive_proba]. by rewrite Hdec.
  - cbn [prob flag narrative_threshold Examples.lukewarm_predictor].
    split; [lra|]. rewrite (proj2 (Rleb_spec _ _) Hlo). split; [done|].
    unfold Rleb. destruct (Rle_dec 0.5 (expit (-1))); [lra|done].
Qed.

End Narratives.

(** ** The rule-based risk class and the risk probability map *)

Section Risk.
Import PyStr Num Utils Models Explain Serving ServingSpec.
Local Open Scope R_scope.

Context {NP : ArgSort}.

Lemma analyze_inv (self : Predictor) (request : AnalyzeRequest) (resp : AnalyzeResponse) :
  analyze self request = Ok resp ->
  exists narratives role_dist pm pred risk_top,
    _narratives self (analyzed_text request) = Ok narratives /\
    _role_distribution self (analyzed_text request) = Ok role_dist /\
    _risk_model_preds self (analyzed_text request) = Ok (pm, pred) /\
    _risk_top_ngrams self (analyzed_text request) = Ok risk_top /\
    role_distribution_all resp =
      map (fun kv => (fst kv, py_round (snd kv * 100) 4)) role_dist /\
    risk_class resp = _risk_rule_based narratives /\
    risk_probs resp = pm /\
    narrative_flags resp = flag <$> narratives /\
    narrative_probs resp = prob <$> narratives /\
    risk_top_ngrams resp = risk_top.
Proof.
  unfold analyze. fold (analyzed_text request).
  destruct (negb _); [done|].
  destruct (_narratives self _) as [narratives|] eqn:Hn; simpl; [|done].
  destruct (_role_distribution self _) as [role_dist|] eqn:Hr; simpl; [|done].
  destruct (_risk_model_preds self _) as [[pm pred]|] eqn:Hp; simpl; [|done].
  destruct (_risk_top_ngrams self _) as [risk_top|] eqn:Ht; simpl; [|done].
  intros [= <-]. exists narratives, role_dist, pm, pred, risk_top. done.
Qed.

Lemma analyze_intro (self : Predictor) (request : AnalyzeRequest)
    narratives role_dist pm pred risk_top :
  nonempty (chars (analyzed_text request)) = true ->
  _narratives self (analyzed_text request) = Ok narratives ->
  _role_distribution self (analyzed_text request) = Ok role_dist ->
  _risk_model_preds self (analyzed_text request) = Ok (pm, pred) ->
  _risk_top_ngrams self (analyzed_text request) = Ok risk_top ->
  exists resp, analyze self request = Ok resp /\ risk_top_ngrams resp = risk_top.
Proof.
  intros Hne Hn Hr Hp Ht. unfold analyze. fold (analyzed_text request).
  rewrite Hne, Hn, Hr, Hp, Ht. simpl. by eexists.
Qed.

Lemma flagged_flag_set (narratives : gmap string NarrativeEntry) (lbl : string) :
  flagged narratives lbl = flag_set (flag <$> narratives) lbl.
Proof.
  unfold flagged, flag_set. rewrite lookup_fmap. by destruct (narratives !! lbl).
Qed.

Lemma risk_rule_cases (narratives : gmap string NarrativeEntry) :
  let f := flagged narratives in
  ((f "toxic_culture" = true \/ f "elitism" = true \/
    f "credibility_overclaim" = true \/ f "culture_misalignment" = true) ->
   _risk_rule_based narratives = "Harmful"%string) /\
  (f "toxic_culture" = false -> f "elitism" = false ->
   f "credibility_overclaim" = false -> f "culture_misalignment" = false ->
   f "burnout" = true -> _risk_rule_based narratives = "Harmless"%string) /\
  (f "toxic_culture" = false -> f "elitism" = false ->
   f "credibility_overclaim" = false -> f "culture_misalignment" = false ->
   f "burnout" = false -> _risk_rule_based narratives = "Helpful"%string).
Proof.
  unfold _risk_rule_based, harmful_labels. simpl.
  destruct (flagged narratives "toxic_culture"), (flagged narratives "elitism"),
    (flagged narratives "credibility_overclaim"),
    (flagged narratives "culture_misalignment"),
    (flagged narratives "burnout"); simpl; intuition congruence.
Qed.

(** C3. The rule-based class is one of the three classes and follows
    the fixed priority over the narrative flags; it is the same for any
    two sets of narratives with the same five flags; and in a response of
    [analyze] it is that function of the returned flags, unchanged when
    the statistical risk model is replaced by any other. *)
Theorem risk_rule_based_is_determined_by_flags
    (narratives : gmap string NarrativeEntry) :
  let f := flagged narratives in
  In (_risk_rule_based narratives) ["Helpful"; "Harmless"; "Harmful"]%string /\
  ((f "toxic_culture" = true \/ f "elitism" = true \/
    f "credibility_overclaim" = true \/ f "culture_misalignment" = true) ->
   _risk_rule_based narratives = "Harmful"%string) /\
  (f "toxic_culture" = false -> f "elitism" = false ->
   f "credibility_overclaim" = false -> f "culture_misalignment" = false ->
   f "burnout" = true -> _risk_rule_based narratives = "Harmless"%string) /\
  (f "toxic_culture" = false -> f "elitism" = false ->
   f "credibility_overclaim" = false -> f "culture_misalignment" = false ->
   f "burnout" = false -> _risk_rule_based narratives = "Helpful"%string) /\
  (forall narratives',
      (forall lbl, In lbl ("burnout"%string :: harmful_labels) ->
                   flagged narratives' lbl = flagged narratives lbl) ->
      _risk_rule_based narratives' = _risk_rule_based narratives) /\
  (forall self request resp,
      analyze self request = Ok resp ->
      _narratives self (analyzed_text request) = Ok narratives ->
      risk_class resp = _risk_rule_based narratives /\
      narrative_flags resp = flag <$> narratives /\
      forall rm resp',
        analyze (with_risk_model self rm) request = Ok resp' ->
        risk_class resp' = risk_class resp).
Proof.
  intros f. pose proof (risk_rule_cases narratives) as (H1 & H2 & H3).
  split; [|split; [done|split; [done|split; [done|split]]]].
  - unfold _risk_rule_based.
    destruct (existsb _ _); [|destruct (flagged narratives "burnout")];
      simpl; auto 10.
  - intros narratives' Hsame. unfold _risk_rule_based, harmful_labels. simpl.
    rewrite !Hsame by (simpl; auto 10). done.
  - intros self request resp Hresp Hn.
    destruct (analyze_inv _ _ _ Hresp)
      as (n & rd & pm & pred & rt & Hn' & _ & _ & _ & _ & Hclass & _ & Hflags & _).
    rewrite Hn in Hn'. injection Hn' as <-. split; [done|]. split; [done|].
    intros rm resp' Hresp'.
    destruct (analyze_inv _ _ _ Hresp')
      as (n' & rd' & pm' & pred' & rt' & Hn'' & _ & _ & _ & _ & Hclass' & _).
    change (_narratives (with_risk_model self rm) (analyzed_text request))
      with (_narratives self (analyzed_text request)) in Hn''.
    rewrite Hn in Hn''. injection Hn'' as <-. congruence.
Qed.

Lemma foldl_insert_lookup_notin {V : Type} (m : gmap string V)
    (l : list (string * V)) (c : string) :
  ~ In c l.*1 ->
  foldl (fun m cp => <[fst cp := snd cp]> m) m l !! c = m !! c.
Proof.
  revert m. induction l as [|[k v] l IH]; intros m Hc; simpl in *; [done|].
  rewrite IH by tauto. rewrite lookup_insert_ne; [done|]. intros ->. tauto.
Qed.

Lemma foldl_insert_lookup_is_Some {V : Type} (m : gmap string V)
    (l : list (string * V)) (c : string) :
  is_Some (m !! c) ->
  is_Some (foldl (fun m cp => <[fst cp := snd cp]> m) m l !! c).
Proof.
  revert m. induction l as [|[k v] l IH]; intros m Hc; simpl in *; [done|].
  apply IH. destruct (decide (k = c)) as [->|Hne].
  - rewrite lookup_insert_eq. by eexists.
  - by rewrite lookup_insert_ne.
Qed.

Lemma foldl_insert_lookup_in {V : Type} (m : gmap string V)
    (l : list (string * V)) (c : string) (v : V) :
  foldl (fun m cp => <[fst cp := snd cp]> m) m l !! c = Some v ->
  m !! c = Some v \/ In (c, v) l.
Proof.
  revert m. induction l as [|[k w] l IH]; intros m Hc; simpl in *; [by left|].
  destruct (IH _ Hc) as [H|H]; [|by right; right].
  destruct (decide (k = c)) as [->|Hne].
  - rewrite lookup_insert_eq in H. injection H as ->. right. by left.
  - rewrite lookup_insert_ne in H by done. by left.
Qed.

Lemma argmax_from_bound (l : list R) :
  forall best_i best i, (best_i < i)%nat ->
    (argmax_from best_i best i l < i + length l)%nat.
Proof.
  induction l as [|x l IH]; simpl; intros best_i best i Hi; [lia|].
  destruct (Rlt_dec best x).
  - specialize (IH i x (S i)). lia.
  - specialize (IH best_i best (S i)). lia.
Qed.

Lemma argmax_bound (l : list R) (i : nat) : argmax l = Ok i -> (i < length l)%nat.
Proof.
  destruct l as [|x l]; simpl; [done|]. intros [= <-].
  pose proof (argmax_from_bound l 0 x 1). lia.
Qed.

Lemma initial_prob_map_lookup (c : string) :
  In c expected_classes -> initial_prob_map !! c = Some 0.
Proof.
  unfold initial_prob_map, expected_classes. simpl.
  intros [<-|[<-|[<-|[]]]]; by simplify_map_eq.
Qed.

Lemma risk_model_preds_map (self : Predictor) (text : string)
    (pm : gmap string R) (pred : string) :
  _risk_model_preds self text = Ok (pm, pred) ->
  (forall c, In c expected_classes -> is_Some (pm !! c)) /\
  (forall c, In c expected_classes -> ~ In c (emitted self text).*1 ->
             pm !! c = Some 0) /\
  (forall c v, pm !! c = Some v ->
               (In c expected_classes /\ v = 0) \/ In (c, v) (emitted self text)).
Proof.
  unfold _risk_model_preds. fold initial_prob_map. fold (emitted self text).
  destruct (argmax _) as [i|]; simpl; [|done].
  destruct (match default expected_classes (rm_classes (risk_model self)) with
            | [] => _ | _ => _ end) as [p|]; simpl; [|done].
  intros [= <- <-]. split; [|split].
  - intros c Hc. apply foldl_insert_lookup_is_Some.
    rewrite initial_prob_map_lookup by done. by eexists.
  - intros c Hc Hno. rewrite foldl_insert_lookup_notin by done.
    by apply initial_prob_map_lookup.
  - intros c v Hv. apply foldl_insert_lookup_in in Hv as [Hv|Hv]; [left|by right].
    unfold initial_prob_map, expected_classes in *. simpl in *.
    destruct (decide (c = "Harmful"%string)) as [->|?];
      [rewrite lookup_insert_eq in Hv; injection Hv as <-; auto|].
    rewrite lookup_insert_ne in Hv by done.
    destruct (decide (c = "Harmless"%string)) as [->|?];
      [rewrite lookup_insert_eq in Hv; injection Hv as <-; auto|].
    rewrite lookup_insert_ne in Hv by done.
    destruct (decide (c = "Helpful"%string)) as [->|?];
      [rewrite lookup_insert_eq in Hv; injection Hv as <-; auto|].
    rewrite lookup_insert_ne in Hv by done. by rewrite lookup_empty in Hv.
Qed.

Lemma risk_model_preds_total (self : Predictor) (text : string) :
  rm_predict_proba (risk_model self) text <> [] ->
  (length (rm_predict_proba (risk_model self) text)
   <= length (default expected_classes (rm_classes (risk_model self))))%nat ->
  exists pm pred, _risk_model_preds self text = Ok (pm, pred).
Proof.
  intros Hne Hlen. unfold _risk_model_preds.
  destruct (argmax _) as [i|] eqn:Hi; simpl.
  - apply argmax_bound in Hi.
    destruct (default expected_classes (rm_classes (risk_model self))) as [|c cs] eqn:Hc.
    + simpl. by do 2 eexists.
    + destruct (lookup_lt_is_Some_2 (c :: cs) i) as [x Hx]; [lia|].
      unfold index. rewrite Hx. simpl. by do 2 eexists.
  - destruct (rm_predict_proba (risk_model self) text); [done|discriminate].
Qed.

(** C10. When the risk model reports at least one probability and no
    more probabilities than classes, the facade returns a probability map;
    whenever it returns one (also inside a response of [analyze]), the map
    has an entry for each of "Helpful", "Harmless" and "Harmful", and a
    class the model does not emit has probability 0. *)
Theorem risk_prob_map_has_all_classes (self : Predictor) (text : string) :
  rm_predict_proba (risk_model self) text <> [] ->
  (length (rm_predict_proba (risk_model self) text)
   <= length (default expected_classes (rm_classes (risk_model self))))%nat ->
  (exists pm pred,
      _risk_model_preds self text = Ok (pm, pred) /\
      (forall c, In c ["Helpful"; "Harmless"; "Harmful"]%string -> is_Some (pm !! c)) /\
      (forall c, In c ["Helpful"; "Harmless"; "Harmful"]%string ->
                 ~ In c (emitted self text).*1 -> pm !! c = Some 0)) /\
  (forall request resp,
      analyze self request = Ok resp ->
      (forall c, In c ["Helpful"; "Harmless"; "Harmful"]%string ->
                 is_Some (risk_probs resp !! c)) /\
      (forall c, In c ["Helpful"; "Harmless"; "Harmful"]%string ->
                 ~ In c (emitted self (analyzed_text request)).*1 ->
                 risk_probs resp !! c = Some 0)).
Proof.
  intros Hne Hlen. split.
  - destruct (risk_model_preds_total self text Hne Hlen) as (pm & pred & H).
    exists pm, pred. split; [done|].
    destruct (risk_model_preds_map self text pm pred H) as (H1 & H2 & _). done.
  - intros request resp Hresp.
    destruct (analyze_inv _ _ _ Hresp)
      as (n & rd & pm & pred & rt & _ & _ & Hp & _ & _ & _ & Hpm & _).
    rewrite Hpm.
    destruct (risk_model_preds_map _ _ pm pred Hp) as (H1 & H2 & _). done.
Qed.

End Risk.

Section RiskExamples.
Import PyStr Num Utils Models Explain Serving ServingSpec.
Local Open Scope R_scope.
(** The examples run the code with the stable sort. *)
Local Existing Instance stable_sort.

Lemma risk_rule_based_is_determined_by_flags_witness :
  _risk_rule_based
    {[ "elitism"%string := {| prob := 0.4; flag := true |};
       "burnout"%string := {| prob := 0.7; flag := true |} ]}
  = "Harmful"%string.
Proof.
  apply (risk_rule_based_is_determined_by_flags
           {[ "elitism"%string := {| prob := 0.4; flag := true |};
              "burnout"%string := {| prob := 0.7; flag := true |} ]}).
  right. left. reflexivity.
Defined.

Lemma risk_prob_map_has_all_classes_witness :
  (exists pm pred,
      _risk_model_preds Examples.demo_predictor "layoffs" = Ok (pm, pred) /\
      (forall c, In c ["Helpful"; "Harmless"; "Harmful"]%string -> is_Some (pm !! c)) /\
      (forall c, In c ["Helpful"; "Harmless"; "Harmful"]%string ->
                 ~ In c (emitted Examples.demo_predictor "layoffs").*1 ->
                 pm !! c = Some 0)) /\
  (forall request resp,
      analyze Examples.demo_predictor request = Ok resp ->
      (forall c, In c ["Helpful"; "Harmless"; "Harmful"]%string ->
                 is_Some (risk_probs resp !! c)) /\
      (forall c, In c ["Helpful"; "Harmless"; "Harmful"]%string ->
                 ~ In c (emitted Examples.demo_predictor (analyzed_text request)).*1 ->
                 risk_probs resp !! c = Some 0)).
Proof.
  apply (risk_prob_map_has_all_classes Examples.demo_predictor "layoffs").
  - discriminate.
  - simpl. lia.
Defined.

End RiskExamples.

(** ** Comparing a text with itself *)

Section PyDictFacts.
Import PyDict.
Context {V : Type}.
Implicit Types (d : pydict V) (k : string) (v : V).

Lemma eqb_refl_str k : String.eqb k k = true.
Proof. apply String.eqb_refl. Qed.

Lemma set_keys d k v :
  (set k v d).*1 = if bool_decide (k ∈ d.*1) then d.*1 else d.*1 ++ [k].
Proof.
  induction d as [|[k' v'] d IH]; simpl; [done|].
  destruct (String.eqb k k') eqn:E.
  - apply String.eqb_eq in E as ->. simpl.
    rewrite bool_decide_eq_true_2; [done|]. apply list_elem_of_here.
  - apply String.eqb_neq in E. rewrite !fmap_cons. simpl. rewrite IH.
    destruct (bool_decide (k ∈ d.*1)) eqn:Hin.
    + apply bool_decide_eq_true in Hin. rewrite bool_decide_eq_true_2; [done|].
      by apply list_elem_of_further.
    + apply bool_decide_eq_false in Hin. rewrite bool_decide_eq_false_2; [done|].
      intros [?|?]%elem_of_cons; simpl in *; [congruence|done].
Qed.

Lemma set_NoDup d k v : NoDup d.*1 -> NoDup (set k v d).*1.
Proof.
  intros Hd. rewrite set_keys. destruct (bool_decide (k ∈ d.*1)) eqn:Hin; [done|].
  apply bool_decide_eq_false in Hin. apply NoDup_app. split; [done|]. split.
  - intros x Hx Hk. apply list_elem_of_singleton in Hk as ->. done.
  - apply NoDup_singleton.
Qed.

Lemma set_Forall (P : string * V -> Prop) d k v :
  Forall P d -> P (k, v) -> Forall P (set k v d).
Proof.
  intros Hd Hkv. induction Hd as [|[k' v'] d Hx Hd IH]; simpl.
  - by constructor.
  - destruct (String.eqb k k'); by constructor.
Qed.

Lemma set_not_nil d k v : set k v d <> [].
Proof. destruct d as [|[k' v'] d]; simpl; [done|]. by destruct (String.eqb k k'). Qed.

Lemma get_set d k k' v :
  get k (set k' v d) = if String.eqb k k' then Some v else get k d.
Proof.
  induction d as [|[k0 v0] d IH]; simpl.
  - done.
  - destruct (String.eqb k' k0) eqn:E; simpl.
    + apply String.eqb_eq in E as ->. by destruct (String.eqb k k0).
    + destruct (String.eqb k k0) eqn:E0.
      * apply String.eqb_eq in E0 as ->.
        rewrite String.eqb_sym, E. done.
      * exact IH.
Qed.

Lemma get_In d k v : NoDup d.*1 -> In (k, v) d -> get k d = Some v.
Proof.
  induction d as [|[k0 v0] d IH]; simpl; intros Hd Hin; [done|].
  apply NoDup_cons in Hd as [Hk0 Hd].
  destruct Hin as [[= -> ->]|Hin].
  - by rewrite eqb_refl_str.
  - destruct (String.eqb k k0) eqn:E.
    + apply String.eqb_eq in E as ->. exfalso. apply Hk0.
      apply list_elem_of_In. apply in_map_iff. by exists (k0, v).
    + by apply IH.
Qed.

Lemma of_pairs_from (pairs : list (string * V)) d :
  NoDup d.*1 ->
  NoDup (foldl (fun d kv => set (fst kv) (snd kv) d) d pairs).*1.
Proof.
  revert d. induction pairs as [|[k v] pairs IH]; intros d Hd; simpl; [done|].
  apply IH. by apply set_NoDup.
Qed.

Lemma of_pairs_NoDup (pairs : list (string * V)) : NoDup (of_pairs pairs).*1.
Proof. apply of_pairs_from. constructor. Qed.

Lemma of_pairs_Forall (P : string * V -> Prop) (pairs : list (string * V)) :
  Forall P pairs -> Forall P (of_pairs pairs).
Proof.
  unfold of_pairs.
  assert (forall d, Forall P d -> Forall P pairs ->
            Forall P (foldl (fun d kv => set (fst kv) (snd kv) d) d pairs)) as H.
  { induction pairs as [|[k v] pairs IH]; intros d Hd Hp; simpl; [done|].
    inversion Hp as [|? ? Hkv Hrest]. apply IH; [|done]. by apply set_Forall. }
  intros Hp. apply H; [constructor|done].
Qed.

End PyDictFacts.

Section Compare.
Import PyStr Num Utils Models Explain Serving ServingSpec.
Local Open Scope R_scope.

Context {NP : ArgSort}.

Lemma Int_part_0 : Int_part 0 = 0%Z.
Proof.
  unfold Int_part. rewrite <- (up_tech 0 0 (Rle_refl 0) Rlt_0_1). done.
Qed.

Lemma round_half_even_0 : round_half_even 0 = 0%Z.
Proof.
  unfold round_half_even. rewrite Int_part_0.
  assert (frac_part 0 = 0) as ->.
  { unfold frac_part. rewrite Int_part_0. simpl. lra. }
  destruct (Rlt_dec 0 (1 / 2)); [done|lra].
Qed.

Lemma py_round_0 (ndigits : nat) : py_round 0 ndigits = 0.
Proof.
  unfold py_round. rewrite Rmult_0_l, round_half_even_0. unfold Rdiv.
  simpl. lra.
Qed.

Lemma py_round_diff (x : R) (ndigits : nat) : py_round (x - x) ndigits = 0.
Proof. replace (x - x) with 0 by lra. apply py_round_0. Qed.

Lemma first_pct_self (entries : list (string * R)) (k : string) (v : R) :
  NoDup entries.*1 -> In (k, v) entries -> first_pct k entries = v.
Proof.
  unfold first_pct.
  induction entries as [|[k0 v0] entries IH]; simpl; intros Hd Hin; [done|].
  apply NoDup_cons in Hd as [Hk0 Hd].
  destruct Hin as [[= -> ->]|Hin].
  - by rewrite String.eqb_refl.
  - destruct (String.eqb k0 k) eqn:E.
    + apply String.eqb_eq in E as ->. exfalso. apply Hk0.
      apply list_elem_of_In. apply in_map_iff. by exists (k, v).
    + by apply IH.
Qed.

Lemma insert_desc_Permutation {A : Type} (key : A -> R) (x : A) (l : list A) :
  insert_desc key x l ≡ₚ x :: l.
Proof.
  induction l as [|y l IH]; simpl; [done|].
  destruct (Rle_dec (key y) (key x)); [done|].
  rewrite IH. apply Permutation_swap.
Qed.

Lemma sorted_desc_Permutation {A : Type} (key : A -> R) (l : list A) :
  sorted_desc key l ≡ₚ l.
Proof.
  unfold sorted_desc. induction l as [|x l IH]; simpl; [done|].
  rewrite insert_desc_Permutation. by rewrite IH.
Qed.

Lemma merge_phrases_get (sign : R) (phrases : list Contribution) (k : string) :
  forall merged,
    default 0 (PyDict.get k (merge_phrases sign phrases merged)) =
    default 0 (PyDict.get k merged) + sign * weight_sum k phrases.
Proof.
  unfold merge_phrases.
  induction phrases as [|item rest IH]; intros merged; simpl; [lra|].
  rewrite IH. rewrite get_set. rewrite (String.eqb_sym k).
  destruct (String.eqb (ngram item) k) eqn:E; simpl.
  - apply String.eqb_eq in E as ->. lra.
  - lra.
Qed.

Lemma merge_phrases_NoDup (sign : R) (phrases : list Contribution) :
  forall merged, NoDup merged.*1 -> NoDup (merge_phrases sign phrases merged).*1.
Proof.
  unfold merge_phrases. induction phrases as [|item rest IH]; intros merged Hd; simpl;
    [done|].
  apply IH. by apply set_NoDup.
Qed.

Lemma merge_phrases_nil (sign : R) (phrases : list Contribution) :
  forall merged,
    merge_phrases sign phrases merged = [] <-> phrases = [] /\ merged = [].
Proof.
  unfold merge_phrases. induction phrases as [|item rest IH]; intros merged; simpl.
  - split; [by intros ->|by intros [_ ->]].
  - rewrite IH. split; [|by intros [? _]].
    intros [_ H]. by apply set_not_nil in H.
Qed.

(** What [_compare_top_phrases] returns on the same evidence twice:
    every weight is 0, and the list is empty only for empty evidence. *)
Lemma compare_top_phrases_same (phrases : list Contribution) :
  Forall (fun c => weight c = 0) (_compare_top_phrases phrases phrases) /\
  (_compare_top_phrases phrases phrases = [] <-> phrases = []).
Proof.
  unfold _compare_top_phrases.
  set (m1 := merge_phrases (-1) phrases []).
  set (merged := merge_phrases 1 phrases m1).
  set (items := map (fun kv => {| ngram := fst kv; weight := snd kv |}) merged).
  assert (NoDup merged.*1) as Hnd.
  { apply merge_phrases_NoDup, merge_phrases_NoDup. constructor. }
  assert (Forall (fun kv : string * R => snd kv = 0) merged) as Hzero.
  { apply Forall_forall. intros [k v] Hin. simpl.
    apply list_elem_of_In in Hin.
    pose proof (get_In merged k v Hnd Hin) as Hget.
    pose proof (merge_phrases_get 1 phrases k m1) as H1.
    pose proof (merge_phrases_get (-1) phrases k []) as H2.
    fold merged in H1. fold m1 in H2. rewrite Hget in H1. simpl in *. lra. }
  assert (Forall (fun c => weight c = 0) items) as Hitems.
  { unfold items. apply Forall_map. exact Hzero. }
  split.
  - unfold slice_to. simpl. apply Forall_take.
    by rewrite sorted_desc_Permutation.
  - unfold slice_to. simpl.
    assert (sorted_desc (fun x => Rabs (weight x)) items = [] <-> items = []) as Hs.
    { split; intros H.
      - symmetry. apply Permutation_nil_l. rewrite <- H. apply sorted_desc_Permutation.
      - subst items. rewrite H. done. }
    split.
    + intros H.
      assert (sorted_desc (fun x => Rabs (weight x)) items = []) as H'.
      { destruct (sorted_desc _ items); [done|discriminate]. }
      apply Hs in H'. unfold items in H'. apply map_eq_nil in H'.
      unfold merged in H'. by apply merge_phrases_nil in H' as [? _].
    + intros ->. done.
Qed.

Lemma analyze_role_all_NoDup (self : Predictor) (request : AnalyzeRequest)
    (resp : AnalyzeResponse) :
  analyze self request = Ok resp -> NoDup (role_distribution_all resp).*1.
Proof.
  intros H.
  destruct (analyze_inv _ _ _ H)
    as (n & rd & pm & pred & rt & _ & Hrd & _ & _ & Hall & _).
  rewrite Hall.
  assert ((map (fun kv : string * R => (kv.1, py_round (kv.2 * 100) 4)) rd).*1 = rd.*1)
    as ->.
  { rewrite <- list_fmap_compose. done. }
  unfold _role_distribution in Hrd.
  destruct (predict _ _) as [predicted|]; simpl in Hrd; [|done].
  destruct (if needs_softmax _ then _ else _) as [probs|]; simpl in Hrd; [|done].
  destruct (mapR _ _) as [pairs|]; simpl in Hrd; [|done].
  injection Hrd as <-. apply of_pairs_NoDup.
Qed.

(** The response of [compare] on the same text twice. *)
Lemma compare_same (self : Predictor) (text : string)
    (request : AnalyzeRequest) (resp : AnalyzeResponse) :
  new_request text = Ok request ->
  analyze self request = Ok resp ->
  exists r,
    compare self text text = Ok r /\
    baseline r = resp /\ variant r = resp /\
    Forall (fun kv => snd kv = 0) (role_pct_delta (delta r)) /\
    (role_pct_delta (delta r)).*1 = (role_distribution_all resp).*1 /\
    risk_prob_delta (delta r) = [("Helpful", 0); ("Harmless", 0); ("Harmful", 0)]%string /\
    changed_top_phrases (delta r) =
      _compare_top_phrases (risk_top_ngrams resp) (risk_top_ngrams resp).
Proof.
  intros Hreq Hresp. unfold compare. rewrite Hreq. simpl. rewrite Hresp. simpl.
  eexists. split; [reflexivity|]. simpl.
  pose proof (analyze_role_all_NoDup _ _ _ Hresp) as Hnd.
  set (L := role_distribution_all resp) in *.
  assert (map (fun entry : string * R =>
                 (entry.1, py_round (first_pct entry.1 L - entry.2) 4)) L
          = map (fun entry => (entry.1, 0)) L) as Hpairs.
  { apply map_ext_in. intros [k v] Hin. simpl.
    rewrite (first_pct_self L k v Hnd Hin). by rewrite py_round_diff. }
  rewrite Hpairs.
  split; [done|]. split; [done|]. split; [|split; [|split; [|done]]].
  - apply of_pairs_Forall. apply Forall_map. by apply Forall_forall.
  - assert (forall (l : list (string * R)) d,
              NoDup (d.*1 ++ l.*1) ->
              (foldl (fun d kv => PyDict.set kv.1 kv.2 d) d
                     (map (fun entry : string * R => (entry.1, 0)) l)).*1
              = d.*1 ++ l.*1) as Hkeys.
    { induction l as [|[k v] l IH]; intros d Hd; simpl.
      - by rewrite app_nil_r.
      - assert (k ∉ d.*1) as Hk.
        { intros Hin. apply NoDup_app in Hd as (_ & Hd & _).
          apply (Hd k Hin). simpl. apply list_elem_of_here. }
        rewrite IH.
        + rewrite set_keys, bool_decide_eq_false_2 by done. by rewrite <- app_assoc.
        + rewrite set_keys, bool_decide_eq_false_2 by done. by rewrite <- app_assoc. }
    unfold PyDict.of_pairs. rewrite Hkeys; [done|]. done.
  - unfold PyDict.of_pairs, expected_classes. simpl.
    by rewrite !py_round_diff.
Qed.


End Compare.

Section CompareExamples.
Import PyStr Num Utils Models Explain Serving ServingSpec.
Local Open Scope R_scope.
(** The examples run the code with the stable sort. *)
Local Existing Instance stable_sort.

(** The demonstration predictor analyses the text "layoffs" and finds
    one phrase of risk evidence. *)
Lemma demo_analysis :
  new_request "layoffs" = Ok {| post_text := "layoffs"; company_hint := None |} /\
  exists resp,
    analyze Examples.demo_predictor
            {| post_text := "layoffs"; company_hint := None |} = Ok resp /\
    risk_top_ngrams resp = [{| ngram := "layoffs"; weight := 1 * 1 |}].
Proof.
  split; [reflexivity|].
  set (request := {| post_text := "layoffs"; company_hint := None |}).
  destruct (narratives_total Examples.demo_predictor (analyzed_text request))
    as [n Hn]; [vm_compute; lia|].
  destruct (role_distribution_spec Examples.demo_predictor
              Examples.two_bucket_pipeline (analyzed_text request) [1; 0])
    as (probs & _ & _ & _ & _ & Hrd);
    [reflexivity|reflexivity|discriminate|simpl; lia|].
  destruct (risk_model_preds_total Examples.demo_predictor (analyzed_text request))
    as (pm & pred & Hp); [discriminate|simpl; lia|].
  eapply analyze_intro; [reflexivity|exact Hn|exact Hrd|exact Hp|reflexivity].
Qed.



End CompareExamples.

(** ** Retrieval order *)

Section RetrievalTheorems.
Import PyStr Num Retriever RetrieverSpec.
Local Open Scope R_scope.

Context {NP : ArgSort}.

Lemma StronglySorted_app_inv {A : Type} (Rel : A -> A -> Prop) (l1 l2 : list A) :
  StronglySorted Rel (l1 ++ l2) ->
  StronglySorted Rel l1 /\ StronglySorted Rel l2 /\
  (forall x y, In x l1 -> In y l2 -> Rel x y).
Proof.
  induction l1 as [|a l1 IH]; simpl; intros H.
  - split; [constructor|]. split; [done|]. intros x y [].
  - inversion H as [|? ? Hs Ha]; subst. destruct (IH Hs) as (H1 & H2 & H3).
    apply Forall_app in Ha as [Ha1 Ha2].
    split; [by constructor|]. split; [done|].
    intros x y [<-|Hx] Hy.
    + rewrite Forall_forall in Ha2. apply Ha2. by apply list_elem_of_In.
    + by apply H3.
Qed.

Lemma StronglySorted_app {A : Type} (Rel : A -> A -> Prop) (l1 l2 : list A) :
  StronglySorted Rel l1 -> StronglySorted Rel l2 ->
  (forall x y, In x l1 -> In y l2 -> Rel x y) ->
  StronglySorted Rel (l1 ++ l2).
Proof.
  intros H1 H2 H3. induction H1 as [|a l1 Hl IH Ha]; simpl; [done|].
  constructor.
  - apply IH. intros x y Hx Hy. apply H3; [by right|done].
  - apply Forall_app. split; [done|]. apply Forall_forall. intros y Hy.
    apply H3; [by left|by apply list_elem_of_In].
Qed.

Lemma StronglySorted_rev {A : Type} (Rel : A -> A -> Prop) (l : list A) :
  StronglySorted Rel l -> StronglySorted (fun x y => Rel y x) (rev l).
Proof.
  induction 1 as [|x l Hl IH Hx]; simpl; [constructor|].
  apply StronglySorted_app; [done|repeat constructor|].
  intros y z Hy [<-|[]]. rewrite Forall_forall in Hx. apply Hx.
  apply list_elem_of_In. by apply in_rev.
Qed.

(** The positions served first, whatever the sort does with ties: a
    duplicate-free list of valid rows in descending order of value, every
    row left out having a value no larger than any row served. *)
Lemma top_indices_spec (sims : list R) (k : Z) :
  (0 <= k)%Z ->
  let top := top_indices sims k in
  length top = Nat.min (Z.to_nat k) (length sims) /\
  NoDup top /\
  Forall (fun i => (i < length sims)%nat) top /\
  StronglySorted (fun i j => nth j sims 0 <= nth i sims 0) top /\
  (forall i j, In i top -> (j < length sims)%nat -> ~ In j top ->
               nth j sims 0 <= nth i sims 0).
Proof.
  intros Hk. unfold top_indices, slice_to.
  rewrite (proj2 (Z.leb_le 0 k) Hk). simpl.
  pose proof (argsort_Permutation sims) as Hperm.
  pose proof (argsort_ascending sims) as Hsorted.
  set (order := rev (argsort sims)).
  assert (order ≡ₚ seq 0 (length sims)) as Hperm'.
  { unfold order. by rewrite <- Permutation_rev. }
  assert (StronglySorted (fun i j => nth j sims 0 <= nth i sims 0) order) as Hsorted'.
  { unfold order. by apply StronglySorted_rev in Hsorted. }
  assert (NoDup order) as Hnd.
  { rewrite Hperm'. apply NoDup_ListNoDup, seq_NoDup. }
  assert (length order = length sims) as Hlo.
  { rewrite Hperm'. apply length_seq. }
  rewrite <- (take_drop (Z.to_nat k) order) in Hsorted', Hnd, Hperm'.
  apply StronglySorted_app_inv in Hsorted' as (Hs1 & _ & Hcross).
  apply NoDup_app in Hnd as (Hnd1 & Hdisj & _).
  split; [|split; [done|split; [|split; [done|]]]].
  - by rewrite length_take, Hlo.
  - apply Forall_forall. intros i Hi.
    assert (i ∈ seq 0 (length sims)) as Hin.
    { rewrite <- Hperm'. apply elem_of_app. by left. }
    apply list_elem_of_In, in_seq in Hin. lia.
  - intros i j Hi Hj Hnot. apply Hcross; [done|].
    assert (j ∈ take (Z.to_nat k) order ++ drop (Z.to_nat k) order) as Hin.
    { rewrite Hperm'. apply list_elem_of_In, in_seq. lia. }
    apply elem_of_app in Hin as [Hin|Hin]; [|by apply list_elem_of_In].
    exfalso. apply Hnot. by apply list_elem_of_In.
Qed.

Lemma get_similar_posts_spec (art : Artifacts) (draft_text : string) (k : Z) :
  nonblank draft_text = true ->
  (0 <= k)%Z ->
  length (index_df art) = length (matrix art) ->
  let sims := cosine_similarity (vectorizer art draft_text) (matrix art) in
  let top := top_indices sims k in
  exists results,
    get_similar_posts art draft_text k = Ok results /\
    Forall2 (fun i res => index_df art !! i = Some (fst res) /\
                          sims !! i = Some (snd res)) top results /\
    length top = Nat.min (Z.to_nat k) (length (matrix art)) /\
    NoDup top /\
    StronglySorted (fun i j => nth j sims 0 <= nth i sims 0) top /\
    (forall i j, In i top -> (j < length (matrix art))%nat -> ~ In j top ->
                 nth j sims 0 <= nth i sims 0).
Proof.
  intros Hnb Hk Hlen sims top.
  assert (length sims = length (matrix art)) as Hls.
  { unfold sims, cosine_similarity. by rewrite length_map. }
  destruct (top_indices_spec sims k Hk) as (H1 & H2 & H3 & H4 & H5). fold top in H1, H2, H3, H4, H5.
  unfold get_similar_posts. rewrite Hnb.
  assert (nonempty (chars draft_text) = true) as ->.
  { unfold nonblank in Hnb. destruct (chars draft_text); [done|done]. }
  simpl. fold sims. fold top.
  destruct (mapR_Forall2
              (fun idx => do record <- index (index_df art) idx;
                          do s <- index sims idx; Ok (record, s))
              (fun i res => index_df art !! i = Some (fst res) /\
                            sims !! i = Some (snd res)) top) as (results & Hres & HF).
  { eapply Forall_impl; [exact H3|]. simpl. intros i Hi.
    destruct (lookup_lt_is_Some_2 (index_df art) i) as [rec Hrec]; [lia|].
    destruct (lookup_lt_is_Some_2 sims i) as [s Hs]; [lia|].
    exists (rec, s). unfold index. rewrite Hrec, Hs. done. }
  exists results. rewrite <- Hls. done.
Qed.


End RetrievalTheorems.

Section RetrievalExamples.
Import PyStr Num Retriever RetrieverSpec.
Local Open Scope R_scope.


Lemma stable_argsort_pair_equal (s : R) : stable_argsort [s; s] = [0; 1]%nat.
Proof.
  unfold stable_argsort. simpl. destruct (Rle_dec s s) as [_|Hn]; [done|].
  exfalso. apply Hn. lra.
Qed.

Lemma tie_reversing_argsort_pair_equal (s : R) :
  tie_reversing_argsort [s; s] = [1; 0]%nat.
Proof.
  unfold tie_reversing_argsort. simpl. destruct (Rlt_dec s s) as [Hn|_]; [lra|done].
Qed.


End RetrievalExamples.

(** ** Duplicate posts *)

Section Loading.
Import PyStr Urllib Utils DataLoader.

Lemma mapR_app {A B : Type} (f : A -> result B) (l1 l2 : list A) (ys : list B) :
  mapR f (l1 ++ l2) = Ok ys ->
  exists ys1 ys2, ys = ys1 ++ ys2 /\ mapR f l1 = Ok ys1 /\ mapR f l2 = Ok ys2.
Proof.
  revert ys. induction l1 as [|x l1 IH]; simpl; intros ys H.
  - exists [], ys. done.
  - destruct (f x) as [y|e]; simpl in *; [|done].
    destruct (mapR f (l1 ++ l2)) as [ys'|e] eqn:E; simpl in *; [|done].
    injection H as <-. destruct (IH ys' eq_refl) as (ys1 & ys2 & -> & -> & ->).
    exists (y :: ys1), ys2. done.
Qed.

Lemma filter_eq_nil_notin (keys : list (string * string)) (k : string * string) :
  k ∉ keys -> filter (fun k' => k' = k) keys = [].
Proof.
  induction keys as [|k0 keys IH]; intros Hk; [done|].
  rewrite filter_cons. destruct (decide (k0 = k)) as [->|Hne].
  - exfalso. apply Hk. apply list_elem_of_here.
  - apply IH. intros Hin. apply Hk. by apply list_elem_of_further.
Qed.

Lemma count_key_NoDup (keys : list (string * string)) (k : string * string) :
  NoDup keys -> (length (filter (fun k' => k' = k) keys) <= 1)%nat.
Proof.
  induction 1 as [|k0 keys Hk0 Hnd IH]; [simpl; lia|].
  rewrite filter_cons. destruct (decide (k0 = k)) as [->|Hne]; [|done].
  rewrite filter_eq_nil_notin by done. simpl. lia.
Qed.

Lemma select_rows_all_false {Row : Type} (df : list Row) (mask : list bool) :
  Forall (fun b => b = false) mask -> select_rows df mask = [].
Proof.
  unfold select_rows. intros H. revert df.
  induction H as [|b mask -> _ IH]; intros df.
  - by destruct df.
  - destruct df as [|r df]; simpl; [done|]. apply IH.
Qed.

Lemma select_rows_some_true {Row : Type} (df1 df2 : list Row) (r : Row)
    (m1 m2 : list bool) :
  length df1 = length m1 ->
  select_rows (df1 ++ r :: df2) (m1 ++ true :: m2) <> [].
Proof.
  unfold select_rows. revert m1. induction df1 as [|x df1 IH]; intros m1 Hlen.
  - destruct m1; [|done]. simpl. done.
  - destruct m1 as [|b m1]; [done|]. simpl. destruct b; simpl; [done|].
    apply IH. simpl in Hlen. lia.
Qed.

Lemma assert_unique_posts_NoDup (df : list post) (company_name : string) :
  NoDup (map post_key df) -> _assert_unique_posts df company_name = Ok tt.
Proof.
  intros Hnd. unfold _assert_unique_posts. rewrite select_rows_all_false; [done|].
  unfold duplicated_keep_false. apply Forall_map, Forall_forall. intros k _.
  simpl. apply bool_decide_eq_false. pose proof (count_key_NoDup _ k Hnd). lia.
Qed.

Lemma assert_unique_posts_duplicate (d1 d2 d3 : list post) (p1 p2 : post)
    (company_name : string) :
  post_key p1 = post_key p2 ->
  _assert_unique_posts (d1 ++ p1 :: d2 ++ p2 :: d3) company_name =
  Raise (ValueError (duplicate_message company_name)).
Proof.
  intros Hkey. unfold _assert_unique_posts.
  set (df := d1 ++ p1 :: d2 ++ p2 :: d3).
  set (keys := map post_key df).
  assert (2 <= length (filter (fun k' => k' = post_key p1) keys))%nat as Hcount.
  { unfold keys, df. rewrite map_app, filter_app. simpl. rewrite filter_cons.
    rewrite decide_True by done. simpl. rewrite map_app, filter_app. simpl.
    rewrite (filter_cons _ (post_key p2)). rewrite decide_True by done.
    rewrite !length_app. simpl. rewrite !length_app. simpl. lia. }
  unfold duplicated_keep_false.
  set (g := fun k => bool_decide (2 <= length (filter (fun k' => k' = k) keys))%nat).
  assert (map g keys =
          map g (map post_key d1) ++ true :: map g (map post_key (d2 ++ p2 :: d3)))
    as ->.
  { unfold keys, df. rewrite map_app, map_app. simpl. f_equal. f_equal.
    unfold g. by apply bool_decide_eq_true_2. }
  pose proof (select_rows_some_true d1 (d2 ++ p2 :: d3) p1
                (map g (map post_key d1)) (map g (map post_key (d2 ++ p2 :: d3)))) as Hsel.
  fold df in Hsel. destruct (select_rows df _); [|done].
  exfalso. apply Hsel; [|done]. by rewrite !length_map.
Qed.

Lemma add_columns_cons (V : Validators) (r : post_row) (rows : list post_row)
    (company_name : string) (df : list post) :
  add_columns V (r :: rows) company_name = Ok df ->
  exists u df', canonicalize_url V (post_url r) = Ok u /\
                add_columns V rows company_name = Ok df' /\
                df = {| source := r; company := company_name; post_url_clean := u |}
                       :: df'.
Proof.
  unfold add_columns. simpl.
  destruct (canonicalize_url V (post_url r)) as [u|]; simpl; [|done].
  destruct (mapR _ rows) as [df'|]; simpl; [|done].
  intros [= <-]. by exists u, df'.
Qed.

Lemma filter_rows_app (d1 d2 : list post) :
  filter_rows (d1 ++ d2) = filter_rows d1 ++ filter_rows d2.
Proof.
  unfold filter_rows, drop_empty_text. by rewrite !List.filter_app.
Qed.

Lemma filter_rows_keep (p : post) (d : list post) :
  post_url_clean p <> ""%string ->
  nonblank (astype_str (post_text (source p))) = true ->
  filter_rows (p :: d) = p :: filter_rows d.
Proof.
  intros Hu Ht. unfold filter_rows, drop_empty_text. simpl.
  apply String.eqb_neq in Hu. rewrite Hu. simpl. by rewrite Ht.
Qed.



End Loading.


(** * Further properties of the training utilities *)

Section SoftmaxOrder.
Import Num Utils Models.
Local Open Scope R_scope.

Lemma fold_left_Rmax_shift (c : R) (xs : list R) (x : R) :
  fold_left Rmax (map (fun y => y + c) xs) (x + c) = fold_left Rmax xs x + c.
Proof.
  revert x. induction xs as [|y xs IH]; intros x; simpl; [done|].
  rewrite <- IH. f_equal. unfold Rmax.
  destruct (Rle_dec (x + c) (y + c)), (Rle_dec x y); lra.
Qed.

Lemma exp_shifted_shift (c m : R) (row : list R) :
  exp_shifted (m + c) (map (fun y => y + c) row) = exp_shifted m row.
Proof.
  unfold exp_shifted. rewrite map_map. apply map_ext. intros y. f_equal. lra.
Qed.

Lemma softmax_row_shift (c : R) (row : list R) :
  softmax_row (map (fun y => y + c) row) = softmax_row row.
Proof.
  destruct row as [|x xs]; [done|].
  unfold softmax_row.
  assert (row_max (map (fun y => y + c) (x :: xs)) = Ok (fold_left Rmax xs x + c)) as ->.
  { simpl. by rewrite fold_left_Rmax_shift. }
  assert (row_max (x :: xs) = Ok (fold_left Rmax xs x)) as -> by done.
  unfold rbind. by rewrite exp_shifted_shift.
Qed.

(** X1. Adding a constant to every entry of a row, a constant that may
    differ from row to row, does not change what [softmax_rows] returns;
    rows without entries fail either way. *)
Theorem softmax_rows_ignores_row_offsets (offset : list R -> R) (arr : list (list R)) :
  softmax_rows (map (fun row => map (fun y => y + offset row) row) arr)
  = softmax_rows arr.
Proof.
  unfold softmax_rows. induction arr as [|row arr IH]; [done|].
  simpl. by rewrite softmax_row_shift, IH.
Qed.

Lemma softmax_row_monotone (row out : list R) (i j : nat) (x y p q : R) :
  softmax_row row = Ok out ->
  row !! i = Some x -> row !! j = Some y ->
  out !! i = Some p -> out !! j = Some q ->
  x <= y -> p <= q.
Proof.
  intros Hout Hx Hy Hp Hq.
  assert (row <> []) as Hne by (intros ->; done).
  destruct (softmax_row_spec row Hne) as (m & out' & Hm & Hs & Ho & _ & _ & _).
  rewrite Hout in Hs. injection Hs as <-. subst out.
  pose proof (row_divisor_lower (exp_shifted m row)) as Hd.
  set (d := row_divisor (exp_shifted m row)) in *.
  unfold exp_shifted in Hp, Hq.
  rewrite !list_lookup_fmap, Hx in Hp. rewrite !list_lookup_fmap, Hy in Hq.
  simpl in Hp, Hq. injection Hp as <-. injection Hq as <-.
  assert (0 < / d) as Hinv by (apply Rinv_0_lt_compat; lra).
  unfold Rdiv. intros Hxy. apply Rmult_le_compat_r; [lra|].
  apply np_exp_monotone. lra.
Qed.

(** X2. A fitted role model's [predict] keeps the shape and the order of
    [predict_raw]: one row per raw row, one share per raw output, and
    within a row a bucket with the larger raw output never has the
    smaller share. *)
Theorem role_predict_preserves_bucket_order
    (self : RoleCompositionModel) (X : list string) (raw out : list (list R)) :
  predict_raw self X = Ok raw ->
  predict self X = Ok out ->
  Forall2 (fun r o =>
             length o = length r /\
             forall i j x y p q,
               r !! i = Some x -> r !! j = Some y ->
               o !! i = Some p -> o !! j = Some q ->
               x <= y -> p <= q) raw out.
Proof.
  unfold predict_raw, predict. destruct (pipeline self) as [pl|]; [|done].
  intros [= <-] Hout. unfold softmax_rows in Hout.
  apply mapR_Ok_Forall2 in Hout.
  eapply Forall2_impl; [exact Hout|]. simpl. intros r o Hro. split.
  - assert (r <> []) as Hne by (intros ->; done).
    destruct (softmax_row_spec r Hne) as (m & out' & _ & Hs & _ & Hlen & _).
    rewrite Hro in Hs. by injection Hs as <-.
  - intros i j x y p q. by apply softmax_row_monotone.
Qed.

Lemma role_predict_preserves_bucket_order_witness :
  exists out,
    predict Examples.two_bucket_model ["hiring"%string] = Ok out /\
    Forall2 (fun r o =>
               length o = length r /\
               forall i j x y p q,
                 r !! i = Some x -> r !! j = Some y ->
                 o !! i = Some p -> o !! j = Some q ->
                 x <= y -> p <= q) [[1; 0]] out.
Proof.
  destruct (predict Examples.two_bucket_model ["hiring"%string]) as [out|e] eqn:Hp.
  - exists out. split; [done|].
    apply (role_predict_preserves_bucket_order
             Examples.two_bucket_model ["hiring"%string] [[1; 0]] out);
      [reflexivity|exact Hp].
  - exfalso. vm_compute in Hp. discriminate.
Defined.

End SoftmaxOrder.


Section CanonicalShape.
Import PyStr Urllib Utils UrlSpec.
Context (V : Validators).

Ltac char_cases c :=
  destruct c as [[] [] [] [] [] [] [] []]; vm_compute;
  try reflexivity; try discriminate; intuition congruence.

Lemma scheme_char_not_qf (c : ascii) : in_scheme_chars c = true -> is_qf c = false.
Proof. char_cases c. Qed.

Lemma split_scheme_no_qf (url : list ascii) :
  Forall (fun c => is_qf c = false) (fst (split_scheme url)).
Proof.
  unfold split_scheme.
  destruct (break_at (is_char ":") url) as [[|c pre] [|d post]];
    try (cbn [fst]; constructor).
  destruct (isascii_alpha c && forallb in_scheme_chars (c :: pre)) eqn:E;
    cbn [fst]; [|constructor].
  apply andb_true_iff in E as [_ E]. rewrite forallb_forall in E.
  unfold lower. apply Forall_map, Forall_forall. intros x Hx.
  apply scheme_char_not_qf, lower_char_scheme, E. by apply list_elem_of_In.
Qed.

Lemma parse3_no_qf (s sch nl p : list ascii) :
  parse3 V s = Ok (sch, nl, p) ->
  Forall (fun c => is_qf c = false) sch /\
  Forall (fun c => is_qf c = false) nl /\
  Forall (fun c => is_qf c = false) p.
Proof.
  unfold parse3. pose proof (split_scheme_no_qf s) as Hs.
  destruct (split_netloc V (snd (split_scheme s))) as [[nl' r2]|e] eqn:Hn;
    simpl; [|done].
  destruct (_checknetloc V nl'); simpl; [|done].
  intros [= <- <- <-]. split; [done|]. split.
  - apply split_netloc_cases in Hn as [(r' & _ & Hb & _)|(_ & -> & _)];
      [|constructor].
    apply break_at_fst in Hb. eapply Forall_impl; [exact Hb|].
    simpl. apply not_delim_not_qf.
  - destruct (break_at is_qf r2) as [pa pb] eqn:Hb. simpl.
    by apply break_at_fst in Hb.
Qed.

Lemma assemble_no_qf (sch nl p : list ascii) :
  Forall (fun c => is_qf c = false) sch ->
  Forall (fun c => is_qf c = false) nl ->
  Forall (fun c => is_qf c = false) p ->
  Forall (fun c => is_qf c = false) (assemble sch nl p).
Proof.
  intros Hs Hn Hp.
  assert (Forall (fun c => is_qf c = false) (body_of sch nl p)) as Hb.
  { unfold body_of. destruct (_ || _); [|done].
    change (chars "//") with [slash; slash].
    repeat (constructor; [done|]). apply Forall_app. split; [done|].
    destruct (_ && _); [by constructor|done]. }
  unfold assemble. destruct (nonempty sch); [|done].
  apply Forall_app. split; [done|]. by constructor.
Qed.

Lemma lower_no_qf (s : list ascii) :
  Forall (fun c => is_qf c = false) s -> Forall (fun c => is_qf c = false) (lower s).
Proof.
  intros H. unfold lower. apply Forall_map. eapply Forall_impl; [exact H|].
  simpl. intros c Hc. unfold is_qf in *.
  by rewrite !lower_char_separator by (unfold is_separator; simpl; auto 10).
Qed.

(** X3. A missing value and a blank string canonicalize to the empty
    string, and whatever [canonicalize_url] returns holds neither a query
    mark nor a fragment mark. *)
Theorem canonical_url_has_no_query_or_fragment :
  canonicalize_url V CNaN = Ok ""%string /\
  (forall u, nonblank u = false -> canonicalize_url V (CStr u) = Ok ""%string) /\
  (forall url c, canonicalize_url V url = Ok c -> no_query_or_fragment c = true).
Proof.
  split; [done|]. split.
  - intros u Hu. unfold canonicalize_url. unfold nonblank in Hu. by rewrite Hu.
  - intros [u|] c; [|by intros [= <-]].
    rewrite canonicalize_url_parse3.
    destruct (parse3 V _) as [[[sch nl] p]|e] eqn:Hp; simpl; [|done].
    intros [= <-]. unfold no_query_or_fragment. rewrite chars_string_of_list.
    apply parse3_no_qf in Hp as (Hs & Hn & Hpq).
    rewrite unsplit3_assemble. apply forallb_forall. intros x Hx.
    pose proof (assemble_no_qf sch (lower nl) (rstrip (is_char "/") p) Hs
                  (lower_no_qf nl Hn) (rstrip_Forall _ _ p Hpq)) as Hall.
    rewrite Forall_forall in Hall. apply negb_true_iff, Hall.
    by apply list_elem_of_In.
Qed.

End CanonicalShape.

Lemma canonical_url_has_no_query_or_fragment_witness :
  Utils.canonicalize_url Urllib.no_validation (CStr "   ") = Ok ""%string /\
  UrlSpec.no_query_or_fragment "http://a.com/x" = true.
Proof.
  destruct (canonical_url_has_no_query_or_fragment Urllib.no_validation)
    as (_ & Hblank & Hshape).
  split.
  - apply Hblank. reflexivity.
  - apply (Hshape (CStr "HTTP://A.com/x/?q=1#top")). reflexivity.
Defined.


Section LoadedTables.
Import PyStr Urllib Utils DataLoader.

Lemma List_filter_sublist {A : Type} (f : A -> bool) (l : list A) :
  sublist (List.filter f l) l.
Proof.
  induction l as [|x l IH]; simpl; [constructor|].
  destruct (f x); by constructor.
Qed.

Lemma List_filter_idem {A : Type} (f : A -> bool) (l : list A) :
  List.filter f (List.filter f l) = List.filter f l.
Proof.
  induction l as [|x l IH]; simpl; [done|].
  destruct (f x) eqn:E; simpl; [|done]. by rewrite E, IH.
Qed.

(** X4. [drop_empty_text] keeps, in their order, exactly the rows whose
    text is a string with something other than white space in it, and the
    rows whose text is missing (a missing value reads as the text "nan");
    applying it twice changes nothing more. *)
Theorem drop_empty_text_keeps_nonblank_rows
    {Row : Type} (text_col : Row -> cell) (df : list Row) :
  (forall row, In row (drop_empty_text text_col df) <->
               In row df /\
               (text_col row = CNaN \/
                exists s, text_col row = CStr s /\ strip (chars s) <> [])) /\
  sublist (drop_empty_text text_col df) df /\
  drop_empty_text text_col (drop_empty_text text_col df)
  = drop_empty_text text_col df.
Proof.
  unfold drop_empty_text. split; [|split].
  - intros row. rewrite filter_In. apply and_iff_compat_l.
    unfold nonblank. destruct (text_col row) as [s|]; simpl.
    + split.
      * intros H. right. exists s. split; [done|]. by destruct (strip (chars s)).
      * intros [?|(s' & [= <-] & Hs)]; [done|]. by destruct (strip (chars s)).
    + split; [by left|]. intros _. reflexivity.
  - apply List_filter_sublist.
  - apply List_filter_idem.
Qed.

Lemma select_rows_nil {Row : Type} (df : list Row) (mask : list bool) :
  length df = length mask -> select_rows df mask = [] ->
  Forall (fun b => b = false) mask.
Proof.
  unfold select_rows. revert mask. induction df as [|r df IH]; intros mask Hlen Hsel.
  - destruct mask; [constructor|done].
  - destruct mask as [|b mask]; [done|]. simpl in Hsel, Hlen.
    destruct b; simpl in Hsel; [done|]. constructor; [done|].
    apply IH; [lia|done].
Qed.

Lemma count_lt_2_NoDup (keys : list (string * string)) :
  Forall (fun k => (length (filter (fun k' => k' = k) keys) < 2)%nat) keys ->
  NoDup keys.
Proof.
  induction keys as [|k keys IH]; intros H; [constructor|].
  inversion H as [|? ? Hk Hrest]; subst. constructor.
  - intros Hin. rewrite filter_cons in Hk.
    destruct (decide (k = k)) as [_|]; [|done]. simpl in Hk.
    assert (k ∈ filter (fun k' => k' = k) keys) as Hin'
      by (by apply list_elem_of_filter).
    destruct (filter (fun k' => k' = k) keys); [by apply elem_of_nil in Hin'|].
    simpl in Hk. lia.
  - apply IH. rewrite Forall_forall in Hrest. apply Forall_forall. intros k' Hk'.
    specialize (Hrest k' Hk'). rewrite filter_cons in Hrest.
    destruct (decide (k = k')); simpl in Hrest; lia.
Qed.

Lemma assert_unique_posts_Ok (df : list post) (company_name : string) :
  _assert_unique_posts df company_name = Ok tt -> NoDup (map post_key df).
Proof.
  unfold _assert_unique_posts.
  destruct (select_rows df _) as [|d dups] eqn:Hsel; [|done]. intros _.
  apply select_rows_nil in Hsel; [|unfold duplicated_keep_false; by rewrite !length_map].
  apply count_lt_2_NoDup. unfold duplicated_keep_false in Hsel.
  apply Forall_map in Hsel. eapply Forall_impl; [exact Hsel|].
  simpl. intros k Hk. apply bool_decide_eq_false in Hk. lia.
Qed.

(** X5. [_assert_unique_posts] passes exactly on the tables in which no
    two rows share their (company, canonical URL) pair; on every other
    table it raises the duplicate-post [ValueError] naming the company. *)
Theorem assert_unique_posts_iff_no_shared_key (df : list post) (company_name : string) :
  (_assert_unique_posts df company_name = Ok tt <-> NoDup (map post_key df)) /\
  (~ NoDup (map post_key df) ->
   _assert_unique_posts df company_name
   = Raise (ValueError (duplicate_message company_name))).
Proof.
  split; [split; [apply assert_unique_posts_Ok|apply assert_unique_posts_NoDup]|].
  intros Hdup. pose proof (assert_unique_posts_Ok df company_name) as Hok.
  unfold _assert_unique_posts in *.
  destruct (select_rows df _); [|done]. exfalso. by apply Hdup, Hok.
Qed.

Lemma add_columns_Forall2 (V : Validators) (rows : list post_row)
    (company_name : string) (df : list post) :
  add_columns V rows company_name = Ok df ->
  Forall2 (fun r p => source p = r /\ company p = company_name /\
                      canonicalize_url V (post_url r) = Ok (post_url_clean p))
          rows df.
Proof.
  intros H. apply mapR_Ok_Forall2 in H. eapply Forall2_impl; [exact H|].
  simpl. intros r p. destruct (canonicalize_url V (post_url r)) as [u|]; simpl; [|done].
  by intros [= <-].
Qed.

(** X6. What [_load_posts] returns when it returns: the retained rows
    come from the file in the file's order, each carries the company
    name and the canonical form of its own URL, that form is not empty,
    its text is not blank, and no two rows have the same canonical URL. *)
Theorem load_posts_returns_clean_unique_rows
    (V : Validators) (rows : list post_row) (company_name : string) (df : list post) :
  _load_posts V rows company_name = Ok df ->
  sublist (map source df) rows /\
  NoDup (map post_url_clean df) /\
  Forall (fun p => company p = company_name /\
                   canonicalize_url V (post_url (source p)) = Ok (post_url_clean p) /\
                   post_url_clean p <> ""%string /\
                   nonblank (astype_str (post_text (source p))) = true) df.
Proof.
  unfold _load_posts.
  destruct (add_columns V rows company_name) as [df0|] eqn:Hadd; simpl; [|done].
  destruct (_assert_unique_posts (filter_rows df0) company_name) as [[]|] eqn:Hu;
    simpl; [|done].
  intros [= <-]. apply add_columns_Forall2 in Hadd.
  assert (map source df0 = rows /\
          Forall (fun p => company p = company_name /\
                           canonicalize_url V (post_url (source p))
                           = Ok (post_url_clean p)) df0) as [Hsrc Hall].
  { clear Hu. induction Hadd as [|r p rows' df' (Hs & Hc & Hcan) _ [IH1 IH2]];
      [by split|].
    split; [simpl; by rewrite Hs, IH1|]. constructor; [|done]. by rewrite Hs. }
  assert (sublist (filter_rows df0) df0) as Hsub.
  { unfold filter_rows, drop_empty_text.
    etrans; apply List_filter_sublist. }
  split; [|split].
  - rewrite <- Hsrc. by apply (fmap_sublist source).
  - apply assert_unique_posts_Ok in Hu.
    assert (Forall (fun p => company p = company_name) (filter_rows df0)) as Hco.
    { apply Forall_forall. intros p Hp. rewrite Forall_forall in Hall.
      apply (Hall p). by eapply elem_of_sublist. }
    revert Hu Hco. generalize (filter_rows df0). intros l.
    induction l as [|p l IH]; simpl; intros Hnd Hco; [constructor|].
    apply NoDup_cons in Hnd as [Hp Hnd]. inversion Hco as [|? ? Hcp Hco']; subst.
    apply NoDup_cons. split; [|by apply IH].
    intros Hin. apply Hp. apply list_elem_of_fmap in Hin as (q & Hq & Hqin).
    apply list_elem_of_fmap. exists q. split; [|done].
    unfold post_key. rewrite Forall_forall in Hco'. rewrite (Hco' q Hqin).
    by rewrite Hq.
  - apply Forall_forall. intros p Hp.
    assert (p ∈ df0) as Hp0 by (by eapply elem_of_sublist).
    rewrite Forall_forall in Hall. destruct (Hall p Hp0) as [Hc Hcan].
    split; [done|]. split; [done|].
    unfold filter_rows, drop_empty_text in Hp.
    apply list_elem_of_In, filter_In in Hp as [Hp Ht].
    apply filter_In in Hp as [_ Hurl]. split; [|done].
    apply negb_true_iff, String.eqb_neq in Hurl. done.
Qed.

Lemma load_posts_returns_clean_unique_rows_witness :
  exists df,
    _load_posts no_validation [Examples.post_a; Examples.post_b] "acme" = Ok df /\
    sublist (map source df) [Examples.post_a; Examples.post_b] /\
    NoDup (map post_url_clean df) /\
    Forall (fun p => company p = "acme"%string /\
                     canonicalize_url no_validation (post_url (source p))
                     = Ok (post_url_clean p) /\
                     post_url_clean p <> ""%string /\
                     nonblank (astype_str (post_text (source p))) = true) df.
Proof.
  destruct (_load_posts no_validation [Examples.post_a; Examples.post_b] "acme")
    as [df|e] eqn:Hload.
  - exists df. split; [done|].
    exact (load_posts_returns_clean_unique_rows no_validation
             [Examples.post_a; Examples.post_b] "acme" df Hload).
  - exfalso. vm_compute in Hload. discriminate.
Defined.

Lemma assert_unique_posts_iff_no_shared_key_witness :
  _assert_unique_posts
    [ {| source := Examples.post_a; company := "acme"; post_url_clean := "u" |};
      {| source := Examples.post_b; company := "acme"; post_url_clean := "u" |} ]
    "acme"
  = Raise (ValueError (duplicate_message "acme")).
Proof.
  apply (assert_unique_posts_iff_no_shared_key _ "acme").
  intros Hnd. apply NoDup_cons in Hnd as [Hin _]. apply Hin. simpl. left.
Defined.

End LoadedTables.


(** * Further properties of retrieval *)

Section CosineBounds.
Import PyStr Num Retriever.
Local Open Scope R_scope.

Context {NP : ArgSort}.

Lemma dot_nil_r (a : list R) : dot a [] = 0.
Proof. by destruct a. Qed.

Lemma dot_cons (x y : R) (a b : list R) : dot (x :: a) (y :: b) = x * y + dot a b.
Proof. done. Qed.

Lemma dot_self_nonneg (a : list R) : 0 <= dot a a.
Proof.
  induction a as [|x a IH]; [unfold dot; simpl; lra|].
  rewrite dot_cons. nra.
Qed.

(** The Cauchy-Schwarz inequality for [dot], which pairs the entries up to
    the shorter of the two rows. *)
Lemma dot_cauchy_schwarz (a b : list R) : dot a b * dot a b <= dot a a * dot b b.
Proof.
  revert b. induction a as [|x a IH]; intros b.
  - unfold dot. simpl. lra.
  - destruct b as [|y b]; [rewrite !dot_nil_r; lra|].
    rewrite !dot_cons. specialize (IH b).
    pose proof (dot_self_nonneg a) as HA. pose proof (dot_self_nonneg b) as HB.
    set (S := dot a b) in *. set (A := dot a a) in *. set (B := dot b b) in *.
    assert (2 * (x * y) * S <= x * x * B + y * y * A) as Hmix.
    { destruct (Req_dec A 0) as [HA0|HA0].
      - assert (S = 0) as HS0.
        { apply Rsqr_0_uniq. pose proof (Rle_0_sqr S) as Hsq.
          unfold Rsqr in *. rewrite HA0 in IH. lra. }
        rewrite HS0, HA0. pose proof (Rmult_le_pos _ _ (Rle_0_sqr x) HB) as Hx.
        unfold Rsqr in Hx. lra.
      - assert (0 < A) as HApos by lra.
        apply (Rmult_le_reg_l A); [done|].
        pose proof (Rle_0_sqr (x * S - y * A)) as Hsq.
        pose proof (Rmult_le_compat_l (x * x) _ _ (Rle_0_sqr x) IH) as Hx.
        unfold Rsqr in Hsq. lra. }
    lra.
Qed.

Lemma dot_scale (n m : R) (a b : list R) :
  dot (map (fun x => x / n) a) (map (fun x => x / m) b) = dot a b * (/ n * / m).
Proof.
  revert b. induction a as [|x a IH]; intros b; [unfold dot; simpl; lra|].
  destruct b as [|y b]; [unfold dot; simpl; lra|].
  simpl map. rewrite !dot_cons, IH. unfold Rdiv. lra.
Qed.

Lemma machine_eps_small : 0 < 10 * / 2 ^ 52 < 1.
Proof.
  assert (2 ^ 52 = 4503599627370496) as -> by (simpl; lra). lra.
Qed.

Lemma normalize_scale (a : list R) :
  exists n, 0 < n /\ normalize a = map (fun x => x / n) a /\
            dot a a * (/ n * / n) <= 1.
Proof.
  pose proof (dot_self_nonneg a) as Hnn. pose proof machine_eps_small as Heps.
  pose proof (sqrt_sqrt (dot a a) Hnn) as Hsq.
  pose proof (sqrt_pos (dot a a)) as Hpos.
  unfold normalize. destruct (Rlt_dec _ _) as [Hlt|Hge].
  - exists 1. split; [lra|]. split; [done|]. replace (/ 1) with 1 by lra. nra.
  - exists (sqrt (dot a a)). split; [lra|]. split; [done|].
    rewrite <- Hsq at 1. right. field. lra.
Qed.

Lemma normalize_norm_le_1 (a : list R) : dot (normalize a) (normalize a) <= 1.
Proof.
  destruct (normalize_scale a) as (n & _ & -> & Hle). by rewrite dot_scale.
Qed.

Lemma cosine_entry_bounded (q row : list R) :
  -1 <= dot (normalize q) (normalize row) <= 1.
Proof.
  pose proof (dot_cauchy_schwarz (normalize q) (normalize row)) as Hcs.
  pose proof (normalize_norm_le_1 q) as Hq.
  pose proof (normalize_norm_le_1 row) as Hr.
  pose proof (dot_self_nonneg (normalize q)) as Hq0.
  pose proof (dot_self_nonneg (normalize row)) as Hr0.
  set (s := dot (normalize q) (normalize row)) in *.
  assert (s * s <= 1) by nra. split; nra.
Qed.

Lemma dot_nonneg (a b : list R) :
  Forall (fun x => 0 <= x) a -> Forall (fun x => 0 <= x) b -> 0 <= dot a b.
Proof.
  intros Ha. revert b. induction Ha as [|x a Hx _ IH]; intros b Hb;
    [unfold dot; simpl; lra|].
  destruct Hb as [|y b Hy Hb]; [unfold dot; simpl; lra|].
  rewrite dot_cons. specialize (IH b Hb). nra.
Qed.

Lemma normalize_nonneg (a : list R) :
  Forall (fun x => 0 <= x) a -> Forall (fun x => 0 <= x) (normalize a).
Proof.
  intros Ha. destruct (normalize_scale a) as (n & Hn & -> & _).
  apply Forall_map. eapply Forall_impl; [exact Ha|]. simpl. intros x Hx.
  apply Rmult_le_pos; [done|]. left. by apply Rinv_0_lt_compat.
Qed.

Lemma cosine_similarity_bounded (q : list R) (m : list (list R)) :
  Forall (fun s => -1 <= s <= 1) (cosine_similarity q m) /\
  (Forall (fun x => 0 <= x) q -> Forall (Forall (fun x => 0 <= x)) m ->
   Forall (fun s => 0 <= s <= 1) (cosine_similarity q m)).
Proof.
  unfold cosine_similarity. split.
  - apply Forall_map, Forall_forall. intros row _. apply cosine_entry_bounded.
  - intros Hq Hm. apply Forall_map. eapply Forall_impl; [exact Hm|].
    simpl. intros row Hrow. split; [|apply cosine_entry_bounded].
    apply dot_nonneg; by apply normalize_nonneg.
Qed.

(** X7. Every score [get_similar_posts] returns is a cosine: it lies
    between -1 and 1, and between 0 and 1 when the query row and the
    matrix hold no negative entry, as TF-IDF rows do. *)
Theorem similar_post_scores_are_cosines
    (art : Artifacts) (draft_text : string) (k : Z) (results : list (index_row * R)) :
  get_similar_posts art draft_text k = Ok results ->
  Forall (fun res => -1 <= snd res <= 1) results /\
  (Forall (fun x => 0 <= x) (vectorizer art draft_text) ->
   Forall (Forall (fun x => 0 <= x)) (matrix art) ->
   Forall (fun res => 0 <= snd res <= 1) results).
Proof.
  unfold get_similar_posts. destruct (_ || _); [done|].
  set (sims := cosine_similarity _ _). intros Hres.
  apply mapR_Ok_Forall2 in Hres.
  assert (Forall (fun res => In (snd res) sims) results) as Hin.
  { induction Hres as [|i res top results Hi _ IH]; constructor; [|done].
    destruct (index (index_df art) i) as [rec|]; simpl in Hi; [|done].
    destruct (index sims i) as [s|] eqn:Hs; simpl in Hi; [|done].
    injection Hi as <-. simpl. unfold index in Hs.
    destruct (sims !! i) as [s'|] eqn:Hl; [|done]. injection Hs as <-.
    apply list_elem_of_In. by eapply list_elem_of_lookup_2. }
  destruct (cosine_similarity_bounded (vectorizer art draft_text) (matrix art))
    as [Hb Hb0].
  split.
  - eapply Forall_impl; [exact Hin|]. simpl. intros res Hr.
    rewrite Forall_forall in Hb. apply Hb. by apply list_elem_of_In.
  - intros Hq Hm. specialize (Hb0 Hq Hm).
    eapply Forall_impl; [exact Hin|]. simpl. intros res Hr.
    rewrite Forall_forall in Hb0. apply Hb0. by apply list_elem_of_In.
Qed.

End CosineBounds.

Section CosineBoundsExamples.
Import PyStr Num Retriever.
Local Open Scope R_scope.
(** The examples run the code with the stable sort. *)
Local Existing Instance stable_sort.

Lemma similar_post_scores_are_cosines_witness :
  exists results,
    get_similar_posts Examples.twin_artifacts "layoffs" 1 = Ok results /\
    Forall (fun res => -1 <= snd res <= 1) results /\
    Forall (fun res => 0 <= snd res <= 1) results.
Proof.
  destruct (get_similar_posts_spec Examples.twin_artifacts "layoffs" 1)
    as (results & Hg & _); [reflexivity|lia|reflexivity|].
  exists results. split; [exact Hg|].
  destruct (similar_post_scores_are_cosines
              Examples.twin_artifacts "layoffs" 1 results Hg) as [H1 H2].
  split; [exact H1|]. apply H2.
  - constructor; [simpl; lra|constructor].
  - constructor; [constructor; [simpl; lra|constructor]|].
    constructor; [constructor; [simpl; lra|constructor]|constructor].
Defined.

End CosineBoundsExamples.


Section ServingRetrieval.
Import PyStr Num Retriever Serving.
Local Open Scope R_scope.

Context {NP : ArgSort}.

Lemma mapR_ext {A B : Type} (f g : A -> result B) (l : list A) :
  (forall x, f x = g x) -> mapR f l = mapR g l.
Proof.
  intros H. induction l as [|x l IH]; simpl; [done|]. by rewrite H, IH.
Qed.

Lemma mapR_map_fusion {A B C : Type} (f : A -> result B) (g : B -> C) (l : list A) :
  mapR (fun x => do y <- f x; Ok (g y)) l = do ys <- mapR f l; Ok (map g ys).
Proof.
  induction l as [|x l IH]; simpl; [done|].
  destruct (f x) as [y|e]; simpl; [|done]. rewrite IH.
  by destruct (mapR f l).
Qed.

(** X8. The serving facade and the training-side retriever rank alike:
    for a non-blank text and the same artifacts, [_similar_posts] returns
    the rows of [get_similar_posts], in the same order and with the same
    scores, each cut down to company, post URL and a snippet that is the
    first 160 characters of the post URL; it fails when the retriever
    fails, and without retriever artifacts it returns no rows. *)
Theorem serving_retrieval_agrees_with_retriever
    (self : Predictor) (text : string) (k : Z) :
  (retriever self = None -> _similar_posts self text k = Ok []) /\
  (forall art, retriever self = Some art -> nonblank text = true ->
     _similar_posts self text k =
     do results <- get_similar_posts art text k;
     Ok (map (fun res =>
                (idx_company (fst res), idx_post_url (fst res),
                 string_of_list_ascii (take 160 (chars (idx_post_url (fst res)))),
                 snd res)) results)).
Proof.
  unfold _similar_posts. split; [by intros ->|].
  intros art -> Hnb. unfold get_similar_posts. rewrite Hnb.
  assert (nonempty (chars text) = true) as ->.
  { unfold nonblank in Hnb. by destruct (chars text). }
  simpl negb. simpl orb. cbv iota.
  rewrite <- mapR_map_fusion. apply mapR_ext. intros idx.
  destruct (index (index_df art) idx) as [row|]; simpl; [|done].
  by destruct (index _ idx).
Qed.

End ServingRetrieval.

Section ServingRetrievalExamples.
Import PyStr Num Retriever Serving.
Local Open Scope R_scope.
(** The examples run the code with the stable sort. *)
Local Existing Instance stable_sort.

Lemma serving_retrieval_agrees_with_retriever_witness :
  _similar_posts Examples.demo_predictor "layoffs" 3 = Ok [] /\
  _similar_posts Examples.retrieving_predictor "layoffs" 3 =
    (do results <- get_similar_posts Examples.twin_artifacts "layoffs" 3;
     Ok (map (fun res =>
                (idx_company (fst res), idx_post_url (fst res),
                 string_of_list_ascii (take 160 (chars (idx_post_url (fst res)))),
                 snd res)) results)).
Proof.
  split.
  - apply (serving_retrieval_agrees_with_retriever Examples.demo_predictor "layoffs" 3).
    reflexivity.
  - apply (proj2 (serving_retrieval_agrees_with_retriever
                    Examples.retrieving_predictor "layoffs" 3)
                 Examples.twin_artifacts); reflexivity.
Defined.

End ServingRetrievalExamples.


(** * Further properties of the explanations *)

Section Contributions.
Import Num Retriever RetrieverSpec Models Explain.
Local Open Scope R_scope.

Context {NP : ArgSort}.

(** The products [data * coefs[indices]] when every stored column has a
    coefficient. *)
Lemma contributions_total (entries : list (nat * R)) (coefs : list R) :
  Forall (fun e => (fst e < length coefs)%nat) entries ->
  mapR (fun e => do c <- index coefs (fst e); Ok (snd e * c)) entries
  = Ok (map (fun e => snd e * nth (fst e) coefs 0) entries).
Proof.
  induction 1 as [|e entries He _ IH]; simpl; [done|].
  destruct (lookup_lt_is_Some_2 coefs (fst e) He) as [c Hc].
  unfold index at 1. rewrite Hc. simpl. rewrite IH. simpl.
  by rewrite (nth_lookup_Some _ _ 0 _ Hc).
Qed.

Lemma StronglySorted_map_inv {A B : Type} (f : A -> B) (Rel : B -> B -> Prop)
    (l : list A) :
  StronglySorted (fun x y => Rel (f x) (f y)) l -> StronglySorted Rel (map f l).
Proof.
  induction 1 as [|x l _ IH Hx]; simpl; constructor; [done|].
  apply Forall_map. exact Hx.
Qed.

(** What [top_contributions_from_vec] returns. *)
Lemma top_contributions_spec
    (width : nat) (entries : list (nat * R)) (coefs : list R)
    (feature_names : list string) (top_k : Z) :
  (width <> length coefs ->
   top_contributions_from_vec width entries coefs feature_names top_k = Ok []) /\
  (width = length coefs ->
   Forall (fun e => (fst e < length coefs)%nat /\
                    (fst e < length feature_names)%nat) entries ->
   (0 <= top_k)%Z ->
   exists order out,
     top_contributions_from_vec width entries coefs feature_names top_k = Ok out /\
     length out = Nat.min (Z.to_nat top_k) (length entries) /\
     NoDup order /\
     Forall2 (fun i c =>
                exists col v w,
                  entries !! i = Some (col, v) /\ coefs !! col = Some w /\
                  feature_names !! col = Some (ngram c) /\ weight c = v * w)
             order out /\
     StronglySorted (fun a b => Rabs (weight b) <= Rabs (weight a)) out /\
     (forall j col v c,
        entries !! j = Some (col, v) -> ~ In j order -> In c out ->
        Rabs (v * nth col coefs 0) <= Rabs (weight c))).
Proof.
  unfold top_contributions_from_vec. split.
  - intros Hw. apply Nat.eqb_neq in Hw. by rewrite Hw.
  - intros Hw Hcols Hk. apply Nat.eqb_eq in Hw. rewrite Hw. simpl negb. cbv iota.
    destruct entries as [|e0 entries'] eqn:Hent.
    { exists [], []. simpl. split; [done|]. split; [by rewrite Nat.min_0_r|].
      split; [constructor|]. split; [constructor|]. split; [constructor|].
      intros j col v c Hj. by rewrite lookup_nil in Hj. }
    rewrite <- Hent in *.
    rewrite contributions_total
      by (eapply Forall_impl; [exact Hcols|]; simpl; tauto).
    simpl rbind.
    remember (map (fun e => snd e * nth (fst e) coefs 0) entries) as contributions
      eqn:Hcontr.
    assert (length contributions = length entries) as Hlc
      by (subst contributions; by rewrite length_map).
    set (sims := map Rabs contributions).
    assert (length sims = length entries) as Hls
      by (unfold sims; by rewrite length_map).
    destruct (top_indices_spec sims top_k Hk) as (Hlen & Hnd & Hrange & Hsorted & Hcross).
    unfold top_indices in *. set (order := slice_to top_k (rev (argsort sims))) in *.
    assert (contributions <> []) as Hne.
    { intros Hnil. rewrite Hnil, Hent in Hlc. done. }
    pose (item := fun i => {| ngram := nth (fst (nth i entries (0%nat, 0))) feature_names ""%string;
                               weight := nth i contributions 0 |}).
    assert (mapR (fun i => do e <- index entries i;
                           do name <- index feature_names (fst e);
                           do w <- index contributions i;
                           Ok {| ngram := name; weight := w |}) order
            = Ok (map item order)) as Hmap.
    { clear Hlen Hnd Hsorted Hcross. induction Hrange as [|i order' Hi _ IH];
        cbn [mapR map]; [done|]. rewrite Hls in Hi.
      destruct (lookup_lt_is_Some_2 entries i Hi) as [e He].
      assert (fst e < length feature_names)%nat as Hcol.
      { rewrite Forall_forall in Hcols. apply Hcols.
        by eapply list_elem_of_lookup_2. }
      destruct (lookup_lt_is_Some_2 feature_names (fst e) Hcol) as [name Hname].
      unfold index at 1 2 3. rewrite He. cbn [rbind]. cbn [fst]. rewrite Hname.
      cbn [rbind].
      destruct (contributions !! i) as [w|] eqn:Hw';
        [|apply lookup_ge_None in Hw'; lia].
      cbn [rbind]. rewrite IH. cbn [rbind].
      f_equal. f_equal. unfold item.
      rewrite (nth_lookup_Some _ _ (0%nat, 0) _ He).
      rewrite (nth_lookup_Some _ _ ""%string _ Hname).
      by rewrite (nth_lookup_Some _ _ 0 _ Hw'). }
    assert (forall X : result (list Contribution),
              match contributions with [] => Ok [] | _ :: _ => X end = X) as ->
      by (intros X; by destruct contributions).
    rewrite Hmap. exists order, (map item order).
    split; [done|]. split; [by rewrite length_map, Hlen, Hls|].
    split; [done|].
    assert (forall i, (i < length entries)%nat ->
              nth i sims 0 = Rabs (nth i contributions 0)) as Hsim.
    { intros i Hi. unfold sims.
      transitivity (nth i (map Rabs contributions) (Rabs 0));
        [by rewrite Rabs_R0|apply map_nth]. }
    split; [|split].
    + apply Forall2_fmap_r, Forall_Forall2_diag, Forall_forall. intros i Hi.
      rewrite Forall_forall in Hrange. specialize (Hrange i Hi). rewrite Hls in Hrange.
      destruct (lookup_lt_is_Some_2 entries i Hrange) as [[col v] He].
      assert ((col < length coefs)%nat /\ (col < length feature_names)%nat) as [Hc1 Hc2].
      { rewrite Forall_forall in Hcols.
        apply (Hcols (col, v)). by eapply list_elem_of_lookup_2. }
      destruct (lookup_lt_is_Some_2 coefs col Hc1) as [w Hw'].
      destruct (lookup_lt_is_Some_2 feature_names col Hc2) as [name Hname].
      exists col, v, w. split; [done|]. split; [done|]. unfold item. simpl.
      rewrite (nth_lookup_Some _ _ (0%nat, 0) _ He). simpl.
      rewrite (nth_lookup_Some _ _ ""%string _ Hname). split; [done|].
      rewrite Hcontr.
      assert (map (fun e => snd e * nth (fst e) coefs 0) entries !! i
              = Some (v * w)) as Hci.
      { rewrite list_lookup_fmap, He. simpl.
        by rewrite (nth_lookup_Some _ _ 0 _ Hw'). }
      by rewrite (nth_lookup_Some _ _ 0 _ Hci).
    + apply StronglySorted_map_inv. simpl.
      assert (Forall (fun i => (i < length entries)%nat) order) as Hr'
        by (by rewrite <- Hls).
      clear Hmap Hlen Hnd Hcross Hrange.
      induction Hsorted as [|i l _ IH Hi]; [constructor|].
      inversion Hr' as [|? ? Hil Hrl]; subst. constructor; [by apply IH|].
      rewrite Forall_forall in Hi, Hrl. apply Forall_forall. intros j Hj.
      specialize (Hi j Hj). specialize (Hrl j Hj).
      rewrite <- !Hsim by done. lra.
    + intros j col v c Hj Hnot Hc. apply in_map_iff in Hc as (i & <- & Hi).
      assert (j < length entries)%nat as Hjl by (by eapply lookup_lt_Some).
      assert (In i order) as Hi' by done.
      rewrite Forall_forall in Hrange.
      assert (i < length entries)%nat as Hil
        by (rewrite <- Hls; apply Hrange; by apply list_elem_of_In).
      assert (nth j sims 0 <= nth i sims 0) as Hrank
        by (apply Hcross; [done|lia|done]).
      simpl. rewrite <- (Hsim i Hil).
      assert (nth j sims 0 = Rabs (v * nth col coefs 0)) as <-.
      { rewrite (Hsim j Hjl). f_equal. rewrite Hcontr.
        apply nth_lookup_Some with (d := 0). by rewrite list_lookup_fmap, Hj. }
      lra.
Qed.

(** X9. [top_contributions_from_vec] on a row whose stored columns all
    have a coefficient and a feature name: it returns min(top_k, stored
    entries) contributions, each the stored value times the coefficient
    of its column under that column's feature name, no stored entry
    twice, in descending order of absolute weight, and every entry left
    out weighs at most as much, in absolute value, as every entry
    returned. When the row width differs from the number of coefficients
    it returns the empty list. *)
Theorem top_contributions_are_ranked_by_magnitude
    (width : nat) (entries : list (nat * R)) (coefs : list R)
    (feature_names : list string) (top_k : Z) :
  (width <> length coefs ->
   top_contributions_from_vec width entries coefs feature_names top_k = Ok []) /\
  (width = length coefs ->
   Forall (fun e => (fst e < length coefs)%nat /\
                    (fst e < length feature_names)%nat) entries ->
   (0 <= top_k)%Z ->
   exists order out,
     top_contributions_from_vec width entries coefs feature_names top_k = Ok out /\
     length out = Nat.min (Z.to_nat top_k) (length entries) /\
     NoDup order /\
     Forall2 (fun i c =>
                exists col v w,
                  entries !! i = Some (col, v) /\ coefs !! col = Some w /\
                  feature_names !! col = Some (ngram c) /\ weight c = v * w)
             order out /\
     StronglySorted (fun a b => Rabs (weight b) <= Rabs (weight a)) out /\
     (forall j col v c,
        entries !! j = Some (col, v) -> ~ In j order -> In c out ->
        Rabs (v * nth col coefs 0) <= Rabs (weight c))).
Proof. apply top_contributions_spec. Qed.

End Contributions.

Section ContributionsExamples.
Import Num Retriever RetrieverSpec Models Explain.
Local Open Scope R_scope.
(** The examples run the code with the stable sort. *)
Local Existing Instance stable_sort.

Lemma top_contributions_are_ranked_by_magnitude_witness :
  top_contributions_from_vec 3 [(0%nat, 1)] [2; 1] ["a"; "b"]%string 8 = Ok [] /\
  exists order out,
    top_contributions_from_vec 2 [(1%nat, 1); (0%nat, 3)] [2; -5] ["a"; "b"]%string 1
    = Ok out /\
    length out = 1%nat /\ NoDup order /\
    Forall2 (fun i c =>
               exists col v w,
                 [(1%nat, 1); (0%nat, 3)] !! i = Some (col, v) /\
                 [2; -5] !! col = Some w /\
                 ["a"; "b"]%string !! col = Some (ngram c) /\ weight c = v * w)
            order out /\
    StronglySorted (fun a b => Rabs (weight b) <= Rabs (weight a)) out /\
    (forall j col v c,
       [(1%nat, 1); (0%nat, 3)] !! j = Some (col, v) -> ~ In j order -> In c out ->
       Rabs (v * nth col [2; -5] 0) <= Rabs (weight c)).
Proof.
  split.
  - apply (top_contributions_are_ranked_by_magnitude 3 [(0%nat, 1)] [2; 1]
             ["a"; "b"]%string 8). simpl. lia.
  - apply (top_contributions_are_ranked_by_magnitude 2 [(1%nat, 1); (0%nat, 3)]
             [2; -5] ["a"; "b"]%string 1); [reflexivity| |lia].
    constructor; [simpl; lia|]. constructor; [simpl; lia|constructor].
Defined.

End ContributionsExamples.


(** * Further properties of the serving facade *)

Section Entropy.
Import Num Serving.
Local Open Scope R_scope.

Lemma ln_le_minus_1 (y : R) : 0 < y -> ln y <= y - 1.
Proof.
  intros Hy. pose proof (exp_ineq1_le (ln y)) as H. rewrite exp_ln in H by done. lra.
Qed.

(** One term of the entropy sum against its share of [ln c]. *)
Lemma entropy_term_bound (c p : R) :
  0 < c -> 0 < p -> - (p * ln p) <= p * ln c + (/ c - p).
Proof.
  intros Hc Hp.
  assert (0 < / (c * p)) as Hy by (apply Rinv_0_lt_compat; nra).
  pose proof (ln_le_minus_1 _ Hy) as H.
  rewrite ln_Rinv in H by nra. rewrite ln_mult in H by done.
  assert (p * (- (ln c + ln p)) <= p * (/ (c * p) - 1)) as H'
    by (apply Rmult_le_compat_l; lra).
  replace (p * (/ (c * p) - 1)) with (/ c - p) in H' by (field; lra).
  lra.
Qed.

Lemma entropy_sum_bound (c : R) (l : list R) :
  0 < c -> Forall (fun p => 0 < p) l ->
  - sum_R (map (fun p => p * ln p) l)
  <= ln c * sum_R l + (INR (length l) * / c - sum_R l).
Proof.
  intros Hc. induction 1 as [|p l Hp _ IH].
  - simpl. lra.
  - cbn [map sum_R fold_right length]. change (fold_right Rplus 0) with sum_R.
    rewrite S_INR. pose proof (entropy_term_bound c p Hc Hp). lra.
Qed.

Lemma entropy_sum_nonneg (l : list R) :
  Forall (fun p => 0 < p <= 1) l -> 0 <= - sum_R (map (fun p => p * ln p) l).
Proof.
  induction 1 as [|p l [Hp Hp1] _ IH]; simpl; [lra|].
  change (fold_right Rplus 0) with sum_R.
  assert (ln p <= 0).
  { destruct (Req_dec p 1) as [->|]; [rewrite ln_1; lra|].
    rewrite <- ln_1. left. apply ln_increasing; lra. }
  nra.
Qed.

Lemma sum_R_map_mult_r (f : R -> R) (k : R) (l : list R) :
  sum_R (map (fun p => f p * k) l) = sum_R (map f l) * k.
Proof.
  induction l as [|p l IH]; simpl; [lra|].
  change (fold_right Rplus 0) with sum_R in *. rewrite IH. lra.
Qed.

(** X10. [_entropy] is never negative, and on a distribution with n >= 1
    entries it is at most log2 n; on the empty distribution it is 0. *)
Theorem entropy_is_between_zero_and_log2_of_size (dist : PyDict.pydict R) :
  0 <= _entropy dist /\
  (dist = [] -> _entropy dist = 0) /\
  (dist <> [] -> _entropy dist <= ln (INR (length dist)) / ln 2).
Proof.
  pose proof ln_2_pos as Hln2.
  assert (0 < / ln 2) as Hinv by (by apply Rinv_0_lt_compat).
  destruct (decide (dist = [])) as [->|Hne].
  { unfold _entropy. simpl. split; [lra|]. split; [intros _; lra|done]. }
  assert (forall kv : string * R, 1e-12 <= Rmin 1 (Rmax 1e-12 (snd kv)) <= 1) as Hone_clip.
  { intros kv. unfold Rmin, Rmax. repeat destruct (Rle_dec _ _); lra. }
  assert (0 < sum_R (map (fun kv : string * R => Rmin 1 (Rmax 1e-12 (snd kv))) dist))
    as Htot.
  { destruct dist as [|kv0 dist']; [done|]. simpl.
    change (fold_right Rplus 0) with sum_R.
    assert (0 <= sum_R (map (fun kv : string * R => Rmin 1 (Rmax 1e-12 (snd kv))) dist')).
    { apply sum_R_nonneg. apply Forall_map, Forall_forall. intros kv _. simpl.
      specialize (Hone_clip kv). lra. }
    specialize (Hone_clip kv0). lra. }
  assert (0 < INR (length dist)) as Hn.
  { destruct dist as [|kv0 dist']; [done|]. simpl length. rewrite S_INR.
    pose proof (pos_INR (length dist')). lra. }
  unfold _entropy.
  set (clipped := map (fun kv : string * R => Rmin 1 (Rmax 1e-12 (snd kv))) dist) in *.
  set (total := sum_R clipped) in *.
  set (probs := map (fun p => p / total) clipped).
  assert (Forall (fun q => 1e-12 <= q <= 1) clipped) as Hclip.
  { unfold clipped. apply Forall_map, Forall_forall. intros kv _. apply Hone_clip. }
  assert (sum_R (map (fun p => p * (ln p / ln 2)) probs)
          = sum_R (map (fun p => p * ln p) probs) * / ln 2) as Hsum.
  { rewrite <- sum_R_map_mult_r. f_equal. apply map_ext. intros p.
    unfold Rdiv. lra. }
  rewrite Hsum.
  assert (Forall (fun p => 0 < p <= 1) probs) as Hprobs.
  { unfold probs. apply Forall_map, Forall_forall. intros q Hq. simpl.
    rewrite Forall_forall in Hclip. pose proof (Hclip q Hq) as [Hq1 Hq2].
    assert (q <= total).
    { unfold total. apply sum_R_ge_member; [|by apply list_elem_of_In].
      apply Forall_forall. intros x Hx. specialize (Hclip x Hx). lra. }
    split; [apply Rdiv_lt_0_compat; lra|].
    apply (Rmult_le_reg_r total); [done|].
    unfold Rdiv. rewrite Rmult_assoc, Rinv_l by lra. lra. }
  assert (sum_R probs = 1) as Hone.
  { unfold probs. rewrite sum_R_map_div. fold total. field. lra. }
  assert (length probs = length dist) as Hlen
    by (unfold probs, clipped; by rewrite !length_map).
  replace (- (sum_R (map (fun p => p * ln p) probs) * / ln 2))
    with ((- sum_R (map (fun p => p * ln p) probs)) * / ln 2) by lra.
  split; [|split; [done|intros _]].
  - pose proof (entropy_sum_nonneg probs Hprobs).
    apply Rmult_le_pos; lra.
  - pose proof (entropy_sum_bound (INR (length dist)) probs Hn) as Hb.
    rewrite Hone, Hlen in Hb.
    assert (INR (length dist) * / INR (length dist) = 1) as Hnn by (field; lra).
    rewrite Hnn in Hb.
    assert (Forall (fun p => 0 < p) probs) as Hpos
      by (eapply Forall_impl; [exact Hprobs|]; simpl; intros; lra).
    specialize (Hb Hpos).
    unfold Rdiv. apply Rmult_le_compat_r; lra.
Qed.

Lemma entropy_is_between_zero_and_log2_of_size_witness :
  _entropy [] = 0 /\
  _entropy [("Founder/Executive"%string, 0.5); ("Other"%string, 0.5)]
  <= ln (INR 2) / ln 2.
Proof.
  split.
  - apply (entropy_is_between_zero_and_log2_of_size []). reflexivity.
  - apply (entropy_is_between_zero_and_log2_of_size
             [("Founder/Executive"%string, 0.5); ("Other"%string, 0.5)]).
    discriminate.
Defined.

End Entropy.


Section AnalyzeShape.
Import PyStr Num Utils Models Explain Serving ServingSpec.
Local Open Scope R_scope.

Context {NP : ArgSort}.

(** The fields of a response that [analyze] derives from the others. *)
Lemma analyze_derived_fields (self : Predictor) (request : AnalyzeRequest)
    (resp : AnalyzeResponse) :
  analyze self request = Ok resp ->
  nonempty (chars (analyzed_text request)) = true /\
  input_text resp = analyzed_text request /\
  role_distribution_top5 resp
  = take 5 (sorted_desc snd (role_distribution_all resp)) /\
  risk_level resp = risk_level_of (max_value (risk_probs resp)) /\
  exists role_dist,
    _role_distribution self (analyzed_text request) = Ok role_dist /\
    role_distribution_all resp
    = map (fun kv => (fst kv, py_round (snd kv * 100) 4)) role_dist /\
    confidence_entropy resp = _entropy role_dist.
Proof.
  unfold analyze. fold (analyzed_text request).
  destruct (nonempty (chars (analyzed_text request))); simpl; [|done].
  destruct (_narratives self _) as [narratives|]; simpl; [|done].
  destruct (_role_distribution self _) as [role_dist|]; simpl; [|done].
  destruct (_risk_model_preds self _) as [[pm pred]|]; simpl; [|done].
  destruct (_risk_top_ngrams self _) as [risk_top|]; simpl; [|done].
  intros [= <-]. simpl. repeat split; try done. by exists role_dist.
Qed.

Lemma fold_left_Rmax_le (xs : list R) (x b : R) :
  x <= b -> Forall (fun y => y <= b) xs -> fold_left Rmax xs x <= b.
Proof.
  intros Hx Hxs. revert x Hx. induction Hxs as [|y xs Hy _ IH]; intros x Hx;
    simpl; [done|].
  apply IH. unfold Rmax. destruct (Rle_dec x y); lra.
Qed.

Lemma max_value_upper (d : gmap string R) (c : string) (p : R) :
  d !! c = Some p -> p <= max_value d.
Proof.
  intros Hc. unfold max_value.
  assert (In p (map_to_list d).*2) as Hin.
  { apply list_elem_of_In, list_elem_of_fmap. exists (c, p). split; [done|].
    by apply elem_of_map_to_list. }
  destruct ((map_to_list d).*2) as [|x xs]; [done|].
  destruct Hin as [->|Hin]; [apply fold_left_Rmax_ge_init|].
  by apply fold_left_Rmax_ge_elem.
Qed.

Lemma max_value_attained (d : gmap string R) :
  d <> ∅ -> exists c, d !! c = Some (max_value d).
Proof.
  intros Hne. unfold max_value.
  destruct (map_to_list d) as [|[c0 p0] l] eqn:Hl.
  { by apply map_to_list_empty_iff in Hl. }
  simpl.
  pose proof (fold_left_Rmax_in l.*2 p0) as Hin.
  change (p0 :: l.*2) with ((c0, p0) :: l).*2 in Hin. rewrite <- Hl in Hin.
  apply list_elem_of_In, list_elem_of_fmap in Hin as ([c p] & Hp & Hcp).
  simpl in Hp. exists c.
  apply elem_of_map_to_list in Hcp. rewrite Hcp. f_equal. symmetry. exact Hp.
Qed.

Lemma max_value_empty : max_value ∅ = 0.
Proof. unfold max_value. by rewrite map_to_list_empty. Qed.

Lemma max_value_ge (d : gmap string R) (t : R) :
  0 < t ->
  (t <= max_value d <-> exists c p, d !! c = Some p /\ t <= p).
Proof.
  intros Ht. split.
  - intros Hle. destruct (decide (d = ∅)) as [->|Hne].
    + rewrite max_value_empty in Hle. lra.
    + destruct (max_value_attained d Hne) as [c Hc]. by exists c, (max_value d).
  - intros (c & p & Hc & Hp). pose proof (max_value_upper d c p Hc). lra.
Qed.

(** X11. The risk level of a response reads the largest class
    probability alone: it is "High" exactly when some class has
    probability at least 0.75, "Low" exactly when every class is below
    0.55, and "Medium" otherwise. *)
Theorem analyze_risk_level_follows_largest_probability
    (self : Predictor) (request : AnalyzeRequest) (resp : AnalyzeResponse) :
  analyze self request = Ok resp ->
  (risk_level resp = "High"%string <->
   exists c p, risk_probs resp !! c = Some p /\ 0.75 <= p) /\
  (risk_level resp = "Low"%string <->
   forall c p, risk_probs resp !! c = Some p -> p < 0.55) /\
  (risk_level resp = "Medium"%string <->
   (exists c p, risk_probs resp !! c = Some p /\ 0.55 <= p) /\
   (forall c p, risk_probs resp !! c = Some p -> p < 0.75)).
Proof.
  intros Hresp. apply analyze_derived_fields in Hresp as (_ & _ & _ & -> & _).
  set (d := risk_probs resp).
  pose proof (max_value_ge d 0.75 ltac:(lra)) as H75.
  pose proof (max_value_ge d 0.55 ltac:(lra)) as H55.
  assert ((forall c p, d !! c = Some p -> p < 0.55) <-> ~ 0.55 <= max_value d) as HL.
  { rewrite H55. split.
    - intros H (c & p & Hc & Hp). specialize (H c p Hc). lra.
    - intros H c p Hc. destruct (Rlt_or_le p 0.55) as [|Hge]; [done|].
      exfalso. apply H. by exists c, p. }
  assert ((forall c p, d !! c = Some p -> p < 0.75) <-> ~ 0.75 <= max_value d) as HM.
  { rewrite H75. split.
    - intros H (c & p & Hc & Hp). specialize (H c p Hc). lra.
    - intros H c p Hc. destruct (Rlt_or_le p 0.75) as [|Hge]; [done|].
      exfalso. apply H. by exists c, p. }
  rewrite HL, HM, <- H75, <- H55. unfold risk_level_of, Rleb.
  destruct (Rle_dec 0.75 (max_value d)), (Rle_dec 0.55 (max_value d));
    repeat split; try done; try (intros; lra); try tauto; intros [? ?]; lra.
Qed.

End AnalyzeShape.

Section AnalyzeShapeExamples.
Import PyStr Num Utils Models Explain Serving ServingSpec.
Local Open Scope R_scope.
(** The examples run the code with the stable sort. *)
Local Existing Instance stable_sort.

Lemma analyze_risk_level_follows_largest_probability_witness :
  exists resp,
    analyze Examples.demo_predictor
            {| post_text := "layoffs"; company_hint := None |} = Ok resp /\
    (risk_level resp = "High"%string <->
     exists c p, risk_probs resp !! c = Some p /\ 0.75 <= p).
Proof.
  destruct (proj2 demo_analysis) as (resp & Hresp & _).
  exists resp. split; [exact Hresp|].
  exact (proj1 (analyze_risk_level_follows_largest_probability
                  Examples.demo_predictor _ resp Hresp)).
Defined.

End AnalyzeShapeExamples.


Section RoleShares.
Import PyStr Num Utils Models Explain Serving ServingSpec.
Local Open Scope R_scope.

Context {NP : ArgSort}.

Lemma softmax_rows_Ok_range (arr out : list (list R)) :
  softmax_rows arr = Ok out -> Forall (Forall (fun p => 0 <= p <= 1)) out.
Proof.
  intros H. apply mapR_Ok_Forall2 in H.
  induction H as [|row orow arr out Hrow _ IH]; constructor; [|done].
  assert (row <> []) as Hne by (intros ->; done).
  destruct (softmax_row_spec row Hne) as (m & out' & _ & Hs & _ & _ & Hpos & _).
  rewrite Hrow in Hs. by injection Hs as <-.
Qed.

Lemma scipy_softmax_row_range (row out : list R) :
  scipy_softmax_row row = Ok out -> Forall (fun p => 0 <= p <= 1) out.
Proof.
  unfold scipy_softmax_row. destruct (row_max row) as [m|] eqn:Hm; simpl; [|done].
  intros [= <-]. fold (exp_shifted m row).
  pose proof (exp_shifted_sum_ge_1 m row (row_max_member row m Hm)) as Hsum.
  pose proof (exp_shifted_nonneg m row) as Hnn.
  apply Forall_map, Forall_forall. intros e He. simpl.
  assert (0 <= e) as Hepos by (rewrite Forall_forall in Hnn; by apply Hnn).
  assert (e <= sum_R (exp_shifted m row)) as Hle
    by (apply sum_R_ge_member; [done|by apply list_elem_of_In]).
  split; [apply Rmult_le_pos; [done|left; apply Rinv_0_lt_compat; lra]|].
  apply (Rmult_le_reg_r (sum_R (exp_shifted m row))); [lra|].
  unfold Rdiv. rewrite Rmult_assoc, Rinv_l by lra. lra.
Qed.

Lemma bucket_pairs_inv (probs : list R) (buckets : list string) :
  forall k pairs,
    mapR (fun ib : nat * string => do p <- index probs (fst ib); Ok (snd ib, p))
         (imap (fun idx bucket => ((k + idx)%nat, bucket)) buckets) = Ok pairs ->
    pairs.*1 = buckets /\ Forall (fun kv => In (snd kv) probs) pairs.
Proof.
  induction buckets as [|b bs IH]; intros k pairs; simpl.
  - by intros [= <-].
  - destruct (index probs (k + 0)) as [p|] eqn:Hp; simpl; [|done].
    rewrite (imap_ext _ (fun idx bucket => ((S k + idx)%nat, bucket)))
      by (intros i x _; simpl; f_equal; lia).
    destruct (mapR _ _) as [rest|] eqn:Hrest; simpl; [|done].
    intros [= <-]. destruct (IH (S k) rest Hrest) as [Hk Hv]. split.
    + rewrite fmap_cons. cbn [fst]. by rewrite Hk.
    + constructor; [|done]. simpl. unfold index in Hp.
      destruct (probs !! (k + 0)%nat) as [p'|] eqn:Hl; [|done].
      injection Hp as <-. apply list_elem_of_In. by eapply list_elem_of_lookup_2.
Qed.

Lemma set_fresh {V : Type} (d : PyDict.pydict V) (k : string) (v : V) :
  k ∉ d.*1 -> PyDict.set k v d = d ++ [(k, v)].
Proof.
  induction d as [|[k' v'] d IH]; simpl; intros Hk; [done|].
  destruct (String.eqb k k') eqn:E.
  - apply String.eqb_eq in E as ->. exfalso. apply Hk. apply list_elem_of_here.
  - rewrite IH; [done|]. intros Hin. apply Hk. by apply list_elem_of_further.
Qed.

Lemma of_pairs_keys {V : Type} (pairs : list (string * V)) (k : string) :
  k ∈ (PyDict.of_pairs pairs).*1 <-> k ∈ pairs.*1.
Proof.
  unfold PyDict.of_pairs.
  assert (forall d : PyDict.pydict V,
            k ∈ (foldl (fun d kv => PyDict.set (fst kv) (snd kv) d) d pairs).*1
            <-> k ∈ d.*1 \/ k ∈ pairs.*1) as H.
  { induction pairs as [|[k0 v0] pairs IH]; intros d; simpl.
    - rewrite elem_of_nil. tauto.
    - rewrite IH, set_keys, elem_of_cons. simpl.
      destruct (bool_decide (k0 ∈ d.*1)) eqn:Hin.
      + apply bool_decide_eq_true in Hin. split; [tauto|].
        intros [?|[->|?]]; tauto.
      + rewrite elem_of_app, list_elem_of_singleton. tauto. }
  rewrite H, elem_of_nil. tauto.
Qed.

Lemma of_pairs_distinct {V : Type} (pairs : list (string * V)) :
  NoDup pairs.*1 -> PyDict.of_pairs pairs = pairs.
Proof.
  unfold PyDict.of_pairs.
  assert (forall d : PyDict.pydict V,
            NoDup (d ++ pairs).*1 ->
            foldl (fun d kv => PyDict.set (fst kv) (snd kv) d) d pairs = d ++ pairs)
    as H.
  { induction pairs as [|[k0 v0] pairs IH]; intros d Hnd; simpl.
    - by rewrite app_nil_r.
    - rewrite set_fresh.
      + rewrite IH; [by rewrite <- app_assoc|]. by rewrite <- app_assoc.
      + rewrite fmap_app in Hnd. apply NoDup_app in Hnd as (_ & Hdisj & _).
        intros Hin. apply (Hdisj k0 Hin). simpl. apply list_elem_of_here. }
  intros Hnd. by apply (H []).
Qed.

(** What [_role_distribution] returns when it returns. *)
Lemma role_distribution_shape (self : Predictor) (text : string)
    (role_dist : PyDict.pydict R) :
  _role_distribution self text = Ok role_dist ->
  NoDup role_dist.*1 /\
  (forall b, b ∈ role_dist.*1 <-> b ∈ role_buckets self) /\
  (NoDup (role_buckets self) -> role_dist.*1 = role_buckets self) /\
  Forall (fun kv => 0 <= snd kv <= 1) role_dist.
Proof.
  unfold _role_distribution.
  destruct (predict _ _) as [predicted|] eqn:Hpred; simpl; [|done].
  destruct (if needs_softmax _ then _ else _) as [probs|] eqn:Hprobs; simpl; [|done].
  destruct (mapR _ _) as [pairs|] eqn:Hpairs; simpl; [|done].
  intros [= <-].
  assert (Forall (fun p => 0 <= p <= 1) probs) as Hrange.
  { destruct (needs_softmax (concat predicted)).
    - by apply scipy_softmax_row_range in Hprobs.
    - injection Hprobs as <-. unfold predict in Hpred.
      destruct (pipeline (role_model self)); [|done].
      apply softmax_rows_Ok_range in Hpred. by apply Forall_concat. }
  destruct (bucket_pairs_inv probs (role_buckets self) 0 pairs Hpairs) as [Hk Hv].
  split; [apply of_pairs_NoDup|]. split; [|split].
  - intros b. by rewrite of_pairs_keys, Hk.
  - intros Hnd. rewrite of_pairs_distinct; [done|]. by rewrite Hk.
  - apply of_pairs_Forall. eapply Forall_impl; [exact Hv|]. simpl.
    intros kv Hin. rewrite Forall_forall in Hrange. apply Hrange.
    by apply list_elem_of_In.
Qed.

Lemma round_half_even_range (y : R) (n : Z) :
  0 <= y <= IZR n -> (0 <= round_half_even y <= n)%Z.
Proof.
  intros [Hy0 Hyn]. unfold round_half_even.
  pose proof (base_Int_part y) as [Hf1 Hf2].
  assert (frac_part y = y - IZR (Int_part y)) as Hfrac by done.
  set (f := Int_part y) in *.
  assert (0 <= f)%Z as Hf0.
  { apply le_IZR. destruct (Z_lt_le_dec f 0) as [Hneg|]; [|by apply IZR_le].
    assert (IZR f <= -1) by (apply IZR_le; lia). lra. }
  assert (f <= n)%Z as Hfn by (apply le_IZR; lra).
  destruct (Rlt_dec (frac_part y) (1 / 2)); [lia|].
  assert (f < n)%Z as Hlt.
  { destruct (Z.eq_dec f n) as [Heq|]; [|lia]. exfalso.
    rewrite Heq in Hfrac. lra. }
  destruct (Rlt_dec (1 / 2) (frac_part y)); [lia|].
  destruct (Z.even f); lia.
Qed.

Lemma py_round_percent (p : R) : 0 <= p <= 1 -> 0 <= py_round (p * 100) 4 <= 100.
Proof.
  intros Hp. unfold py_round.
  assert (10 ^ 4 = 10000) as -> by (simpl; lra).
  pose proof (round_half_even_range (p * 100 * 10000) 1000000) as H.
  destruct H as [H0 H1]; [split; [nra|]|].
  { replace (IZR 1000000) with 1000000 by done. nra. }
  apply IZR_le in H0, H1.
  replace (IZR 1000000) with 1000000 in H1 by done.
  replace (IZR 0) with 0 in H0 by done.
  split; unfold Rdiv; lra.
Qed.

(** X12. The role shares of a response: one entry per role bucket of the
    metadata, no bucket twice, in the metadata's order when that names no
    bucket twice, and every share a percentage between 0 and 100. *)
Theorem analyze_role_shares_are_percentages
    (self : Predictor) (request : AnalyzeRequest) (resp : AnalyzeResponse) :
  analyze self request = Ok resp ->
  NoDup (role_distribution_all resp).*1 /\
  (forall b, b ∈ (role_distribution_all resp).*1 <-> b ∈ role_buckets self) /\
  (NoDup (role_buckets self) ->
   (role_distribution_all resp).*1 = role_buckets self) /\
  Forall (fun e => 0 <= snd e <= 100) (role_distribution_all resp).
Proof.
  intros Hresp.
  destruct (analyze_derived_fields _ _ _ Hresp)
    as (_ & _ & _ & _ & role_dist & Hrd & Hall & _).
  destruct (role_distribution_shape _ _ _ Hrd) as (Hnd & Hkeys & Hord & Hrange).
  assert ((role_distribution_all resp).*1 = role_dist.*1) as Hfst.
  { rewrite Hall. by rewrite <- list_fmap_compose. }
  rewrite Hfst. split; [done|]. split; [done|]. split; [done|].
  rewrite Hall. apply Forall_map. eapply Forall_impl; [exact Hrange|].
  simpl. intros kv Hkv. apply py_round_percent. lra.
Qed.

Lemma insert_desc_sorted {A : Type} (key : A -> R) (x : A) (l : list A) :
  StronglySorted (fun a b => key b <= key a) l ->
  StronglySorted (fun a b => key b <= key a) (insert_desc key x l).
Proof.
  induction 1 as [|y l Hl IH Hy]; simpl; [repeat constructor|].
  destruct (Rle_dec (key y) (key x)) as [Hle|Hgt].
  - constructor; [by constructor|]. constructor; [done|].
    eapply Forall_impl; [exact Hy|]. simpl. intros z Hz. lra.
  - constructor; [done|].
    rewrite (insert_desc_Permutation key x l). constructor; [lra|done].
Qed.

Lemma sorted_desc_sorted {A : Type} (key : A -> R) (l : list A) :
  StronglySorted (fun a b => key b <= key a) (sorted_desc key l).
Proof.
  unfold sorted_desc. induction l as [|x l IH]; simpl; [constructor|].
  by apply insert_desc_sorted.
Qed.

(** The first [n] of a descending sort: they are sorted, they come from
    the list, and every entry the cut leaves out is at most every entry
    it keeps. *)
Lemma take_sorted_desc {A : Type} (key : A -> R) (n : nat) (l : list A) :
  let top := take n (sorted_desc key l) in
  length top = Nat.min n (length l) /\
  StronglySorted (fun a b => key b <= key a) top /\
  (exists rest, top ++ rest ≡ₚ l /\
                forall a b, In a top -> In b rest -> key b <= key a).
Proof.
  intros top. pose proof (sorted_desc_sorted key l) as Hs.
  pose proof (sorted_desc_Permutation key l) as Hp.
  rewrite <- (take_drop n (sorted_desc key l)) in Hs, Hp. fold top in Hs, Hp.
  apply StronglySorted_app_inv in Hs as (Hs1 & _ & Hcross).
  split; [|split; [done|]].
  - unfold top. rewrite length_take. by rewrite (Permutation_length (sorted_desc_Permutation key l)).
  - exists (drop n (sorted_desc key l)). split; [done|]. exact Hcross.
Qed.

(** X13. The top five of a response are the five largest role shares
    (all of them when there are fewer), in descending order of share;
    every bucket left out has a share no larger than any bucket listed. *)
Theorem analyze_top5_are_the_largest_shares
    (self : Predictor) (request : AnalyzeRequest) (resp : AnalyzeResponse) :
  analyze self request = Ok resp ->
  length (role_distribution_top5 resp)
  = Nat.min 5 (length (role_distribution_all resp)) /\
  StronglySorted (fun a b => snd b <= snd a) (role_distribution_top5 resp) /\
  (forall e, In e (role_distribution_top5 resp) -> In e (role_distribution_all resp)) /\
  (forall a b, In a (role_distribution_top5 resp) ->
               In b (role_distribution_all resp) ->
               ~ In b (role_distribution_top5 resp) -> snd b <= snd a).
Proof.
  intros Hresp.
  destruct (analyze_derived_fields _ _ _ Hresp) as (_ & _ & Htop & _).
  rewrite Htop.
  destruct (take_sorted_desc snd 5 (role_distribution_all resp))
    as (Hlen & Hsorted & rest & Hperm & Hcross).
  split; [done|]. split; [done|]. split.
  - intros e He. apply list_elem_of_In. rewrite <- Hperm. apply elem_of_app. left.
    by apply list_elem_of_In.
  - intros a b Ha Hb Hnot. apply Hcross; [done|].
    apply list_elem_of_In in Hb. rewrite <- Hperm in Hb.
    apply elem_of_app in Hb as [Hb|Hb]; [|by apply list_elem_of_In].
    exfalso. apply Hnot. by apply list_elem_of_In.
Qed.

End RoleShares.

Section RoleSharesExamples.
Import PyStr Num Utils Models Explain Serving ServingSpec.
Local Open Scope R_scope.
(** The examples run the code with the stable sort. *)
Local Existing Instance stable_sort.

Lemma analyze_role_shares_are_percentages_witness :
  exists resp,
    analyze Examples.demo_predictor
            {| post_text := "layoffs"; company_hint := None |} = Ok resp /\
    (role_distribution_all resp).*1 = ["Founder/Executive"; "Recruiter/HR"]%string /\
    Forall (fun e => 0 <= snd e <= 100) (role_distribution_all resp).
Proof.
  destruct (proj2 demo_analysis) as (resp & Hresp & _).
  exists resp. split; [exact Hresp|].
  destruct (analyze_role_shares_are_percentages Examples.demo_predictor _ resp Hresp)
    as (_ & _ & Hord & Hrange).
  split; [|exact Hrange]. apply Hord.
  apply NoDup_cons. split; [|apply NoDup_singleton].
  intros Hin. apply list_elem_of_singleton in Hin. discriminate.
Defined.

Lemma analyze_top5_are_the_largest_shares_witness :
  exists resp,
    analyze Examples.demo_predictor
            {| post_text := "layoffs"; company_hint := None |} = Ok resp /\
    length (role_distribution_top5 resp)
    = Nat.min 5 (length (role_distribution_all resp)) /\
    StronglySorted (fun a b => snd b <= snd a) (role_distribution_top5 resp).
Proof.
  destruct (proj2 demo_analysis) as (resp & Hresp & _).
  exists resp. split; [exact Hresp|].
  destruct (analyze_top5_are_the_largest_shares Examples.demo_predictor _ resp Hresp)
    as (Hlen & Hsorted & _).
  by split.
Defined.

End RoleSharesExamples.


Section RiskPrediction.
Import PyStr Num Utils Models Explain Serving ServingSpec.
Local Open Scope R_scope.

(** The scan of [np.argmax]: having seen [pre] with its first maximum
    [best] at [best_i], it ends on the first maximum of [pre ++ l]. *)
Lemma argmax_from_spec (l : list R) :
  forall (pre : list R) (best_i : nat) (best : R),
    pre !! best_i = Some best ->
    Forall (fun q => q <= best) pre ->
    (forall j q, (j < best_i)%nat -> pre !! j = Some q -> q < best) ->
    exists p,
      (pre ++ l) !! argmax_from best_i best (length pre) l = Some p /\
      Forall (fun q => q <= p) (pre ++ l) /\
      (forall j q, (j < argmax_from best_i best (length pre) l)%nat ->
                   (pre ++ l) !! j = Some q -> q < p).
Proof.
  induction l as [|x l IH]; intros pre best_i best Hbest Hall Hfirst; simpl.
  - exists best. rewrite app_nil_r. done.
  - assert (pre ++ x :: l = (pre ++ [x]) ++ l) as Heq by (by rewrite <- app_assoc).
    assert (S (length pre) = length (pre ++ [x])) as Hlen
      by (rewrite length_app; simpl; lia).
    rewrite Heq, Hlen. destruct (Rlt_dec best x) as [Hlt|Hge].
    + apply IH.
      * rewrite lookup_app_r by lia. by rewrite Nat.sub_diag.
      * apply Forall_app. split; [|constructor; [lra|constructor]].
        eapply Forall_impl; [exact Hall|]. simpl. intros; lra.
      * intros j q Hj Hq. rewrite lookup_app_l in Hq by done.
        rewrite Forall_forall in Hall.
        assert (q <= best) by (apply Hall; by eapply list_elem_of_lookup_2). lra.
    + apply IH.
      * rewrite lookup_app_l; [done|]. by eapply lookup_lt_Some.
      * apply Forall_app. split; [done|]. constructor; [lra|constructor].
      * intros j q Hj Hq. apply (Hfirst j q Hj).
        rewrite lookup_app_l in Hq; [done|].
        apply lookup_lt_Some in Hbest. lia.
Qed.

Lemma argmax_spec (l : list R) (i : nat) :
  argmax l = Ok i ->
  exists p, l !! i = Some p /\ Forall (fun q => q <= p) l /\
            (forall j q, (j < i)%nat -> l !! j = Some q -> q < p).
Proof.
  destruct l as [|x l]; simpl; [done|]. intros [= <-].
  apply (argmax_from_spec l [x] 0%nat x); [done|constructor; [lra|constructor]|].
  intros j q Hj. lia.
Qed.

Lemma foldl_insert_lookup_nth (m : gmap string R) (l : list (string * R))
    (i : nat) (k : string) (v : R) :
  NoDup l.*1 -> l !! i = Some (k, v) ->
  foldl (fun m cp => <[fst cp := snd cp]> m) m l !! k = Some v.
Proof.
  revert m i. induction l as [|[k0 v0] l IH]; intros m i Hnd Hi; [done|].
  rewrite fmap_cons in Hnd. apply NoDup_cons in Hnd as [Hk0 Hnd]. simpl.
  destruct i as [|i]; simpl in Hi.
  - injection Hi as -> ->.
    rewrite foldl_insert_lookup_notin by (intros Hin; by apply Hk0, list_elem_of_In).
    by rewrite lookup_insert_eq.
  - by eapply IH.
Qed.

Lemma zip_fst_sublist {A B : Type} (l : list A) (k : list B) :
  (zip l k).*1 `sublist_of` l.
Proof.
  revert k. induction l as [|x l IH]; intros k; [done|].
  destruct k as [|y k]; simpl; [apply sublist_nil_l|].
  apply sublist_skip, IH.
Qed.

(** X14. The class [_risk_model_preds] predicts is the model's first
    class of largest probability: no class has a larger probability and
    every class listed before it has a smaller one; when the model names
    no class twice and has a probability for each, the probability map
    holds that largest probability under the predicted class. A model
    with an empty class list is predicted "Helpful". *)
Theorem risk_prediction_is_first_most_probable_class
    (self : Predictor) (text : string) (pm : gmap string R) (pred : string) :
  _risk_model_preds self text = Ok (pm, pred) ->
  let classes := default expected_classes (rm_classes (risk_model self)) in
  let probs := rm_predict_proba (risk_model self) text in
  (classes = [] -> pred = "Helpful"%string) /\
  (classes <> [] ->
   exists i p,
     classes !! i = Some pred /\ probs !! i = Some p /\
     Forall (fun q => q <= p) probs /\
     (forall j q, (j < i)%nat -> probs !! j = Some q -> q < p) /\
     (NoDup classes -> pm !! pred = Some p)).
Proof.
  intros H. cbv zeta. unfold _risk_model_preds in H.
  set (classes := default expected_classes (rm_classes (risk_model self))) in *.
  set (probs := rm_predict_proba (risk_model self) text) in *.
  destruct (argmax probs) as [i|] eqn:Hi; simpl in H; [|done].
  destruct (argmax_spec probs i Hi) as (p & Hp & Hmax & Hfirst).
  split.
  - intros Hnil. rewrite Hnil in H. simpl in H. by injection H as _ <-.
  - intros Hne. destruct classes as [|c cs] eqn:Hc; [done|]. rewrite <- Hc in *.
    unfold index in H. destruct (classes !! i) as [cls|] eqn:Hcls; simpl in H; [|done].
    injection H as <- <-. exists i, p. repeat split; try done.
    intros Hnd. apply (foldl_insert_lookup_nth _ _ i); [|by apply lookup_zip_with_Some; exists cls, p].
    eapply sublist_NoDup; [exact Hnd|apply zip_fst_sublist].
Qed.

Lemma risk_prediction_is_first_most_probable_class_witness :
  exists pm pred,
    _risk_model_preds Examples.demo_predictor "layoffs" = Ok (pm, pred) /\
    exists i p,
      ["Harmful"; "Helpful"]%string !! i = Some pred /\
      [0.2; 0.8] !! i = Some p /\
      Forall (fun q => q <= p) [0.2; 0.8] /\
      (forall j q, (j < i)%nat -> [0.2; 0.8] !! j = Some q -> q < p) /\
      (NoDup ["Harmful"; "Helpful"]%string -> pm !! pred = Some p).
Proof.
  destruct (risk_model_preds_total Examples.demo_predictor "layoffs")
    as (pm & pred & Hp); [discriminate|simpl; lia|].
  exists pm, pred. split; [exact Hp|].
  apply (risk_prediction_is_first_most_probable_class
           Examples.demo_predictor "layoffs" pm pred Hp).
  discriminate.
Defined.

End RiskPrediction.


Section ChangedPhrases.
Import PyStr Num Utils Models Explain Serving ServingSpec.
Local Open Scope R_scope.

Lemma merge_phrases_keys (sign : R) (phrases : list Contribution) (k : string) :
  forall merged,
    k ∈ (merge_phrases sign phrases merged).*1 <->
    k ∈ merged.*1 \/ k ∈ map ngram phrases.
Proof.
  unfold merge_phrases. induction phrases as [|item rest IH]; intros merged; simpl.
  - rewrite elem_of_nil. tauto.
  - rewrite IH, set_keys, elem_of_cons.
    destruct (bool_decide (ngram item ∈ merged.*1)) eqn:Hin.
    + apply bool_decide_eq_true in Hin. split; [tauto|].
      intros [?|[->|?]]; tauto.
    + rewrite elem_of_app, list_elem_of_singleton. tauto.
Qed.

(** X15. The changed phrases of a comparison: at most ten, no phrase
    twice, each a phrase of the baseline or of the variant evidence, its
    weight the sum of its variant weights minus the sum of its baseline
    weights, in descending order of absolute weight; a phrase of either
    evidence that is not listed has a shift no larger, in absolute value,
    than that of any listed phrase. *)
Theorem changed_phrases_are_the_largest_weight_shifts
    (baseline_phrases variant_phrases : list Contribution) :
  let out := _compare_top_phrases baseline_phrases variant_phrases in
  let shift := fun k => weight_sum k variant_phrases - weight_sum k baseline_phrases in
  (length out <= 10)%nat /\
  NoDup (map ngram out) /\
  Forall (fun c => In (ngram c) (map ngram (baseline_phrases ++ variant_phrases)) /\
                   weight c = shift (ngram c)) out /\
  StronglySorted (fun a b => Rabs (weight b) <= Rabs (weight a)) out /\
  (forall k c, In k (map ngram (baseline_phrases ++ variant_phrases)) ->
               ~ In k (map ngram out) -> In c out ->
               Rabs (shift k) <= Rabs (weight c)).
Proof.
  intros out shift. unfold out, _compare_top_phrases.
  set (m1 := merge_phrases (-1) baseline_phrases []).
  set (merged := merge_phrases 1 variant_phrases m1).
  set (items := map (fun kv => {| ngram := fst kv; weight := snd kv |}) merged).
  assert (NoDup merged.*1) as Hnd.
  { apply merge_phrases_NoDup, merge_phrases_NoDup. constructor. }
  assert (map ngram items = merged.*1) as Hkeys.
  { unfold items. rewrite map_map. simpl. done. }
  assert (forall k, k ∈ merged.*1 <->
                    In k (map ngram (baseline_phrases ++ variant_phrases))) as Hmem.
  { intros k. unfold merged, m1. rewrite !merge_phrases_keys, elem_of_nil.
    rewrite map_app, in_app_iff, <- !list_elem_of_In. tauto. }
  assert (Forall (fun c => In (ngram c) (map ngram (baseline_phrases ++ variant_phrases)) /\
                           weight c = shift (ngram c)) items) as Hitems.
  { unfold items. apply Forall_map, Forall_forall. intros [k v] Hin. simpl. split.
    - apply Hmem. apply list_elem_of_fmap. by exists (k, v).
    - apply list_elem_of_In in Hin.
      pose proof (get_In merged k v Hnd Hin) as Hget.
      pose proof (merge_phrases_get 1 variant_phrases k m1) as H1.
      pose proof (merge_phrases_get (-1) baseline_phrases k []) as H2.
      fold merged in H1. fold m1 in H2. rewrite Hget in H1. simpl in *.
      unfold shift. lra. }
  unfold slice_to. change (0 <=? 10)%Z with true. cbv iota.
  change (Z.to_nat 10) with 10%nat.
  destruct (take_sorted_desc (fun x => Rabs (weight x)) 10 items)
    as (Hlen & Hsorted & rest & Hperm & Hcross).
  set (top := take 10 (sorted_desc (fun x => Rabs (weight x)) items)) in *.
  assert (NoDup (map ngram (top ++ rest))) as Hnd'.
  { rewrite Hperm, Hkeys. exact Hnd. }
  split; [rewrite Hlen; lia|]. split; [|split; [|split; [done|]]].
  - rewrite map_app in Hnd'. by apply NoDup_app in Hnd' as [? _].
  - apply Forall_forall. intros c Hc. rewrite Forall_forall in Hitems.
    apply Hitems. rewrite <- Hperm. apply elem_of_app. by left.
  - intros k c Hk Hnot Hc.
    apply Hmem in Hk. rewrite <- Hkeys in Hk.
    apply list_elem_of_fmap in Hk as (item & -> & Hitem).
    rewrite <- Hperm in Hitem. apply elem_of_app in Hitem as [Hitem|Hitem].
    { exfalso. apply Hnot. apply in_map. by apply list_elem_of_In. }
    assert (weight item = shift (ngram item)) as <-.
    { rewrite Forall_forall in Hitems. apply Hitems. rewrite <- Hperm.
      apply elem_of_app. by right. }
    apply Hcross; [done|by apply list_elem_of_In].
Qed.

End ChangedPhrases.

Section BlankText.
Import PyStr Num Utils Models Explain Serving ServingSpec.

Context {NP : ArgSort}.

Lemma rstrip_head_nonspace (p : ascii -> bool) (c : ascii) (s : list ascii) :
  p c = false -> exists r, rstrip p (c :: s) = c :: r.
Proof.
  intros Hc. simpl. destruct (rstrip p s) as [|d r].
  - rewrite Hc. by exists [].
  - by exists (d :: r).
Qed.

Lemma lstrip_result_head (p : ascii -> bool) (s : list ascii) :
  match lstrip p s with [] => True | c :: _ => p c = false end.
Proof.
  induction s as [|c s IH]; simpl; [done|].
  destruct (p c) eqn:E; [done|]. exact E.
Qed.

Lemma strip_idem (s : list ascii) : strip (strip s) = strip s.
Proof.
  unfold strip.
  assert (lstrip isspace (rstrip isspace (lstrip isspace s))
          = rstrip isspace (lstrip isspace s)) as ->; [|apply rstrip_idem].
  pose proof (lstrip_result_head isspace s) as Hhead.
  destruct (lstrip isspace s) as [|c t]; [done|].
  destruct (rstrip_head_nonspace isspace c t Hhead) as [r ->].
  simpl. by rewrite Hhead.
Qed.

(** X16. Blank text is rejected and surrounding white space is ignored:
    [analyze] raises its [ValueError] on a request whose text is blank;
    two requests whose texts agree after trimming, with the same company
    hint, get the same answer (the request metadata of clock, latency and
    identifier apart); the text a response echoes is the trimmed
    text, and trimming it again changes nothing. [compare] raises when
    either of its two texts is blank. *)
Theorem blank_text_is_rejected_and_padding_ignored
    (self : Predictor) (request : AnalyzeRequest) :
  (nonblank (post_text request) = false ->
   analyze self request
   = Raise (ValueError "post_text cannot be empty or whitespace")) /\
  (forall request',
     strip (chars (post_text request')) = strip (chars (post_text request)) ->
     company_hint request' = company_hint request ->
     analyze self request' = analyze self request) /\
  (forall resp,
     analyze self request = Ok resp ->
     chars (input_text resp) = strip (chars (post_text request)) /\
     strip (chars (input_text resp)) = chars (input_text resp)) /\
  (forall baseline_text variant_text,
     nonblank baseline_text = false \/ nonblank variant_text = false ->
     exists e, compare self baseline_text variant_text = Raise e).
Proof.
  split; [|split; [|split]].
  - intros Hb. unfold analyze. rewrite chars_string_of_list.
    unfold nonblank in Hb. by rewrite Hb.
  - intros request' Hs Hh. unfold analyze. by rewrite Hs, Hh.
  - intros resp Hresp. apply analyze_derived_fields in Hresp as (_ & -> & _).
    unfold analyzed_text. rewrite chars_string_of_list. split; [done|].
    apply strip_idem.
  - intros baseline_text variant_text Hb. unfold compare, new_request.
    unfold nonblank in Hb. destruct Hb as [Hb|Hb].
    + rewrite Hb. by eexists.
    + destruct (nonempty (strip (chars baseline_text))); cbn [negb rbind];
        [rewrite Hb|]; by eexists.
Qed.

End BlankText.

Section BlankTextExamples.
Import PyStr Num Utils Models Explain Serving ServingSpec.
(** The examples run the code with the stable sort. *)
Local Existing Instance stable_sort.

Lemma blank_text_is_rejected_and_padding_ignored_witness :
  analyze Examples.demo_predictor {| post_text := "  "; company_hint := None |}
  = Raise (ValueError "post_text cannot be empty or whitespace") /\
  analyze Examples.demo_predictor {| post_text := " layoffs "; company_hint := None |}
  = analyze Examples.demo_predictor {| post_text := "layoffs"; company_hint := None |} /\
  (exists e, compare Examples.demo_predictor "layoffs" " " = Raise e).
Proof.
  destruct (blank_text_is_rejected_and_padding_ignored Examples.demo_predictor
              {| post_text := "  "; company_hint := None |}) as (Hblank & _).
  destruct (blank_text_is_rejected_and_padding_ignored Examples.demo_predictor
              {| post_text := "layoffs"; company_hint := None |})
    as (_ & Hpad & _ & Hcmp).
  split; [|split].
  - apply Hblank. reflexivity.
  - apply Hpad; reflexivity.
  - apply Hcmp. right. reflexivity.
Defined.

End BlankTextExamples.


(** * Properties of the training tables *)

Section RequiredColumns.
Import PyStr Utils DataLoader.

Lemma List_filter_nil_iff {A : Type} (f : A -> bool) (l : list A) :
  List.filter f l = [] <-> Forall (fun x => f x = false) l.
Proof.
  induction l as [|x l IH]; simpl.
  - split; [constructor|done].
  - destruct (f x) eqn:E.
    + split; [done|]. intros H. inversion H; congruence.
    + rewrite IH. split; [by constructor|]. intros H. by inversion H.
Qed.

(** X17. [ensure_columns] passes exactly when every required column is a
    column of the table; otherwise it raises a [ValueError] whose message
    names the table and lists, in the order required, the required
    columns the table lacks, and no other. *)
Theorem ensure_columns_names_missing_columns
    (columns required : list string) (df_name : string) :
  (ensure_columns columns required df_name = Ok tt <->
   Forall (fun col => col ∈ columns) required) /\
  (forall e,
     ensure_columns columns required df_name = Raise e ->
     exists missing,
       e = ValueError ("Missing required columns in " +:+ df_name +:+ ": "
                       +:+ repr_list missing) /\
       missing <> [] /\ sublist missing required /\
       forall col, In col missing <-> In col required /\ col ∉ columns).
Proof.
  unfold ensure_columns.
  set (missing := List.filter (fun col => negb (bool_decide (col ∈ columns))) required).
  assert (missing = [] <-> Forall (fun col => col ∈ columns) required) as Hnil.
  { unfold missing. rewrite List_filter_nil_iff. apply Forall_iff. intros col.
    rewrite negb_false_iff. apply bool_decide_eq_true. }
  assert (forall col, In col missing <-> In col required /\ col ∉ columns) as Hmem.
  { intros col. unfold missing. rewrite filter_In, negb_true_iff.
    by rewrite bool_decide_eq_false. }
  split.
  - rewrite <- Hnil. destruct missing; [done|]. split; [done|discriminate].
  - intros e He. exists missing. destruct missing as [|m ms] eqn:Hm; [done|].
    injection He as <-. split; [done|]. split; [done|]. split; [|done].
    rewrite <- Hm. apply List_filter_sublist.
Qed.

Lemma ensure_columns_names_missing_columns_witness :
  exists missing,
    ValueError "Missing required columns in acme_comments_enriched_full.csv: ['tone', 'narrative']"
    = ValueError ("Missing required columns in acme_comments_enriched_full.csv: "
                  +:+ repr_list missing) /\
    missing <> [] /\ sublist missing COMMENT_REQUIRED_COLUMNS /\
    forall col, In col missing <->
                In col COMMENT_REQUIRED_COLUMNS /\
                col ∉ ["post_url"; "comment_text"; "author_headline"; "role_bucket";
                       "sentiment"]%string.
Proof.
  apply (ensure_columns_names_missing_columns
           ["post_url"; "comment_text"; "author_headline"; "role_bucket";
            "sentiment"]%string
           COMMENT_REQUIRED_COLUMNS "acme_comments_enriched_full.csv").
  reflexivity.
Defined.

End RequiredColumns.


Section Targets.
Import PyStr Num Utils DataLoader.
Local Open Scope R_scope.

Lemma key_eqb_eq (a b : group_key) : key_eqb a b = true <-> a = b.
Proof.
  destruct a as [a1 a2], b as [b1 b2]. unfold key_eqb. simpl.
  rewrite andb_true_iff, !String.eqb_eq. split; [by intros [-> ->]|by intros [= -> ->]].
Qed.

Lemma insert_key_Permutation (k : group_key) (l : list group_key) :
  insert_key k l ≡ₚ k :: l.
Proof.
  induction l as [|k' l IH]; simpl; [done|].
  destruct (key_leb k k'); [done|]. rewrite IH. apply Permutation_swap.
Qed.

Lemma group_keys_Permutation (keys : list group_key) :
  group_keys keys ≡ₚ remove_dups keys.
Proof.
  unfold group_keys. induction (remove_dups keys) as [|k l IH]; simpl; [done|].
  by rewrite insert_key_Permutation, IH.
Qed.

Lemma group_keys_NoDup (keys : list group_key) : NoDup (group_keys keys).
Proof. rewrite group_keys_Permutation. apply NoDup_remove_dups. Qed.

Lemma group_keys_elem_of (keys : list group_key) (k : group_key) :
  k ∈ group_keys keys <-> k ∈ keys.
Proof. rewrite group_keys_Permutation. apply elem_of_remove_dups. Qed.

Lemma count_rows_cons {Row : Type} (p : Row -> bool) (r : Row) (df : list Row) :
  count_rows p (r :: df) = ((if p r then 1 else 0) + count_rows p df)%nat.
Proof. unfold count_rows. simpl. by destruct (p r). Qed.

Lemma count_rows_pos {Row : Type} (p : Row -> bool) (df : list Row) (r : Row) :
  In r df -> p r = true -> (0 < count_rows p df)%nat.
Proof.
  intros Hin Hp. unfold count_rows.
  assert (In r (List.filter p df)) as H by (by apply filter_In).
  destruct (List.filter p df); [done|simpl; lia].
Qed.

(** Every row falls under exactly one label of a duplicate-free list
    that holds its label. *)
Lemma one_label_per_row (labels : list string) (x : string) :
  NoDup labels -> x ∈ labels ->
  fold_right Nat.add 0%nat
    (map (fun b => if String.eqb x b then 1%nat else 0%nat) labels) = 1%nat.
Proof.
  induction 1 as [|b labels Hb Hnd IH]; intros Hx; [by apply elem_of_nil in Hx|].
  simpl. destruct (String.eqb x b) eqn:E.
  - apply String.eqb_eq in E as ->.
    assert (fold_right Nat.add 0%nat
              (map (fun b0 => if String.eqb b b0 then 1%nat else 0%nat) labels) = 0%nat)
      as ->; [|done].
    clear IH Hnd Hx. induction labels as [|b' labels IH]; [done|]. simpl.
    destruct (String.eqb b b') eqn:E'.
    + apply String.eqb_eq in E' as ->. exfalso. apply Hb, list_elem_of_here.
    + apply IH. intros Hin. apply Hb. by apply list_elem_of_further.
  - apply String.eqb_neq in E. apply IH.
    apply elem_of_cons in Hx as [->|Hx]; [done|done].
Qed.

Lemma sum_nat_plus {A : Type} (f g : A -> nat) (l : list A) :
  fold_right Nat.add 0%nat (map (fun b => (f b + g b)%nat) l)
  = (fold_right Nat.add 0%nat (map f l) + fold_right Nat.add 0%nat (map g l))%nat.
Proof. induction l as [|b l IH]; simpl; [done|]. rewrite IH. lia. Qed.

Lemma sum_nat_zero {A : Type} (l : list A) :
  fold_right Nat.add 0%nat (map (fun _ => 0%nat) l) = 0%nat.
Proof. induction l as [|b l IH]; simpl; [done|]. exact IH. Qed.

(** The counts per label of a group add up to the size of the group. *)
Lemma counts_add_up {Row : Type} (labels : list string) (label_of : Row -> string)
    (p : Row -> bool) (df : list Row) :
  NoDup labels -> (forall r, label_of r ∈ labels) ->
  fold_right Nat.add 0%nat
    (map (fun b => count_rows (fun r => p r && String.eqb (label_of r) b) df) labels)
  = count_rows p df.
Proof.
  intros Hnd Hall. induction df as [|r df IH].
  - unfold count_rows. simpl. apply sum_nat_zero.
  - rewrite (map_ext _ (fun b =>
               ((if p r && String.eqb (label_of r) b then 1 else 0)
                + count_rows (fun r0 => p r0 && String.eqb (label_of r0) b) df)%nat))
      by (intros b;
          apply (count_rows_cons (fun r0 => p r0 && String.eqb (label_of r0) b) r df)).
    rewrite sum_nat_plus, IH, count_rows_cons. f_equal.
    destruct (p r); simpl.
    + apply one_label_per_row; [done|apply Hall].
    + apply sum_nat_zero.
Qed.

Lemma sum_nat_ge_member (l : list nat) (n : nat) :
  In n l -> (n <= fold_right Nat.add 0%nat l)%nat.
Proof.
  induction l as [|m l IH]; simpl; [done|]. intros [->|H]; [lia|].
  specialize (IH H). lia.
Qed.

Lemma sum_R_shares (l : list nat) (t : R) :
  sum_R (map (fun n => INR n / t) l) = INR (fold_right Nat.add 0%nat l) / t.
Proof.
  induction l as [|n l IH]; simpl.
  - unfold Rdiv. lra.
  - change (fold_right Rplus 0) with sum_R. rewrite IH, plus_INR. unfold Rdiv. lra.
Qed.

Lemma ROLE_BUCKETS_NoDup : NoDup ROLE_BUCKETS.
Proof. apply (bool_decide_unpack _). by vm_compute. Qed.

Lemma working_role_bucket_known (c : comment) : working_role_bucket c ∈ ROLE_BUCKETS.
Proof.
  unfold working_role_bucket. destruct (bool_decide _) eqn:E.
  - by apply bool_decide_eq_true in E.
  - apply (bool_decide_unpack _). by vm_compute.
Qed.

Lemma group_has_row (comments_df : list comment) (k : group_key) :
  k ∈ map comment_key comments_df ->
  (0 < count_rows (fun c => key_eqb (comment_key c) k) comments_df)%nat.
Proof.
  intros Hk. apply list_elem_of_fmap in Hk as (c & -> & Hc).
  apply (count_rows_pos _ _ c); [by apply list_elem_of_In|by apply key_eqb_eq].
Qed.

(** X18. The role-share targets: [_compute_role_distribution] returns
    one row per (company, canonical URL) pair that has a comment, no pair
    twice; a row holds one share per role bucket, the number of the
    pair's comments in that bucket (a missing or unknown bucket counting
    as "Other") over the number of the pair's comments; each share lies
    between 0 and 1 and the shares of a row add up to 1. *)
Theorem role_targets_are_distributions (comments_df : list comment) :
  let out := _compute_role_distribution comments_df in
  NoDup (map fst out) /\
  (forall k, k ∈ map fst out <-> k ∈ map comment_key comments_df) /\
  Forall (fun row =>
            length (snd row) = length ROLE_BUCKETS /\
            Forall (fun x => 0 <= x <= 1) (snd row) /\
            sum_R (snd row) = 1 /\
            forall i b,
              ROLE_BUCKETS !! i = Some b ->
              snd row !! i
              = Some (INR (count_rows
                             (fun c => key_eqb (comment_key c) (fst row)
                                       && String.eqb (working_role_bucket c) b)
                             comments_df)
                      / INR (count_rows (fun c => key_eqb (comment_key c) (fst row))
                               comments_df))) out.
Proof.
  intros out. unfold out, _compute_role_distribution. cbv zeta.
  rewrite map_map. cbn [fst]. rewrite map_id.
  split; [apply group_keys_NoDup|]. split; [apply group_keys_elem_of|].
  apply Forall_map, Forall_forall. intros k Hk. cbv zeta. cbn [fst snd].
  apply (proj1 (group_keys_elem_of _ _)) in Hk. pose proof (group_has_row _ _ Hk) as Hpos.
  set (counts := map (fun b => count_rows
                                 (fun c => key_eqb (comment_key c) k
                                           && String.eqb (working_role_bucket c) b)
                                 comments_df) ROLE_BUCKETS).
  assert (fold_right Nat.add 0%nat counts
          = count_rows (fun c => key_eqb (comment_key c) k) comments_df) as Htot.
  { unfold counts. apply counts_add_up;
      [apply ROLE_BUCKETS_NoDup|apply working_role_bucket_known]. }
  rewrite Htot. set (size := count_rows _ comments_df) in *.
  assert ((size =? 0)%nat = false) as -> by (apply Nat.eqb_neq; lia).
  assert (0 < INR size) as Hsize by (apply lt_0_INR; lia).
  split; [unfold counts; by rewrite !length_map|]. split; [|split].
  - apply Forall_map, Forall_forall. intros n Hn. simpl.
    apply list_elem_of_In, sum_nat_ge_member in Hn. rewrite Htot in Hn.
    apply le_INR in Hn. pose proof (pos_INR n). split.
    + apply Rmult_le_pos; [done|]. left. by apply Rinv_0_lt_compat.
    + apply (Rmult_le_reg_r (INR size)); [done|].
      unfold Rdiv. rewrite Rmult_assoc, Rinv_l by lra. lra.
  - rewrite sum_R_shares, Htot. field. lra.
  - intros i b Hb. unfold counts. rewrite !list_lookup_fmap, Hb. done.
Qed.

Lemma threshold_as_count (n d : nat) :
  (0 < d)%nat ->
  Rleb NARRATIVE_THRESHOLD (INR n / INR d) = (d <=? 10 * n)%nat.
Proof.
  intros Hd. assert (0 < INR d) as HdR by (apply lt_0_INR; lia).
  unfold NARRATIVE_THRESHOLD, Rleb.
  destruct (Rle_dec 0.10 (INR n / INR d)) as [Hle|Hgt].
  - symmetry. apply Nat.leb_le. apply INR_le. rewrite mult_INR.
    replace (INR 10) with 10 by (simpl; lra).
    apply (Rmult_le_compat_r (INR d)) in Hle; [|lra].
    unfold Rdiv in Hle. rewrite Rmult_assoc, Rinv_l in Hle by lra. lra.
  - symmetry. apply Nat.leb_gt. apply INR_lt. rewrite mult_INR.
    replace (INR 10) with 10 by (simpl; lra).
    apply Rnot_le_lt in Hgt.
    apply (Rmult_lt_compat_r (INR d)) in Hgt; [|lra].
    unfold Rdiv in Hgt. rewrite Rmult_assoc, Rinv_l in Hgt by lra. lra.
Qed.

(** X19. The narrative-flag targets. With comments, there is one row per
    (company, canonical URL) pair that has a comment, and the flag of a
    label is 1 exactly when at least one in ten of the pair's comments
    carries that label, comments with any other or no narrative counting
    in the total. Without comments (no table, or an empty one) there is
    one row per post, the flags of toxic_culture and burnout are both the
    comparison of the post's toxic/burnout percentage with 0.10 (0 when
    the percentage is missing) and the other three flags are 0. The
    second component says which of the two ways was taken. *)
Theorem narrative_targets_follow_the_ten_percent_rule
    {Post : Type} (posts_key : Post -> group_key) (pct_toxic_burnout : Post -> option R)
    (posts_df : list Post) (comments_df : option (list comment)) :
  let out := _compute_narrative_flags posts_key pct_toxic_burnout posts_df comments_df in
  (forall working,
     comments_df = Some working -> working <> [] ->
     snd out = true /\
     NoDup (map fst (fst out)) /\
     (forall k, k ∈ map fst (fst out) <-> k ∈ map comment_key working) /\
     Forall (fun row =>
               length (snd row) = length NARRATIVE_LABELS /\
               forall i label,
                 NARRATIVE_LABELS !! i = Some label ->
                 snd row !! i
                 = Some (if (count_rows (fun c => key_eqb (comment_key c) (fst row))
                               working
                             <=? 10 * count_rows
                                        (fun c => key_eqb (comment_key c) (fst row)
                                                  && String.eqb (working_narrative c) label)
                                        working)%nat
                         then 1%Z else 0%Z)) (fst out)) /\
  (comments_df = None \/ comments_df = Some [] ->
   snd out = false /\
   map fst (fst out) = map posts_key posts_df /\
   Forall2 (fun p row =>
              exists proxy,
                snd row = [proxy; proxy; 0%Z; 0%Z; 0%Z] /\
                (proxy = 1%Z <->
                 exists x, pct_toxic_burnout p = Some x /\ 0.10 <= x) /\
                (proxy = 0%Z \/ proxy = 1%Z)) posts_df (fst out)).
Proof.
  intros out. split.
  - intros working -> Hne. unfold out, _compute_narrative_flags.
    destruct working as [|c0 cs] eqn:Hw; [done|]. rewrite <- Hw. cbv zeta.
    cbn [fst snd].
    split; [done|]. rewrite map_map. cbn [fst]. rewrite map_id.
    split; [apply group_keys_NoDup|]. split; [apply group_keys_elem_of|].
    apply Forall_map, Forall_forall. intros k Hk. cbv zeta. cbn [fst snd].
    apply (proj1 (group_keys_elem_of _ _)) in Hk. pose proof (group_has_row _ _ Hk) as Hpos.
    split; [by rewrite length_map|].
    intros i label Hl. rewrite list_lookup_fmap, Hl. cbn [fmap option_fmap option_map].
    f_equal.
    set (d := count_rows (fun c => key_eqb (comment_key c) k) working) in *.
    assert ((d =? 0)%nat = false) as -> by (apply Nat.eqb_neq; lia).
    by rewrite threshold_as_count.
  - intros Hnone.
    assert (out = (map (fun p =>
                          let proxy :=
                            match pct_toxic_burnout p with
                            | Some x => if Rleb NARRATIVE_THRESHOLD x then 1%Z else 0%Z
                            | None => 0%Z
                            end in
                          (posts_key p, [proxy; proxy; 0%Z; 0%Z; 0%Z])) posts_df, false))
      as ->.
    { unfold out, _compute_narrative_flags. by destruct Hnone as [->| ->]. }
    simpl fst. simpl snd. split; [done|]. split; [by rewrite map_map|].
    apply Forall2_fmap_r, Forall_Forall2_diag, Forall_forall. intros p _. simpl.
    eexists. split; [done|]. unfold NARRATIVE_THRESHOLD, Rleb.
    destruct (pct_toxic_burnout p) as [x|].
    + destruct (Rle_dec 0.10 x); split.
      * split; [by exists x|done].
      * by right.
      * split; [done|]. intros (x' & [= <-] & ?). lra.
      * by left.
    + split; [|by left]. split; [done|]. by intros (x' & ? & ?).
Qed.

Lemma narrative_targets_follow_the_ten_percent_rule_witness :
  snd (_compute_narrative_flags (fun p : group_key * option R => fst p) snd
         [(("acme", "u1")%string, Some 0.3); (("acme", "u2")%string, None)]
         (Some []))
  = false /\
  snd (_compute_narrative_flags (fun p : group_key * option R => fst p) snd []
         (Some [ {| c_company := "acme"; c_post_url_clean := "u1";
                    role_bucket := CNaN; narrative := CStr "burnout" |} ]))
  = true.
Proof.
  split.
  - apply (narrative_targets_follow_the_ten_percent_rule
             (fun p : group_key * option R => fst p) snd
             [(("acme", "u1")%string, Some 0.3); (("acme", "u2")%string, None)]
             (Some [])). by right.
  - eapply (narrative_targets_follow_the_ten_percent_rule
              (fun p : group_key * option R => fst p) snd []
              (Some [ {| c_company := "acme"; c_post_url_clean := "u1";
                         role_bucket := CNaN; narrative := CStr "burnout" |} ]));
      [reflexivity|discriminate].
Defined.

Lemma company_sizes_lookup (companies : list string) (c : string) :
  company_sizes companies !! c
  = match count_rows (fun x => String.eqb x c) companies with
    | O => None
    | n => Some n
    end.
Proof.
  induction companies as [|x l IH]; simpl; [done|].
  rewrite count_rows_cons. destruct (String.eqb x c) eqn:E.
  - apply String.eqb_eq in E as ->. rewrite lookup_insert_eq, IH.
    by destruct (count_rows _ l).
  - apply String.eqb_neq in E. by rewrite lookup_insert_ne.
Qed.

Lemma count_rows_filter (f g : string -> bool) (l : list string) :
  count_rows f (List.filter g l) = count_rows (fun x => g x && f x) l.
Proof.
  unfold count_rows. induction l as [|x l IH]; simpl; [done|].
  destruct (g x); simpl; [|done]. destruct (f x); simpl; by rewrite IH.
Qed.

(** X20. The split manifest keeps the held-out company apart: the train
    counts have no entry for it, the test counts have an entry for no
    other company, and a company has an entry on its side exactly when
    the table has a row of it, the entry being the number of its rows. *)
Theorem manifest_keeps_the_holdout_apart (companies : list string) (holdout : string) :
  let m := _manifest_counts companies holdout in
  let rows_of := fun c => count_rows (fun x => String.eqb x c) companies in
  train m !! holdout = None /\
  (forall c, c <> holdout -> test m !! c = None) /\
  (forall c, c <> holdout ->
             train m !! c = if (rows_of c =? 0)%nat then None else Some (rows_of c)) /\
  test m !! holdout
  = if (rows_of holdout =? 0)%nat then None else Some (rows_of holdout).
Proof.
  intros m rows_of. unfold m, _manifest_counts. simpl.
  rewrite !company_sizes_lookup.
  assert (forall c (g : string -> bool), (forall x, (g x && String.eqb x c) = false) ->
            count_rows (fun x => String.eqb x c) (List.filter g companies) = 0%nat) as Hzero.
  { intros c g Hg. rewrite count_rows_filter. unfold count_rows.
    rewrite (proj2 (List_filter_nil_iff _ companies)); [done|].
    apply Forall_forall. intros x _. apply Hg. }
  assert (forall c (g : string -> bool),
            (forall x, String.eqb x c = true -> g x = true) ->
            count_rows (fun x => String.eqb x c) (List.filter g companies) = rows_of c)
    as Hsame.
  { intros c g Hg. rewrite count_rows_filter. unfold rows_of, count_rows. f_equal.
    apply filter_ext. intros x. destruct (String.eqb x c) eqn:E.
    - by rewrite (Hg x E).
    - by rewrite andb_false_r. }
  split; [|split; [|split]].
  - rewrite Hzero; [done|]. intros x. destruct (String.eqb x holdout); done.
  - intros c Hc. rewrite company_sizes_lookup. rewrite Hzero; [done|].
    intros x. destruct (String.eqb x holdout) eqn:E; [|done].
    apply String.eqb_eq in E as ->. simpl. by apply String.eqb_neq.
  - intros c Hc. rewrite company_sizes_lookup, Hsame.
    + by destruct (rows_of c).
    + intros x Hx. apply String.eqb_eq in Hx as ->.
      apply negb_true_iff. by apply String.eqb_neq.
  - rewrite Hsame; [by destruct (rows_of holdout)|done].
Qed.

Lemma manifest_keeps_the_holdout_apart_witness :
  train (_manifest_counts ["acme"; "meta"; "acme"]%string "meta") !! "meta"%string = None /\
  test (_manifest_counts ["acme"; "meta"; "acme"]%string "meta") !! "acme"%string = None /\
  train (_manifest_counts ["acme"; "meta"; "acme"]%string "meta") !! "acme"%string
  = Some 2%nat /\
  test (_manifest_counts ["acme"; "meta"; "acme"]%string "meta") !! "meta"%string
  = Some 1%nat.
Proof.
  destruct (manifest_keeps_the_holdout_apart ["acme"; "meta"; "acme"]%string "meta")
    as (H1 & H2 & H3 & H4).
  split; [exact H1|]. split; [by apply H2|]. split.
  - rewrite H3; [reflexivity|done].
  - rewrite H4. reflexivity.
Defined.

End Targets.


(** * Properties of the evaluation helpers *)

Section Evaluation.
Import Num Models Retriever RetrieverSpec Evaluate.
Local Open Scope R_scope.

Context {NP : ArgSort}.

(** X21. The number of cross-validation folds fits the companies: it is
    0 when fewer than two distinct companies are present, and otherwise
    the requested number brought into the range from 2 to the number of
    distinct companies, so never 1 and never more folds than companies. *)
Theorem effective_splits_fit_the_groups (groups : list string) (desired : Z) :
  let n := Z.of_nat (length (remove_dups groups)) in
  let splits := _effective_splits groups desired in
  ((n < 2)%Z -> splits = 0%Z) /\
  ((2 <= n)%Z ->
   (2 <= splits <= n)%Z /\
   ((2 <= desired <= n)%Z -> splits = desired) /\
   ((desired < 2)%Z -> splits = 2%Z) /\
   ((n < desired)%Z -> splits = n)).
Proof.
  intros n splits. unfold splits, _effective_splits. fold n.
  destruct (n <? 2)%Z eqn:E; [apply Z.ltb_lt in E|apply Z.ltb_ge in E];
    repeat split; intros; lia.
Qed.

Lemma top_terms_of_spec (feature_names : list string) (top_k : Z)
    (estimator : BinaryEstimator) :
  (0 <= top_k)%Z ->
  match estimator with
  | LogisticRegression coefs _ => (length coefs <= length feature_names)%nat
  | ConstantPredictor _ => True
  end ->
  exists terms,
    top_terms_of feature_names top_k estimator = Ok terms /\
    StronglySorted (fun a b => snd b <= snd a) terms /\
    match estimator with
    | ConstantPredictor _ => terms = []
    | LogisticRegression coefs _ =>
        length terms = Nat.min (Z.to_nat top_k) (length coefs) /\
        exists order,
          NoDup order /\
          Forall2 (fun i t => feature_names !! i = Some (fst t) /\
                              coefs !! i = Some (snd t)) order terms /\
          (forall j w t, coefs !! j = Some w -> ~ In j order -> In t terms ->
                         w <= snd t)
    end.
Proof.
  intros Hk Hlen. destruct estimator as [coefs b|y]; simpl.
  2:{ exists []. split; [done|]. split; [constructor|done]. }
  destruct (top_indices_spec coefs top_k Hk) as (Hl & Hnd & Hrange & Hsorted & Hcross).
  unfold top_indices in *. set (order := slice_to top_k (rev (argsort coefs))) in *.
  destruct (mapR_Forall2
              (fun i => do term <- index feature_names i;
                        do w <- index coefs i; Ok (term, w))
              (fun i t => feature_names !! i = Some (fst t) /\
                          coefs !! i = Some (snd t)) order) as (terms & Hterms & HF).
  { eapply Forall_impl; [exact Hrange|]. simpl. intros i Hi.
    destruct (lookup_lt_is_Some_2 feature_names i) as [name Hname]; [lia|].
    destruct (lookup_lt_is_Some_2 coefs i Hi) as [w Hw]. exists (name, w).
    unfold index. by rewrite Hname, Hw. }
  exists terms. split; [done|].
  assert (forall i t, feature_names !! i = Some (fst t) /\ coefs !! i = Some (snd t) ->
                      nth i coefs 0 = snd t) as Hnth.
  { intros i t [_ Hw]. by apply nth_lookup_Some. }
  split; [|split].
  - clear Hterms Hl Hnd Hrange Hcross.
    induction HF as [|i t order' terms' Hit HF' IH]; [constructor|].
    inversion Hsorted as [|? ? Hs' Hall]; subst. constructor; [by apply IH|].
    clear IH Hs' Hsorted. induction HF' as [|j u order'' terms'' Hju _ IH'];
      [constructor|].
    inversion Hall as [|? ? Hij Hall']; subst. constructor; [|by apply IH'].
    rewrite <- (Hnth i t Hit), <- (Hnth j u Hju). lra.
  - rewrite <- (Forall2_length _ _ _ HF). exact Hl.
  - exists order. split; [done|]. split; [done|].
    intros j w t Hj Hnot Ht.
    assert (exists i, In i order /\ coefs !! i = Some (snd t)) as (i & Hi & Hw).
    { clear -HF Ht. induction HF as [|i u order' terms' [_ Hiu] _ IH]; [done|].
      destruct Ht as [->|Ht].
      - exists i. split; [by left|done].
      - destruct (IH Ht) as (i' & Hi' & Hw'). exists i'. split; [by right|done]. }
    assert (j < length coefs)%nat as Hjl by (by eapply lookup_lt_Some).
    pose proof (Hcross i j Hi Hjl Hnot) as Hrank.
    rewrite <- (nth_lookup_Some _ _ 0 _ Hw), <- (nth_lookup_Some _ _ 0 _ Hj).
    lra.
Qed.

Lemma Forall2_same_keys {A B : Type} (P : string * A -> string * B -> Prop)
    (l : list (string * A)) (k : list (string * B)) :
  Forall2 (fun x y => fst y = fst x /\ P x y) l k -> k.*1 = l.*1.
Proof.
  induction 1 as [|x y l k [Hfst _] _ IH]; [done|].
  rewrite !fmap_cons. by rewrite Hfst, IH.
Qed.

(** X22. The top terms of a narrative model whose coefficient vectors
    are no longer than the feature names: every label that is paired with
    an estimator gets an entry and no other label does; the entry of a
    constant estimator is empty; the entry of a linear estimator holds
    min(top_k, coefficients) terms, each a feature name with its own
    coefficient, no feature twice, in descending order of coefficient,
    every coefficient left out being at most every coefficient listed. *)
Theorem top_ngrams_are_ranked_by_coefficient
    (model : NarrativeModel) (labels : list string) (top_k : Z) :
  (0 <= top_k)%Z ->
  Forall (fun est => match est with
                     | LogisticRegression coefs _ =>
                         (length coefs
                          <= length (get_feature_names_out (nm_tfidf model)))%nat
                     | ConstantPredictor _ => True
                     end) (nm_estimators model) ->
  exists results,
    extract_top_ngrams model labels top_k = Ok results /\
    NoDup results.*1 /\
    (forall label, label ∈ results.*1 <->
                   label ∈ (zip labels (nm_estimators model)).*1) /\
    Forall (fun entry =>
              StronglySorted (fun a b => snd b <= snd a) (snd entry) /\
              exists est,
                In (fst entry, est) (zip labels (nm_estimators model)) /\
                match est with
                | ConstantPredictor _ => snd entry = []
                | LogisticRegression coefs _ =>
                    length (snd entry) = Nat.min (Z.to_nat top_k) (length coefs) /\
                    exists order,
                      NoDup order /\
                      Forall2 (fun i t =>
                                 get_feature_names_out (nm_tfidf model) !! i
                                 = Some (fst t) /\
                                 coefs !! i = Some (snd t)) order (snd entry) /\
                      (forall j w t, coefs !! j = Some w -> ~ In j order ->
                                     In t (snd entry) -> w <= snd t)
                end) results.
Proof.
  intros Hk Hests. unfold extract_top_ngrams.
  set (feature_names := get_feature_names_out (nm_tfidf model)) in *.
  set (pairs := zip labels (nm_estimators model)).
  assert (Forall (fun le => match snd le with
                            | LogisticRegression coefs _ =>
                                (length coefs <= length feature_names)%nat
                            | ConstantPredictor _ => True
                            end) pairs) as Hpairs.
  { apply Forall_forall. intros [l e] Hin. simpl.
    rewrite Forall_forall in Hests. apply Hests.
    apply elem_of_zip_r in Hin. exact Hin. }
  destruct (mapR_Forall2
              (fun le => do terms <- top_terms_of feature_names top_k (snd le);
                         Ok (fst le, terms))
              (fun le entry =>
                 fst entry = fst le /\
                 top_terms_of feature_names top_k (snd le) = Ok (snd entry)) pairs)
    as (results & Hres & HF).
  { eapply Forall_impl; [exact Hpairs|]. simpl. intros le Hle.
    destruct (top_terms_of_spec feature_names top_k (snd le) Hk Hle) as (terms & Ht & _).
    exists (fst le, terms). rewrite Ht. done. }
  rewrite Hres. simpl. exists (PyDict.of_pairs results).
  split; [done|]. split; [apply of_pairs_NoDup|].
  assert (results.*1 = pairs.*1) as Hkeys.
  { apply (Forall2_same_keys
             (fun le entry => top_terms_of feature_names top_k (snd le)
                              = Ok (snd entry))).
    exact HF. }
  split; [intros label; by rewrite of_pairs_keys, Hkeys|].
  apply of_pairs_Forall. apply Forall_forall. intros entry Hentry.
  apply list_elem_of_In in Hentry.
  assert (exists le, In le pairs /\ fst entry = fst le /\
                     top_terms_of feature_names top_k (snd le) = Ok (snd entry))
    as (le & Hle & Hfst & Hterms).
  { clear -HF Hentry. induction HF as [|le e pairs' results' He _ IH]; [done|].
    destruct Hentry as [->|Hentry].
    - exists le. split; [by left|done].
    - destruct (IH Hentry) as (le' & ? & ?). exists le'. split; [by right|done]. }
  rewrite Forall_forall in Hpairs.
  destruct (top_terms_of_spec feature_names top_k (snd le) Hk
              (Hpairs le (proj2 (list_elem_of_In _ _) Hle)))
    as (terms & Ht & Hsorted & Hshape).
  rewrite Hterms in Ht. injection Ht as <-. split; [done|].
  exists (snd le). split; [|exact Hshape].
  rewrite Hfst. by destruct le.
Qed.

End Evaluation.

Section EvaluationExamples.
Import Num Models Retriever RetrieverSpec Evaluate.
Local Open Scope R_scope.
(** The examples run the code with the stable sort. *)
Local Existing Instance stable_sort.

Lemma effective_splits_fit_the_groups_witness :
  _effective_splits ["meta"; "meta"]%string 5 = 0%Z /\
  _effective_splits ["meta"; "acme"; "meta"; "initech"]%string 5 = 3%Z.
Proof.
  split.
  - apply (effective_splits_fit_the_groups ["meta"; "meta"]%string 5).
    vm_compute. reflexivity.
  - apply (effective_splits_fit_the_groups
             ["meta"; "acme"; "meta"; "initech"]%string 5);
      vm_compute; [discriminate|reflexivity].
Defined.

Lemma top_ngrams_are_ranked_by_coefficient_witness :
  exists results,
    extract_top_ngrams Examples.demo_narrative_model Utils.NARRATIVE_LABELS 15
    = Ok results /\
    NoDup results.*1 /\
    (forall label, label ∈ results.*1 <->
                   label ∈ (zip Utils.NARRATIVE_LABELS
                              (nm_estimators Examples.demo_narrative_model)).*1).
Proof.
  destruct (top_ngrams_are_ranked_by_coefficient
              Examples.demo_narrative_model Utils.NARRATIVE_LABELS 15)
    as (results & Hres & Hnd & Hkeys & _).
  - lia.
  - repeat (constructor; [simpl; lia || exact I|]). constructor.
  - exists results. done.
Defined.

End EvaluationExamples.


Section NarrativeEvidence.
Import PyStr Num Utils Models Explain Serving ServingSpec.
Local Open Scope R_scope.

Context {NP : ArgSort}.

(** The labels of the pairs whose estimator has coefficients. *)
Lemma narrative_top_loop_spec (vec_mat : list (nat * R)) (feature_names : list string)
    (Q : list Contribution -> Prop) (pairs : list (string * BinaryEstimator)) :
  (forall coefs, exists top,
      top_contributions_from_vec (length feature_names) vec_mat coefs feature_names 6
      = Ok top /\ Q top) ->
  forall out0,
    NoDup out0.*1 -> Forall (fun entry => Q (snd entry)) out0 ->
    exists out,
      narrative_top_loop vec_mat feature_names pairs out0 = Ok out /\
      NoDup out.*1 /\
      (forall label, label ∈ out.*1 <->
                     label ∈ out0.*1 \/
                     exists coefs b, In (label, LogisticRegression coefs b) pairs) /\
      Forall (fun entry => Q (snd entry)) out.
Proof.
  intros Htop. induction pairs as [|[label est] pairs IH]; intros out0 Hnd HQ.
  - exists out0. simpl. split; [done|]. split; [done|]. split; [|done].
    intros label. split; [by left|]. by intros [?|(? & ? & ?)].
  - destruct est as [coefs b|y]; simpl.
    + destruct (Htop coefs) as (top & Ht & HQt). rewrite Ht. simpl.
      destruct (IH (PyDict.set label top out0)) as (out & Hout & Hnd' & Hkeys & HQ').
      { by apply set_NoDup. }
      { by apply set_Forall. }
      exists out. split; [done|]. split; [done|]. split; [|done].
      intros l. rewrite Hkeys, set_keys. split.
      * intros [Hl|(c' & b' & Hin)].
        -- destruct (bool_decide (label ∈ out0.*1)); [by left|].
           apply elem_of_app in Hl as [?|Hl]; [by left|].
           apply list_elem_of_singleton in Hl as ->. right. exists coefs, b. by left.
        -- right. exists c', b'. by right.
      * intros [Hl|(c' & b' & [Heq|Hin])].
        -- left. destruct (bool_decide (label ∈ out0.*1)); [done|].
           apply elem_of_app. by left.
        -- injection Heq as -> _ _. left.
           destruct (bool_decide (l ∈ out0.*1)) eqn:E.
           ++ by apply bool_decide_eq_true in E.
           ++ apply elem_of_app. right. by apply list_elem_of_singleton.
        -- right. by exists c', b'.
    + destruct (IH out0 Hnd HQ) as (out & Hout & Hnd' & Hkeys & HQ').
      exists out. split; [done|]. split; [done|]. split; [|done].
      intros l. rewrite Hkeys. split.
      * intros [?|(c' & b' & Hin)]; [by left|]. right. exists c', b'. by right.
      * intros [?|(c' & b' & [Heq|Hin])]; [by left|done|]. right. by exists c', b'.
Qed.

(** X23. The narrative evidence of a text whose feature row stays within
    the vocabulary: a label has an entry exactly when it is paired with a
    linear estimator (a label paired with a constant estimator only has
    none), no label twice; every entry holds at most six contributions,
    in descending order of absolute weight. *)
Theorem narrative_evidence_is_ranked_per_label (self : Predictor) (text : string) :
  Forall (fun e => (fst e < length (get_feature_names_out
                                      (nm_tfidf (narrative_model self))))%nat)
         (transform (nm_tfidf (narrative_model self)) text) ->
  exists out,
    _narrative_top_ngrams self text = Ok out /\
    NoDup out.*1 /\
    (forall label,
       label ∈ out.*1 <->
       exists coefs b,
         In (label, LogisticRegression coefs b)
            (zip (narrative_labels self) (nm_estimators (narrative_model self)))) /\
    Forall (fun entry =>
              (length (snd entry) <= 6)%nat /\
              StronglySorted (fun a b => Rabs (weight b) <= Rabs (weight a))
                             (snd entry)) out.
Proof.
  intros Hcols. unfold _narrative_top_ngrams, vectorize.
  set (vec_mat := transform (nm_tfidf (narrative_model self)) text) in *.
  set (feature_names := get_feature_names_out (nm_tfidf (narrative_model self))) in *.
  destruct (narrative_top_loop_spec vec_mat feature_names
              (fun top => (length top <= 6)%nat /\
                          StronglySorted (fun a b => Rabs (weight b) <= Rabs (weight a)) top)
              (zip (narrative_labels self) (nm_estimators (narrative_model self))))
    with (out0 := @nil (string * list Contribution))
    as (out & Hout & Hnd & Hkeys & HQ).
  - intros coefs.
    destruct (top_contributions_spec (length feature_names) vec_mat coefs
                feature_names 6) as [Hmis Hfit].
    destruct (Nat.eq_dec (length feature_names) (length coefs)) as [Heq|Hne].
    + destruct Hfit as (order & top & Ht & Hlen & _ & _ & Hsorted & _); [done| |lia|].
      { eapply Forall_impl; [exact Hcols|]. simpl. intros e He. lia. }
      exists top. split; [done|]. split; [|done]. rewrite Hlen.
      change (Z.to_nat 6) with 6%nat. lia.
    + exists []. split; [by apply Hmis|]. split; [simpl; lia|constructor].
  - constructor.
  - constructor.
  - exists out. split; [done|]. split; [done|]. split; [|done].
    intros label. rewrite Hkeys. split; [|by right].
    intros [Hin|?]; [|done]. by apply elem_of_nil in Hin.
Qed.

End NarrativeEvidence.

Section NarrativeEvidenceExamples.
Import PyStr Num Utils Models Explain Serving ServingSpec.
Local Open Scope R_scope.
(** The examples run the code with the stable sort. *)
Local Existing Instance stable_sort.

Lemma narrative_evidence_is_ranked_per_label_witness :
  exists out,
    _narrative_top_ngrams Examples.demo_predictor "layoffs" = Ok out /\
    NoDup out.*1 /\
    Forall (fun entry =>
              (length (snd entry) <= 6)%nat /\
              StronglySorted (fun a b => Rabs (weight b) <= Rabs (weight a))
                             (snd entry)) out.
Proof.
  destruct (narrative_evidence_is_ranked_per_label Examples.demo_predictor "layoffs")
    as (out & Hout & Hnd & _ & HQ).
  - constructor; [simpl; lia|constructor].
  - exists out. done.
Defined.

End NarrativeEvidenceExamples.


(** * Properties of the run history and the HTTP handlers *)

Section History.
Import PyStr Num Serving Db.
Local Open Scope Z_scope.

Context {J : Type} (loads : string -> option J).

(** The entry [fetch_history] makes of a row. *)
Lemma fetch_history_entries (c : conn) (limit : Z) :
  map h_id (fetch_history loads c limit) = map id (select_runs c limit) /\
  Forall2 (fun r e =>
             h_id e = id r /\ h_created_at_iso e = created_at_iso r /\
             h_mode e = mode r /\ h_baseline_text e = baseline_text r /\
             h_variant_text e = variant_text r /\
             h_response e = match loads (response_json r) with
                            | Some resp_obj => inl resp_obj
                            | None => inr (response_json r)
                            end)
          (select_runs c limit) (fetch_history loads c limit).
Proof.
  unfold fetch_history. split.
  - by rewrite map_map.
  - apply Forall2_fmap_r, Forall_Forall2_diag, Forall_forall. intros r _. done.
Qed.

Lemma largest_rowid_ge (c : conn) :
  seq c <= largest_rowid c /\ Forall (fun r => id r <= largest_rowid c) (runs c).
Proof.
  unfold largest_rowid. induction (runs c) as [|r l [IH1 IH2]]; simpl.
  - split; [lia|constructor].
  - split; [lia|]. constructor; [lia|].
    eapply Forall_impl; [exact IH2|]. simpl. intros; lia.
Qed.

Lemma sorted_desc_snoc_largest {A : Type} (key : A -> R) (l : list A) (x : A) :
  Forall (fun y => (key y < key x)%R) l ->
  sorted_desc key (l ++ [x]) = x :: sorted_desc key l.
Proof.
  unfold sorted_desc. rewrite foldr_app. simpl.
  induction 1 as [|y l Hy _ IH]; simpl; [done|].
  rewrite IH. simpl. destruct (Rle_dec (key x) (key y)); [lra|done].
Qed.

(** X25. [insert_run] on a table whose row ids are not exhausted. When
    the response carries neither a non-empty [timestamp_iso] nor a
    [timestamp] in a [meta] entry, the insert fails on the NOT NULL
    column and stores nothing. Otherwise it appends one row: the row
    gets an id above every id of the table, the time stamp, the mode and
    the texts given and the JSON text of the response, and it is the
    first entry [fetch_history] returns from then on, followed by the
    entries it returned before. *)
Theorem inserted_run_heads_the_history
    (c : conn) (mode_ : string) (response : response_dict)
    (baseline_text_ variant_text_ : option string) :
  largest_rowid c < MAX_ROWID ->
  match match meta response with
        | Some m => py_or (timestamp_iso m) (timestamp m)
        | None => None
        end with
  | None =>
      insert_run c mode_ response baseline_text_ variant_text_
      = Throw (IntegrityError "NOT NULL constraint failed: runs.created_at_iso")
  | Some created =>
      let new := {| id := largest_rowid c + 1; created_at_iso := created;
                    mode := mode_; baseline_text := baseline_text_;
                    variant_text := variant_text_;
                    response_json := dumps response |} in
      let c' := {| runs := runs c ++ [new]; seq := id new |} in
      insert_run c mode_ response baseline_text_ variant_text_ = Return c' /\
      Forall (fun r => id r < id new) (runs c) /\
      select_runs c' 1 = [new] /\
      select_runs c' (-1) = new :: select_runs c (-1) /\
      map h_id (fetch_history loads c' (-1))
      = id new :: map h_id (fetch_history loads c (-1))
  end.
Proof.
  intros Hroom. unfold insert_run.
  assert ((MAX_ROWID <=? largest_rowid c) = false) as -> by (apply Z.leb_gt; lia).
  assert (py_or (timestamp_iso (default {| timestamp_iso := None; timestamp := None |}
                                  (meta response)))
                (timestamp (default {| timestamp_iso := None; timestamp := None |}
                              (meta response)))
          = match meta response with
            | Some m => py_or (timestamp_iso m) (timestamp m)
            | None => None
            end) as -> by (by destruct (meta response)).
  destruct (match meta response with Some m => _ | None => None end) as [created|];
    [|done].
  cbv zeta.
  set (new := {| id := largest_rowid c + 1; created_at_iso := created; mode := mode_;
                 baseline_text := baseline_text_; variant_text := variant_text_;
                 response_json := dumps response |}).
  split; [done|].
  assert (Forall (fun r => id r < id new) (runs c)) as Hlt.
  { destruct (largest_rowid_ge c) as [_ H]. eapply Forall_impl; [exact H|].
    simpl. intros; lia. }
  assert (sorted_desc (fun r => IZR (id r)) (runs c ++ [new])
          = new :: sorted_desc (fun r => IZR (id r)) (runs c)) as Hsort.
  { apply sorted_desc_snoc_largest. eapply Forall_impl; [exact Hlt|].
    simpl. intros r Hr. by apply IZR_lt. }
  split; [done|]. unfold select_runs. simpl. rewrite Hsort.
  split; [done|]. split; [done|].
  destruct (fetch_history_entries {| runs := runs c ++ [new]; seq := largest_rowid c + 1 |}
              (-1)) as [-> _].
  destruct (fetch_history_entries c (-1)) as [-> _].
  unfold select_runs. simpl. by rewrite Hsort.
Qed.

(** X26. [fetch_history] returns the most recent runs first: for a limit
    of at least 0 it returns min(limit, rows) entries, for a negative
    limit all of them; the entries are rows of the table, in descending
    order of id, and every row left out has an id no larger than any
    returned. The handler of [GET /history] returns these entries with
    their number. *)
Theorem history_is_most_recent_first (c : conn) (limit : Z) :
  let rows := fetch_history loads c limit in
  length rows = (if limit <? 0 then length (runs c)
                 else Nat.min (Z.to_nat limit) (length (runs c))) /\
  StronglySorted (fun a b => h_id b <= h_id a) rows /\
  (forall e, In e rows -> exists r, In r (runs c) /\ h_id e = id r /\
                                    h_mode e = mode r /\
                                    h_created_at_iso e = created_at_iso r /\
                                    h_baseline_text e = baseline_text r /\
                                    h_variant_text e = variant_text r) /\
  (exists rest, map h_id rows ++ rest ≡ₚ map id (runs c) /\
                forall i j, In i (map h_id rows) -> In j rest -> j <= i) /\
  Api.history loads c limit = (rows, length rows).
Proof.
  intros rows. destruct (fetch_history_entries c limit) as [Hids HF]. fold rows in Hids, HF.
  pose proof (sorted_desc_sorted (fun r => IZR (id r)) (runs c)) as Hs.
  pose proof (sorted_desc_Permutation (fun r => IZR (id r)) (runs c)) as Hp.
  set (ordered := sorted_desc (fun r => IZR (id r)) (runs c)) in *.
  assert (exists rest_runs,
            select_runs c limit ++ rest_runs = ordered /\
            length (select_runs c limit)
            = if limit <? 0 then length (runs c)
              else Nat.min (Z.to_nat limit) (length (runs c))) as (rest_runs & Hsplit & Hlen).
  { unfold select_runs. fold ordered. destruct (limit <? 0).
    - exists []. split; [by rewrite app_nil_r|]. by rewrite Hp.
    - exists (drop (Z.to_nat limit) ordered). split; [apply take_drop|].
      by rewrite length_take, Hp. }
  rewrite <- Hsplit in Hs, Hp.
  apply StronglySorted_app_inv in Hs as (Hs1 & _ & Hcross).
  assert (length rows = length (select_runs c limit)) as Hlr
    by (symmetry; by eapply Forall2_length).
  split; [by rewrite Hlr|]. split; [|split; [|split]].
  - clear -HF Hs1. induction HF as [|r e rs es [Hre _] HF' IH]; [constructor|].
    inversion Hs1 as [|? ? Hs' Hall]; subst. constructor; [by apply IH|].
    clear IH Hs' Hs1. induction HF' as [|r' e' rs' es' [Hre' _] _ IH']; [constructor|].
    inversion Hall as [|? ? Hrr Hall']; subst. constructor; [|by apply IH'].
    rewrite Hre, Hre'. by apply le_IZR.
  - intros e He.
    assert (exists r, In r (select_runs c limit) /\ h_id e = id r /\ h_mode e = mode r /\
                      h_created_at_iso e = created_at_iso r /\
                      h_baseline_text e = baseline_text r /\
                      h_variant_text e = variant_text r) as (r & Hr & Heq).
    { clear -HF He. induction HF as [|r e' rs es (H1 & H2 & H3 & H4 & H5 & _) _ IH];
        [done|]. destruct He as [->|He].
      - exists r. split; [by left|done].
      - destruct (IH He) as (r' & ? & ?). exists r'. split; [by right|done]. }
    exists r. split; [|done]. apply list_elem_of_In. rewrite <- Hp.
    apply elem_of_app. left. by apply list_elem_of_In.
  - exists (map id rest_runs). split.
    + rewrite Hids, <- map_app. by apply Permutation_map.
    + rewrite Hids. intros i j Hi Hj.
      apply in_map_iff in Hi as (ri & <- & Hri).
      apply in_map_iff in Hj as (rj & <- & Hrj).
      apply le_IZR. by apply Hcross.
  - done.
Qed.

End History.

Lemma inserted_run_heads_the_history_witness :
  Db.insert_run (Db._ensure_db None) "compare"
    {| Db.meta := None; Db.dumps := "{}" |} (Some "a"%string) (Some "b"%string)
  = Throw (IntegrityError "NOT NULL constraint failed: runs.created_at_iso") /\
  Db.select_runs
    {| Db.runs := [ {| Db.id := 1; Db.created_at_iso := "2025-12-19T03:19:00Z";
                       Db.mode := "analyze"; Db.baseline_text := Some "a"%string;
                       Db.variant_text := None; Db.response_json := "{}" |} ];
       Db.seq := 1 |} 1
  = [ {| Db.id := 1; Db.created_at_iso := "2025-12-19T03:19:00Z";
         Db.mode := "analyze"; Db.baseline_text := Some "a"%string;
         Db.variant_text := None; Db.response_json := "{}" |} ].
Proof.
  split.
  - apply (inserted_run_heads_the_history (fun _ : string => @None string)
             (Db._ensure_db None) "compare"
             {| Db.meta := None; Db.dumps := "{}" |} (Some "a"%string) (Some "b"%string)).
    reflexivity.
  - apply (inserted_run_heads_the_history (fun _ : string => @None string)
             (Db._ensure_db None) "analyze"
             {| Db.meta := Some {| Db.timestamp_iso := Some "2025-12-19T03:19:00Z"%string;
                                   Db.timestamp := None |};
                Db.dumps := "{}" |} (Some "a"%string) None).
    reflexivity.
Defined.


Section Handlers.
Import PyStr Num Serving Db.
Local Open Scope Z_scope.

Context {NP : ArgSort}.

Lemma strftime_iso_nonempty (now : Api.gmtime) :
  nonempty (chars (Api.strftime_iso now)) = true.
Proof.
  unfold Api.strftime_iso. rewrite !chars_app.
  destruct (chars (Api.tm_Y now)); done.
Qed.

(** X27. A comparison is never stored: with [save] set, the handler of
    [POST /analyze/compare] answers with an HTTP 500 error whatever the
    predictor returns, because the result of [compare] has no [meta]
    entry to take the time stamp of a run from; whether [save] is set or
    not, the history is the same after the call as before it. Without
    [save] the handler returns what [compare] returns, and a failure of
    [compare] becomes the 500 error "Compare failed". *)
Theorem compare_endpoint_never_saves
    (J : Api.Json) (predictor : option Predictor) (c : conn)
    (request : Api.CompareRequest) :
  (exists detail,
     Api.compare J predictor c request true = (Throw (HTTPException 500 detail), c) /\
     (predictor = None -> detail = "Models not loaded"%string) /\
     (predictor <> None -> detail = "Compare failed"%string)) /\
  (forall save, snd (Api.compare J predictor c request save) = c) /\
  (forall p,
     predictor = Some p ->
     Api.compare J predictor c request false
     = match Serving.compare p (Api.baseline_text request) (Api.variant_text request) with
       | Ok result => (Return result, c)
       | Raise _ => (Throw (HTTPException 500 "Compare failed"), c)
       end).
Proof.
  assert (forall result,
            exists e, insert_run c "compare" (Api.comparison_dict J result)
                        (Some (Api.baseline_text request))
                        (Some (Api.variant_text request)) = Throw e) as Hins.
  { intros result. unfold insert_run. simpl.
    destruct (MAX_ROWID <=? largest_rowid c); by eexists. }
  split; [|split].
  - unfold Api.compare. destruct predictor as [p|].
    + exists "Compare failed"%string. split; [|split; [done|done]].
      destruct (Serving.compare p _ _) as [result|]; [|done].
      destruct (Hins result) as [e ->]. done.
    + exists "Models not loaded"%string. split; [done|]. split; [done|]. by intros [].
  - intros save. unfold Api.compare. destruct predictor as [p|]; [|done].
    destruct (Serving.compare p _ _) as [result|]; [|done].
    destruct save; [|done]. destruct (Hins result) as [e ->]. done.
  - intros p ->. unfold Api.compare. by destruct (Serving.compare p _ _).
Qed.

(** X28. The handler of [POST /analyze] on a history whose row ids are
    not exhausted, [analyze] read as its model (the evidence lists the
    model leaves out computed without an exception). It answers with the result of [analyze] or with an
    HTTP 500 error, never with another exception; "Models not loaded"
    when there is no predictor, "Prediction failed" when [analyze]
    raises. When it answers with an error, or [save] is not set, the
    history is unchanged; when it answers with a result and [save] is
    set, the history holds exactly one more run, of mode "analyze", with
    the request's text as baseline text, no variant text, the time stamp
    of the result and an id above all others. *)
Theorem analyze_endpoint_saves_one_run
    (J : Api.Json) (predictor : option Predictor) (now : Api.gmtime) (c : conn)
    (request : AnalyzeRequest) (save : bool) :
  largest_rowid c < MAX_ROWID ->
  match predictor with
  | None =>
      Api.analyze J predictor now c request save
      = (Throw (HTTPException 500 "Models not loaded"), c)
  | Some p =>
      match Serving.analyze p request with
      | Raise _ =>
          Api.analyze J predictor now c request save
          = (Throw (HTTPException 500 "Prediction failed"), c)
      | Ok result =>
          Api.analyze J predictor now c request save
          = (Return result,
             if save
             then {| runs := runs c ++
                       [ {| id := largest_rowid c + 1;
                            created_at_iso := Api.strftime_iso now;
                            mode := "analyze";
                            baseline_text := Some (post_text request);
                            variant_text := None;
                            response_json :=
                              Api.dumps_analysis J (Api.strftime_iso now) result |} ];
                     seq := largest_rowid c + 1 |}
             else c) /\
          Forall (fun r => id r < largest_rowid c + 1) (runs c)
      end
  end.
Proof.
  intros Hroom. unfold Api.analyze. destruct predictor as [p|]; [|done].
  destruct (Serving.analyze p request) as [result|]; [|done].
  split.
  - destruct save; [|done]. unfold insert_run. simpl.
    assert ((MAX_ROWID <=? largest_rowid c) = false) as -> by (apply Z.leb_gt; lia).
    by rewrite strftime_iso_nonempty.
  - destruct (largest_rowid_ge c) as [_ H]. eapply Forall_impl; [exact H|].
    simpl. intros; lia.
Qed.

End Handlers.

Section HandlersExamples.
Import PyStr Num Serving Db.
Local Open Scope Z_scope.
(** The examples run the code with the stable sort. *)
Local Existing Instance stable_sort.

Lemma compare_endpoint_never_saves_witness :
  Api.compare {| Api.dumps_analysis := fun _ _ => ""%string;
                 Api.dumps_comparison := fun _ => ""%string |}
    (Some Examples.demo_predictor) (_ensure_db None)
    {| Api.baseline_text := "layoffs"; Api.variant_text := "layoffs" |} true
  = (Throw (HTTPException 500 "Compare failed"), _ensure_db None).
Proof.
  destruct (compare_endpoint_never_saves
              {| Api.dumps_analysis := fun _ _ => ""%string;
                 Api.dumps_comparison := fun _ => ""%string |}
              (Some Examples.demo_predictor) (_ensure_db None)
              {| Api.baseline_text := "layoffs"; Api.variant_text := "layoffs" |})
    as ((detail & Heq & _ & Hdetail) & _).
  rewrite Heq, Hdetail; done.
Defined.

Lemma analyze_endpoint_saves_one_run_witness :
  exists result,
    Api.analyze {| Api.dumps_analysis := fun _ _ => "{}"%string;
                   Api.dumps_comparison := fun _ => "{}"%string |}
      (Some Examples.demo_predictor)
      {| Api.tm_Y := "2025"; Api.tm_m := "12"; Api.tm_d := "19";
         Api.tm_H := "03"; Api.tm_M := "19"; Api.tm_S := "00" |}
      (_ensure_db None) {| post_text := "layoffs"; company_hint := None |} true
    = (Return result,
       {| runs := [ {| id := 1; created_at_iso := "2025-12-19T03:19:00Z";
                       mode := "analyze"; baseline_text := Some "layoffs"%string;
                       variant_text := None; response_json := "{}" |} ];
          seq := 1 |}).
Proof.
  destruct (proj2 demo_analysis) as (result & Hresult & _).
  pose proof (analyze_endpoint_saves_one_run
                {| Api.dumps_analysis := fun _ _ => "{}"%string;
                   Api.dumps_comparison := fun _ => "{}"%string |}
                (Some Examples.demo_predictor)
                {| Api.tm_Y := "2025"; Api.tm_m := "12"; Api.tm_d := "19";
                   Api.tm_H := "03"; Api.tm_M := "19"; Api.tm_S := "00" |}
                (_ensure_db None) {| post_text := "layoffs"; company_hint := None |}
                true eq_refl) as H.
  cbv beta iota in H. rewrite Hresult in H. destruct H as [H _].
  exists result. exact H.
Defined.

End HandlersExamples.

(** * Properties of the cleaning of scraped posts *)

Section Cleaning.
Import PyStr Convert ConvertSpec.
Context {Payload : Type}.
Implicit Types (p : post Payload) (st : cleaning Payload).

Lemma fill_stats_from (keys : list string) (k : string) :
  forall stats_ : PyDict.pydict Z,
    k ∈ keys \/ is_Some (PyDict.get k stats_) ->
    is_Some (PyDict.get k
               (foldl (fun s stat_key =>
                         match PyDict.get stat_key s with
                         | Some _ => s
                         | None => PyDict.set stat_key 0%Z s
                         end) stats_ keys)).
Proof.
  induction keys as [|k0 keys IH]; intros stats_ Hk; simpl.
  - destruct Hk as [Hk|Hk]; [by apply elem_of_nil in Hk|done].
  - apply IH. destruct Hk as [Hk|Hk].
    + apply elem_of_cons in Hk as [->|Hk]; [|by left]. right.
      destruct (PyDict.get k0 stats_) eqn:E; [by rewrite E|].
      rewrite get_set, String.eqb_refl. by eexists.
    + right. destruct (PyDict.get k0 stats_) eqn:E; [done|].
      rewrite get_set. destruct (String.eqb k k0); [by eexists|done].
Qed.

Lemma fill_stats_complete (stats_ : option (PyDict.pydict Z))
    (filled : PyDict.pydict Z) :
  fill_stats stats_ = Return filled ->
  Forall (fun k => is_Some (PyDict.get k filled)) STAT_KEYS.
Proof.
  destruct stats_ as [d|]; [|done]. intros H.
  assert (filled = foldl (fun s stat_key =>
                            match PyDict.get stat_key s with
                            | Some _ => s
                            | None => PyDict.set stat_key 0%Z s
                            end) d STAT_KEYS) as ->
    by (unfold fill_stats in H; congruence).
  apply Forall_forall. intros k Hk. apply fill_stats_from. by left.
Qed.

(** What one iteration does to a post that is not a duplicate: it counts
    one issue, or it appends the cleaned post, or it raises on a null
    entry. *)
Lemma clean_one_spec st p :
  match clean_one st p with
  | Return st' =>
      seen_urns st' = seen_urns st /\
      ((cleaned_posts st' = cleaned_posts st /\
        total_issues (found st') = S (total_issues (found st))) \/
       (exists p', cleaned_posts st' = cleaned_posts st ++ [p'] /\
                   found st' = found st /\
                   cleaned_ok p' /\ truthy_urn p' = truthy_urn p))
  | Throw e => (e = not_iterable \/ e = no_lower) /\ ~ null_free p
  end.
Proof.
  unfold clean_one.
  destruct (text p) as [t|]; [|split; [done|left; split; [done|]]].
  2:{ unfold total_issues. simpl. lia. }
  destruct (nonempty _) eqn:Hne; cbn [negb];
    [|split; [done|left; split; [done|unfold total_issues; simpl; lia]]].
  destruct (stats p) as [stats_|] eqn:Hs;
    [|split; [done|left; split; [done|unfold total_issues; simpl; lia]]].
  destruct (author p) as [author_|] eqn:Ha;
    [|split; [done|left; split; [done|unfold total_issues; simpl; lia]]].
  destruct (posted_at p) as [posted|] eqn:Hp;
    [|split; [done|left; split; [done|unfold total_issues; simpl; lia]]].
  destruct (fill_stats stats_) as [filled|e] eqn:Hfill.
  2:{ destruct stats_; [done|]. injection Hfill as <-.
      split; [by left|]. intros (Hnull & _). by apply Hnull. }
  destruct (infer_company (source_company p) author_) as [company|e] eqn:Hc.
  2:{ assert ((e = not_iterable \/ e = no_lower) /\
              (author_ = None \/ exists a, author_ = Some a /\ name a = Some None))
        as [He Hwhy].
      { unfold infer_company in Hc.
        assert (match author_ with
                | Some a => match name a with
                            | Some (Some n) =>
                                Return (Some (string_of_list_ascii (lower (chars n))))
                            | Some None => Throw no_lower
                            | None => Return (source_company p)
                            end
                | None => Throw not_iterable
                end = Throw e) as Hfrom.
        { destruct (source_company p) as [s|]; [|done].
          by destruct (nonempty (chars s)). }
        destruct author_ as [a|]; [|injection Hfrom as <-; split; [by left|by left]].
        destruct (name a) as [[n|]|] eqn:Hn; [done| |done].
        injection Hfrom as <-. split; [by right|]. right. by exists a. }
      split; [done|]. intros (_ & Hnull & Hname).
      destruct Hwhy as [->|(a & -> & Hn)]; [by apply Hnull|].
      by apply (Hname a). }
  split; [done|]. right. eexists. split; [done|]. split; [done|]. split.
  - unfold cleaned_ok. simpl. eexists _, _. split; [done|].
    rewrite chars_string_of_list. split.
    + destruct t as [s|]; [apply strip_idem|done].
    + split; [by destruct (match t with Some s => _ | None => _ end)|].
      split; [done|]. split; [by eapply fill_stats_complete|].
      split; [by eexists|]. split; [by eexists|].
      by destruct (document p) as [[?|]|].
  - done.
Qed.

Lemma clean_one_total st p :
  null_free p -> exists st', clean_one st p = Return st'.
Proof.
  intros Hnf. pose proof (clean_one_spec st p) as H.
  destruct (clean_one st p) as [st'|e]; [by exists st'|].
  by destruct H as [_ H].
Qed.

Lemma clean_step_invariant st p (n : nat) :
  (length (cleaned_posts st) + total_issues (found st) = n)%nat ->
  Forall cleaned_ok (cleaned_posts st) ->
  NoDup (omap truthy_urn (cleaned_posts st)) ->
  (forall u, u ∈ omap truthy_urn (cleaned_posts st) -> u ∈ seen_urns st) ->
  match clean_step st p with
  | Return st' =>
      (length (cleaned_posts st') + total_issues (found st') = S n)%nat /\
      Forall cleaned_ok (cleaned_posts st') /\
      NoDup (omap truthy_urn (cleaned_posts st')) /\
      (forall u, u ∈ omap truthy_urn (cleaned_posts st') -> u ∈ seen_urns st')
  | Throw e => (e = not_iterable \/ e = no_lower) /\ ~ null_free p
  end.
Proof.
  intros Hn Hok Hnd Hseen. unfold clean_step.
  destruct (truthy_urn p) as [urn|] eqn:Hurn.
  - destruct (bool_decide (urn ∈ seen_urns st)) eqn:Hin.
    + simpl. split; [unfold total_issues in *; simpl; lia|]. done.
    + apply bool_decide_eq_false in Hin.
      set (st1 := {| cleaned_posts := cleaned_posts st;
                     seen_urns := urn :: seen_urns st; found := found st |}).
      pose proof (clean_one_spec st1 p) as H1.
      destruct (clean_one st1 p) as [st'|e]; [|done].
      destruct H1 as [Hs [[Hc Hf]|(p' & Hc & Hf & Hp' & Hu)]];
        rewrite Hs, Hc; simpl.
      * split; [rewrite Hf; simpl; lia|]. split; [done|]. split; [done|].
        intros u Hu. apply list_elem_of_further. by apply Hseen.
      * rewrite Hf. simpl. rewrite !length_app. simpl.
        split; [lia|]. split; [apply Forall_app; split; [done|by constructor]|].
        rewrite omap_app. simpl. rewrite Hu, Hurn. simpl. split.
        -- apply NoDup_app. split; [done|]. split; [|apply NoDup_singleton].
           intros u Hu1 Hu2. apply list_elem_of_singleton in Hu2 as ->.
           apply Hin. by apply Hseen.
        -- intros u Hu'. apply elem_of_app in Hu' as [Hu'|Hu'].
           ++ apply list_elem_of_further. by apply Hseen.
           ++ apply list_elem_of_singleton in Hu' as ->. apply list_elem_of_here.
  - pose proof (clean_one_spec st p) as H1.
    destruct (clean_one st p) as [st'|e]; [|done].
    destruct H1 as [Hs [[Hc Hf]|(p' & Hc & Hf & Hp' & Hu)]]; rewrite Hs, Hc.
    + split; [rewrite Hf; lia|]. done.
    + rewrite Hf, !length_app. simpl.
      split; [lia|]. split; [apply Forall_app; split; [done|by constructor]|].
      rewrite omap_app. simpl. rewrite Hu, Hurn. simpl. rewrite app_nil_r. done.
Qed.

Lemma clean_step_total st p :
  null_free p -> exists st', clean_step st p = Return st'.
Proof.
  intros Hnf. unfold clean_step. destruct (truthy_urn p) as [urn|].
  - destruct (bool_decide _); [by eexists|by apply clean_one_total].
  - by apply clean_one_total.
Qed.

Lemma clean_loop_invariant (posts : list (post Payload)) :
  forall st (n : nat),
    (length (cleaned_posts st) + total_issues (found st) = n)%nat ->
    Forall cleaned_ok (cleaned_posts st) ->
    NoDup (omap truthy_urn (cleaned_posts st)) ->
    (forall u, u ∈ omap truthy_urn (cleaned_posts st) -> u ∈ seen_urns st) ->
    match clean_loop st posts with
    | Return st' =>
        (length (cleaned_posts st') + total_issues (found st')
         = n + length posts)%nat /\
        Forall cleaned_ok (cleaned_posts st') /\
        NoDup (omap truthy_urn (cleaned_posts st'))
    | Throw e => (e = not_iterable \/ e = no_lower) /\ ~ Forall null_free posts
    end.
Proof.
  induction posts as [|p posts IH]; intros st n Hn Hok Hnd Hseen; simpl.
  - split; [lia|done].
  - pose proof (clean_step_invariant st p n Hn Hok Hnd Hseen) as Hstep.
    destruct (clean_step st p) as [st1|e].
    + destruct Hstep as (H1 & H2 & H3 & H4).
      specialize (IH st1 (S n) H1 H2 H3 H4).
      destruct (clean_loop st1 posts) as [st'|e].
      * destruct IH as (H5 & H6 & H7). split; [lia|done].
      * destruct IH as [He Hnot]. split; [done|].
        intros Hall. apply Hnot. by apply Forall_cons in Hall as [_ ?].
    + destruct Hstep as [He Hnot]. split; [done|].
      intros Hall. apply Hnot. by apply Forall_cons in Hall as [? _].
Qed.

Lemma clean_loop_total (posts : list (post Payload)) :
  Forall null_free posts -> forall st, exists st', clean_loop st posts = Return st'.
Proof.
  induction 1 as [|p posts Hp _ IH]; intros st; simpl; [by eexists|].
  destruct (clean_step_total st p Hp) as [st1 ->]. apply IH.
Qed.

(** X24. The cleaning of scraped posts. It returns when no post has a
    null [stats], a null [author] or an author with a null [name]. When
    it returns, it accounts for every post: each post is either handed on
    or counted under exactly one issue, so the cleaned posts and the
    counts together number the posts read; every post handed on has a
    trimmed, non-empty text, all eight counts in its [stats], an [author]
    entry, a time of posting and no null [document]; and no two posts
    handed on have the same urn. When it raises, it raises the
    [TypeError] or the [AttributeError] of a null entry, and some post
    has one. *)
Theorem cleaning_accounts_for_every_post (posts : list (post Payload)) :
  (Forall null_free posts ->
   exists cleaned found, clean_linkedin_post_data posts = Return (cleaned, found)) /\
  (forall cleaned found,
     clean_linkedin_post_data posts = Return (cleaned, found) ->
     (length cleaned + total_issues found = length posts)%nat /\
     Forall cleaned_ok cleaned /\
     NoDup (omap truthy_urn cleaned)) /\
  (forall e,
     clean_linkedin_post_data posts = Throw e ->
     (e = not_iterable \/ e = no_lower) /\ ~ Forall null_free posts).
Proof.
  unfold clean_linkedin_post_data.
  set (st0 := {| cleaned_posts := []; seen_urns := [];
                 found := {| missing_text := 0; empty_text := 0; missing_stats := 0;
                             missing_author := 0; missing_timestamp := 0;
                             duplicates := 0 |} |} : cleaning Payload).
  assert (match clean_loop st0 posts with
          | Return st' =>
              (length (cleaned_posts st') + total_issues (found st')
               = 0 + length posts)%nat /\
              Forall cleaned_ok (cleaned_posts st') /\
              NoDup (omap truthy_urn (cleaned_posts st'))
          | Throw e => (e = not_iterable \/ e = no_lower) /\ ~ Forall null_free posts
          end) as Hinv.
  { apply clean_loop_invariant.
    - done.
    - constructor.
    - constructor.
    - intros u Hu. by apply elem_of_nil in Hu. }
  split; [|split].
  - intros Hall. destruct (clean_loop_total posts Hall st0) as [st' ->].
    by eexists _, _.
  - intros cleaned found_. destruct (clean_loop st0 posts) as [st'|e]; [|done].
    intros [= <- <-]. done.
  - intros e. destruct (clean_loop st0 posts) as [st'|e']; [done|].
    by intros [= <-].
Qed.

End Cleaning.

Section CleaningExample.
Import PyStr Convert ConvertSpec.

(** Three scraped posts: a complete one, the same urn again, and one
    whose text is blank; and a post whose [stats] are null. *)
Lemma cleaning_accounts_for_every_post_witness :
  let complete :=
    {| activity_urn := Some "urn:li:activity:1"%string; full_urn := None;
       text := Some (Some " We are hiring "%string);
       stats := Some (Some (PyDict.set "like"%string 3%Z []));
       author := Some (Some {| name := Some (Some "Acme"%string); author_rest := tt |});
       posted_at := Some tt; source_company := None; document := Some None |} in
  let blank :=
    {| activity_urn := None; full_urn := Some "urn:li:activity:2"%string;
       text := Some (Some "  "%string); stats := None; author := None;
       posted_at := None; source_company := None; document := None |} in
  let null_stats :=
    {| activity_urn := None; full_urn := None;
       text := Some (Some "Results"%string); stats := Some None;
       author := Some (Some {| name := None; author_rest := tt |});
       posted_at := Some tt; source_company := None; document := None |} in
  (exists cleaned found,
     clean_linkedin_post_data [complete; complete; blank] = Return (cleaned, found) /\
     (length cleaned + total_issues found = 3)%nat /\
     map (text (Payload:=unit)) cleaned = [Some (Some "We are hiring"%string)] /\
     map (source_company (Payload:=unit)) cleaned = [Some "acme"%string] /\
     duplicates found = 1%nat /\ empty_text found = 1%nat) /\
  clean_linkedin_post_data [complete; null_stats] = Throw not_iterable.
Proof.
  intros complete blank null_stats. split; [|reflexivity].
  destruct (cleaning_accounts_for_every_post [complete; complete; blank])
    as (Htotal & Hret & _).
  destruct Htotal as (cleaned & found_ & Hc).
  { repeat constructor; try discriminate. all: intros a [= <-]; discriminate. }
  exists cleaned, found_. split; [exact Hc|].
  split; [by apply (Hret cleaned found_)|].
  assert (Return (cleaned, found_)
          = clean_linkedin_post_data [complete; complete; blank]) as Heq by done.
  vm_compute in Heq. injection Heq as -> ->. repeat split; reflexivity.
Defined.

End CleaningExample.
